(** * lagomorph: affine algebra, regridding, streaming average, atlas
      scheduler and flow composition

    A shallow embedding of [lagomorph/affine/__init__.py] and
    [lagomorph/deform.py].

    Scalars.  The tensors of the program hold IEEE floating-point numbers.
    The embedding idealises them as exact numbers: canonical rationals [Qc]
    wherever the code only adds, subtracts, multiplies and divides, and
    real numbers [R] for the rotation generator, which calls [cos] and
    [sin].  Casts between float widths are the identity on such values.
    Division is only used by the theorems at non-zero divisors, where the
    idealisation is faithful.

    Exceptions.  A Python exception is a value [Err e] of the type
    [result]; code that mutates GPU buffers is written in a state-and-error
    monad over an explicit heap of buffers. *)

From Stdlib Require Import ZArith QArith Qcanon Reals Lra Lia.
From stdpp Require Import base option list gmap.

(** ** Python exceptions *)

Inductive pyerr : Set :=
  | ValueError
  | NotImplementedError
  | AssertionError
  | IndexError
  | TypeError
  | ZeroDivisionError
  | RuntimeError
  | NameError
  | UnboundLocalError
  | AttributeError
  | Exception_.

Inductive result (A : Type) : Type :=
  | OK (a : A)
  | Err (e : pyerr).
Arguments OK {A} a.
Arguments Err {A} e.

#[global] Instance result_ret : MRet result := @OK.
#[global] Instance result_bind : MBind result := λ A B f r,
  match r with OK a => f a | Err e => Err e end.
#[global] Instance result_fmap : FMap result := λ A B f r,
  match r with OK a => OK (f a) | Err e => Err e end.

(** [assert b] *)
Definition py_assert (b : bool) : result unit :=
  if b then OK () else Err AssertionError.

Definition is_OK {A} (r : result A) : Prop := ∃ a, r = OK a.

(** ** Tensors of rank 1, 2 and 3

    A rank-1 tensor of extent N is a list of length N.  A rank-3 tensor of
    shape (N, d1, d2) keeps its two trailing extents beside the N items, so
    that the shape of an empty batch is still known; every item is a list
    of d1 rows of d2 entries. *)

Section Tensor.
Context {K : Type}.

Record tensor3 : Type := Tensor3 {
  dim1 : nat;
  dim2 : nat;
  items : list (list (list K))
}.

Definition matrix_shape (r c : nat) (M : list (list K)) : Prop :=
  length M = r ∧ Forall (λ row, length row = c) M.

(** The items agree with the declared shape. *)
Definition tensor3_wf (A : tensor3) : Prop :=
  Forall (matrix_shape (dim1 A) (dim2 A)) (items A).

(** Rank-2 tensor of shape (N, d). *)
Record tensor2 : Type := Tensor2 {
  tdim : nat;
  titems : list (list K)
}.

Definition tensor2_wf (T : tensor2) : Prop :=
  Forall (λ row, length row = tdim T) (titems T).

Definition entry (M : list (list K)) (i j : nat) : option K :=
  M !! i ≫= λ row, row !! j.

(** [A[:,i,j]] *)
Definition sel (A : tensor3) (i j : nat) : result (list K) :=
  if decide (i < dim1 A ∧ j < dim2 A) then
    match mapM (λ M, entry M i j) (items A) with
    | Some v => OK v
    | None => Err IndexError
    end
  else Err IndexError.

(** [torch.stack(cols, dim=1)] of k rank-1 tensors of extent [n]: the
    result has shape (n, k), row b holding the b-th entry of every
    column.  All columns must have the same extent. *)
Definition stack1 (n : nat) (cols : list (list K)) : result (list (list K)) :=
  if decide (Forall (λ c, length c = n) cols) then
    OK (foldr (zip_with cons) (replicate n []) cols)
  else Err RuntimeError.

(** One item of [view(-1, d1, d2)]: a row of d1*d2 entries cut into d1
    rows of d2 entries (row-major). *)
Fixpoint chunk (d1 d2 : nat) (row : list K) : list (list K) :=
  match d1 with
  | O => []
  | S d1' => take d2 row :: chunk d1' d2 (drop d2 row)
  end.

(** [x.view(-1, d1, d2)] for [x] of shape (N, d1*d2). *)
Definition view3 (d1 d2 : nat) (x : list (list K)) : result tensor3 :=
  if decide (Forall (λ row, length row = d1 * d2) x) then
    OK (Tensor3 d1 d2 (map (chunk d1 d2) x))
  else Err RuntimeError.

(** [A.narrow(1, start, len)] *)
Definition narrow1 (A : tensor3) (start len : nat) : result tensor3 :=
  if decide (start + len ≤ dim1 A) then
    OK (Tensor3 len (dim2 A) (map (λ M, take len (drop start M)) (items A)))
  else Err RuntimeError.

(** [A.narrow(2, start, len)] *)
Definition narrow2 (A : tensor3) (start len : nat) : result tensor3 :=
  if decide (start + len ≤ dim2 A) then
    OK (Tensor3 (dim1 A) len
          (map (map (λ row, take len (drop start row))) (items A)))
  else Err RuntimeError.

(** [torch.cat((A, B), dim=1)] *)
Definition cat1 (A B : tensor3) : result tensor3 :=
  if decide (length (items A) = length (items B) ∧ dim2 A = dim2 B) then
    OK (Tensor3 (dim1 A + dim1 B) (dim2 A) (zip_with app (items A) (items B)))
  else Err RuntimeError.

(** [torch.cat((A, B), dim=2)] *)
Definition cat2 (A B : tensor3) : result tensor3 :=
  if decide (length (items A) = length (items B) ∧ dim1 A = dim1 B) then
    OK (Tensor3 (dim1 A) (dim2 A + dim2 B)
          (zip_with (zip_with app) (items A) (items B)))
  else Err RuntimeError.

(** Transpose of one r-by-c matrix. *)
Definition mtranspose (c : nat) (M : list (list K)) : list (list K) :=
  foldr (zip_with cons) (replicate c []) M.

(** [A.transpose(1, 2)] *)
Definition transpose12 (A : tensor3) : tensor3 :=
  Tensor3 (dim2 A) (dim1 A) (map (mtranspose (dim2 A)) (items A)).
End Tensor.
Arguments tensor3 K : clear implicits.
Arguments tensor2 K : clear implicits.

(** ** lagomorph/affine/__init__.py *)

Module Affine.

(** *** Elementwise arithmetic on rank-1 tensors

    The operands below always come from the same batch, so they have the
    same extent and no broadcasting takes place. *)

Definition vmul (x y : list Qc) : list Qc := zip_with Qcmult x y.
Definition vadd (x y : list Qc) : list Qc := zip_with Qcplus x y.
Definition vsub (x y : list Qc) : list Qc := zip_with Qcminus x y.
Definition vneg (x : list Qc) : list Qc := map Qcopp x.

(** [A / det.view(-1,1,1)]: every entry of item b divided by [det[b]]. *)
Definition bdiv (A : tensor3 Qc) (det : list Qc) : result (tensor3 Qc) :=
  if decide (length (items A) = length det) then
    OK (Tensor3 (dim1 A) (dim2 A)
          (zip_with (λ M d, map (map (λ x, (x / d)%Qc)) M) (items A) det))
  else Err RuntimeError.

(** *** Matrix algebra *)

Definition det_2x2 (A : tensor3 Qc) : result (list Qc) :=
  a00 ← sel A 0 0;
  a11 ← sel A 1 1;
  a01 ← sel A 0 1;
  a10 ← sel A 1 0;
  OK (vsub (vmul a00 a11) (vmul a01 a10)).

Definition invert_2x2 (A : tensor3 Qc) : result (tensor3 Qc) :=
  det ← det_2x2 A;
  a11 ← sel A 1 1;
  a01 ← sel A 0 1;
  a10 ← sel A 1 0;
  a00 ← sel A 0 0;
  st ← stack1 (length (items A)) [a11; vneg a01; vneg a10; a00];
  v ← view3 2 2 st;
  bdiv v det.

Definition minor (A : tensor3 Qc) (i j : nat) : result (tensor3 Qc) :=
  py_assert (bool_decide (dim1 A = dim2 A)) ;;
  let n := dim1 A in
  top ← narrow1 A 0 i;
  bot ← narrow1 A (i + 1) (n - i - 1);
  M ← cat1 top bot;
  left ← narrow2 M 0 j;
  right ← narrow2 M (j + 1) (n - j - 1);
  cat2 left right.

(** [det_2x2(minor(A,i,j))] *)
Definition minor_det (A : tensor3 Qc) (i j : nat) : result (list Qc) :=
  minor A i j ≫= det_2x2.

Definition invert_3x3 (A : tensor3 Qc) : result (tensor3 Qc) :=
  c00 ← minor_det A 0 0;
  c01 ← minor_det A 0 1;
  c02 ← minor_det A 0 2;
  c10 ← minor_det A 1 0;
  c11 ← minor_det A 1 1;
  c12 ← minor_det A 1 2;
  c20 ← minor_det A 2 0;
  c21 ← minor_det A 2 1;
  c22 ← minor_det A 2 2;
  st ← stack1 (length (items A))
         [c00; vneg c01; c02; vneg c10; c11; vneg c12; c20; vneg c21; c22];
  v ← view3 3 3 st;
  let cofactors := transpose12 v in
  k00 ← sel cofactors 0 0;
  a00 ← sel A 0 0;
  k10 ← sel cofactors 1 0;
  a01 ← sel A 0 1;
  k20 ← sel cofactors 2 0;
  a02 ← sel A 0 2;
  let det := vadd (vadd (vmul k00 a00) (vmul k10 a01)) (vmul k20 a02) in
  bdiv cofactors det.

(** *** Affine transforms *)

Definition dot (x y : list Qc) : Qc := foldr Qcplus 0%Qc (zip_with Qcmult x y).

Definition matvec (M : list (list Qc)) (t : list Qc) : list Qc :=
  map (λ row, dot row t) M.

(** [torch.matmul(A, T.unsqueeze(2)).squeeze(2)] for [A] of shape
    (N, d1, d2) and [T] of shape (N', d2); the batch extents are broadcast
    against each other when one of them is 1. *)
Definition bmatvec (A : tensor3 Qc) (T : tensor2 Qc) : result (tensor2 Qc) :=
  if decide (dim2 A = tdim T) then
    if decide (length (items A) = length (titems T)) then
      OK (Tensor2 (dim1 A) (zip_with matvec (items A) (titems T)))
    else match items A, titems T with
         | [M], ts => OK (Tensor2 (dim1 A) (map (matvec M) ts))
         | Ms, [t] => OK (Tensor2 (dim1 A) (map (λ M, matvec M t) Ms))
         | _, _ => Err RuntimeError
         end
  else Err RuntimeError.

Definition tneg (T : tensor2 Qc) : tensor2 Qc :=
  Tensor2 (tdim T) (map (map Qcopp) (titems T)).

Definition affine_inverse (A : tensor3 Qc) (T : tensor2 Qc)
  : result (tensor3 Qc * tensor2 Qc) :=
  py_assert (bool_decide (dim1 A = dim2 A)) ;;
  py_assert (bool_decide (dim1 A = tdim T)) ;;
  let dim := dim1 A in
  py_assert (bool_decide (dim = 2 ∨ dim = 3)) ;;
  Ainv ← (if decide (dim = 2) then invert_2x2 A else invert_3x3 A);
  AT ← bmatvec Ainv T;
  OK (Ainv, tneg AT).

(** *** Per-matrix reference definitions

    The textbook definitions for one matrix, written after the
    specification: minors by deleting a row and a column, cofactors
    [C_ij = (-1)^(i+j) * det(minor_ij)], the determinant by expansion along
    the first row, the inverse as transposed cofactor matrix over the
    determinant. *)

Definition get (M : list (list Qc)) (i j : nat) : Qc :=
  default 0%Qc (entry M i j).

Definition minor_spec (M : list (list Qc)) (i j : nat) : list (list Qc) :=
  map (delete j) (delete i M).

Definition det2_spec (M : list (list Qc)) : Qc :=
  (get M 0 0 * get M 1 1 - get M 0 1 * get M 1 0)%Qc.

Definition sign (n : nat) : Qc := if Nat.even n then 1%Qc else (- 1)%Qc.

Definition cofactor_spec (M : list (list Qc)) (i j : nat) : Qc :=
  (sign (i + j) * det2_spec (minor_spec M i j))%Qc.

Definition cofactor_matrix_spec (M : list (list Qc)) : list (list Qc) :=
  map (λ i, map (λ j, cofactor_spec M i j) (seq 0 3)) (seq 0 3).

Definition det3_spec (M : list (list Qc)) : Qc :=
  foldr Qcplus 0%Qc (map (λ j, (get M 0 j * cofactor_spec M 0 j)%Qc) (seq 0 3)).

Definition mdiv (M : list (list Qc)) (d : Qc) : list (list Qc) :=
  map (map (λ x, (x / d)%Qc)) M.

Definition inverse3_spec (M : list (list Qc)) : list (list Qc) :=
  mdiv (mtranspose 3 (cofactor_matrix_spec M)) (det3_spec M).

(** Adjugate over determinant for a 2x2 matrix. *)
Definition inverse2_spec (M : list (list Qc)) : list (list Qc) :=
  mdiv [[get M 1 1; (- get M 0 1)%Qc]; [(- get M 1 0)%Qc; get M 0 0]]
       (det2_spec M).

(** What [invert_3x3] computes on one item, read off the code: the nine
    signed minors stacked row-major, transposed, and divided by the
    determinant that the code forms from the first column of the
    transposed matrix. *)
Definition invert_3x3_item (M : list (list Qc)) : list (list Qc) :=
  let m i j := det2_spec (minor_spec M i j) in
  let cofactors :=
    mtranspose 3 (chunk 3 3
      [m 0 0; Qcopp (m 0 1); m 0 2;
       Qcopp (m 1 0); m 1 1; Qcopp (m 1 2);
       m 2 0; Qcopp (m 2 1); m 2 2]) in
  mdiv cofactors
    (get cofactors 0 0 * get M 0 0 + get cofactors 1 0 * get M 0 1
     + get cofactors 2 0 * get M 0 2)%Qc.

Definition mat_mul (c : nat) (A B : list (list Qc)) : list (list Qc) :=
  map (λ row, map (dot row) (mtranspose c B)) A.

Definition identity (d : nat) : list (list Qc) :=
  map (λ i, map (λ j, if decide (i = j) then 1%Qc else 0%Qc) (seq 0 d)) (seq 0 d).

(** A d-by-d matrix is invertible when it has a two-sided inverse. *)
Definition invertible (d : nat) (M : list (list Qc)) : Prop :=
  ∃ B, matrix_shape d d B ∧ mat_mul d M B = identity d ∧ mat_mul d B M = identity d.

End Affine.

(** *** Decidable equality, for evaluating closed examples *)

#[global] Instance pyerr_eq_dec : EqDecision pyerr.
Proof. solve_decision. Defined.
#[global] Instance result_eq_dec {A} `{EqDecision A} : EqDecision (result A).
Proof. solve_decision. Defined.
#[global] Instance tensor3_eq_dec {K} `{EqDecision K} : EqDecision (tensor3 K).
Proof. solve_decision. Defined.
#[global] Instance tensor2_eq_dec {K} `{EqDecision K} : EqDecision (tensor2 K).
Proof. solve_decision. Defined.

(** The rational n/d. *)
Definition qc (n : Z) (d : positive) : Qc := Q2Qc (n # d).

(** A Python int as a float. *)
Definition Z2Qc (z : Z) : Qc := Q2Qc (inject_Z z).

Module AffineExamples.
(** diag(2,4,5) and its inverse diag(0.5,0.25,0.2) *)
Definition diag245 : list (list Qc) :=
  [[qc 2 1; qc 0 1; qc 0 1]; [qc 0 1; qc 4 1; qc 0 1]; [qc 0 1; qc 0 1; qc 5 1]].
Definition diag245_inv : list (list Qc) :=
  [[qc 1 2; qc 0 1; qc 0 1]; [qc 0 1; qc 1 4; qc 0 1]; [qc 0 1; qc 0 1; qc 1 5]].

(** A full 3x3 matrix of determinant 1 and its inverse. *)
Definition full3 : list (list Qc) :=
  [[qc 1 1; qc 2 1; qc 3 1]; [qc 0 1; qc 1 1; qc 4 1]; [qc 5 1; qc 6 1; qc 0 1]].
Definition full3_inv : list (list Qc) :=
  [[qc (-24) 1; qc 18 1; qc 5 1]; [qc 20 1; qc (-15) 1; qc (-4) 1];
   [qc (-5) 1; qc 4 1; qc 1 1]].

Definition batch3 : tensor3 Qc := Tensor3 3 3 [diag245; full3].

(** A 2x2 example with its translation. *)
Definition full2 : list (list Qc) := [[qc 1 1; qc 2 1]; [qc 3 1; qc 4 1]].
Definition full2_inv : list (list Qc) :=
  [[qc (-2) 1; qc 1 1]; [qc 3 2; qc (-1) 2]].
Definition batch2 : tensor3 Qc := Tensor3 2 2 [full2].
Definition trans2 : tensor2 Qc := Tensor2 2 [[qc 1 1; qc 1 1]].
Definition trans3 : tensor2 Qc :=
  Tensor2 3 [[qc 1 1; qc 2 1; qc 3 1]; [qc 1 2; qc 0 1; qc (-1) 1]].
End AffineExamples.

(** *** Rotation generator

    The angles are real numbers here, since the code calls [cos] and
    [sin]. *)

Module Rotation.
(** The argument [v], by rank: [v.dim()] is 1, 2, or something else. *)
Inductive vtensor : Type :=
  | Rank1 (v : list R)
  | Rank2 (T : tensor2 R)
  | RankOther (shape : list nat).

Definition rotation_exp_map (v : vtensor) : result (tensor3 R) :=
  match v with
  | Rank1 v =>
      (* c = torch.cos(v).view(-1,1);  s = torch.sin(v).view(-1,1) *)
      let c := map (λ a, [cos a]) v in
      let s := map (λ a, [sin a]) v in
      (* torch.stack((c, -s, s, c), dim=1) has shape (N,4,1) *)
      st ← stack1 (length v) [c; map (map Ropp) s; s; c];
      view3 2 2 (map (λ item, List.concat item) st)
  | Rank2 T =>
      if decide (tdim T = 3) then Err NotImplementedError else Err Exception_
  | RankOther _ => Err Exception_
  end.

(** Reference linear algebra over the reals. *)
Definition rdot (x y : list R) : R := foldr Rplus 0%R (zip_with Rmult x y).

Definition rmat_mul (c : nat) (A B : list (list R)) : list (list R) :=
  map (λ row, map (rdot row) (mtranspose c B)) A.

Definition ridentity (d : nat) : list (list R) :=
  map (λ i, map (λ j, if decide (i = j) then 1%R else 0%R) (seq 0 d)) (seq 0 d).

(** The standard rotation by the angle [a]. *)
Definition rot2 (a : R) : list (list R) :=
  [[cos a; (- sin a)%R]; [sin a; cos a]].
End Rotation.

(** *** Streaming average *)

Module Streaming.

Inductive dtype : Set := uint8 | int32 | int64 | float16 | float32 | float64.

#[global] Instance dtype_eq_dec : EqDecision dtype.
Proof. solve_decision. Defined.

(** One batch [img] yielded by the loader: a tensor of shape
    (N, item_shape...), with its element type; every one of the N items is
    kept as the flat list of its values. *)
Record image_batch : Type := ImageBatch {
  pix_dtype : dtype;
  item_shape : list Z;
  pix : list (list Qc)
}.

Definition batch_size (img : image_batch) : Z := Z.of_nat (length (pix img)).

Definition item_numel (img : image_batch) : nat :=
  Z.to_nat (foldr Z.mul 1%Z (item_shape img)).

(** What the loader yields: [(indices, img)] pairs when the caller passes
    [returns_indices=True], bare batches otherwise. *)
Definition loader_item (returns_indices : bool) : Type :=
  if returns_indices then (list nat * image_batch)%type else image_batch.

(** [if returns_indices: _, img = img] *)
Definition unpack (returns_indices : bool)
  : loader_item returns_indices → image_batch :=
  match returns_indices as b return loader_item b → image_batch with
  | true => λ it, snd it
  | false => λ it, it
  end.

(** [img.shape[dim]] *)
Definition shape_at (img : image_batch) (dim : nat) : result Z :=
  match (batch_size img :: item_shape img) !! dim with
  | Some n => OK n
  | None => Err IndexError
  end.

(** [img.type(torch.float64).sum(dim=0)] *)
Definition sum0 (img : image_batch) : list Qc :=
  foldr Affine.vadd (replicate (item_numel img) 0%Qc) (pix img).

(** The loop variables [avg], [dtype] and [sumsizes]; [None] is Python's
    [None]. *)
Record avg_state : Type := AvgState {
  avg : option (list Qc);
  seen_dtype : option dtype;
  sumsizes : Z
}.

(** [sumsizes/(sumsizes+sz)]: true division of two Python ints. *)
Definition int_truediv (a b : Z) : result Qc :=
  if decide (b = 0%Z) then Err ZeroDivisionError
  else OK (Z2Qc a / Z2Qc b)%Qc.

(** One iteration of the loop body. *)
Definition batch_step (dim : nat) (st : avg_state) (img : image_batch)
  : result avg_state :=
  sz ← shape_at img dim;
  let dtype := match seen_dtype st with
               | None => Some (pix_dtype img)
               | Some d => Some d
               end in
  let avi := sum0 img in
  avg' ← match avg st with
         | None => OK avi
         | Some a =>
             w ← int_truediv (sumsizes st) (sumsizes st + sz);
             let n := Z2Qc (sumsizes st + sz) in
             OK (Affine.vadd (map (λ x, (x * w)%Qc) a)
                             (map (λ x, (x / n)%Qc) avi))
         end;
  OK (AvgState (Some avg') dtype (sumsizes st + sz)).

Fixpoint batch_loop (ri : bool) (dim : nat) (st : avg_state)
    (dataloader : list (loader_item ri)) : result avg_state :=
  match dataloader with
  | [] => OK st
  | it :: rest =>
      st' ← batch_step dim st (unpack ri it);
      batch_loop ri dim st' rest
  end.

(** The returned tensor: its element type and its values. *)
Record mean_tensor : Type := MeanTensor {
  mean_dtype : dtype;
  mean_values : list Qc
}.

#[global] Instance mean_tensor_eq_dec : EqDecision mean_tensor.
Proof. solve_decision. Defined.

(** [batch_average(dataloader, dim, returns_indices)]; the result is
    [None] on an empty loader. *)
Definition batch_average (ri : bool) (dim : nat)
    (dataloader : list (loader_item ri)) : result (option mean_tensor) :=
  st ← batch_loop ri dim (AvgState None None 0) dataloader;
  OK (match avg st with
      | None => None
      | Some a =>
          (* accumulated in float64, cast back for float inputs *)
          match seen_dtype st with
          | Some float32 => Some (MeanTensor float32 a)
          | _ => Some (MeanTensor float64 a)
          end
      end).

(** The mean the specification asks for: the sum of all items over their
    number. *)
Definition total_sum (numel : nat) (batches : list image_batch) : list Qc :=
  foldr Affine.vadd (replicate numel 0%Qc) (map sum0 batches).

Definition total_count (batches : list image_batch) : Z :=
  foldr Z.add 0%Z (map batch_size batches).

Definition mean_spec (batches : list image_batch) : list Qc :=
  let numel := match batches with [] => O | b :: _ => item_numel b end in
  map (λ x, (x / Z2Qc (total_count batches))%Qc) (total_sum numel batches).

(** The two-batch stream of the specification: n=2 with sum [4,6], then
    n=3 with sum [9,12]. *)
Definition batch_a : image_batch :=
  ImageBatch float64 [2%Z] [[qc 1 1; qc 2 1]; [qc 3 1; qc 4 1]].
Definition batch_b : image_batch :=
  ImageBatch float64 [2%Z]
    [[qc 2 1; qc 3 1]; [qc 3 1; qc 4 1]; [qc 4 1; qc 5 1]].
Definition two_batches : list (loader_item false) := [batch_a; batch_b].

End Streaming.

(** *** Regridding *)

Module Regrid.

(** A Python argument that is either one scalar or a list/tuple. *)
Inductive pyarg (A : Type) : Type :=
  | Scalar (a : A)
  | Tuple (l : list A).
Arguments Scalar {A} a.
Arguments Tuple {A} l.

(** A tensor of shape (N, C, spatial...): its full shape, and its values
    by sample, then channel, then voxel (the spatial axes flattened). *)
Record field : Type := Field {
  fshape : list Z;
  fdata : list (list (list Qc))
}.

#[global] Instance field_eq_dec : EqDecision field.
Proof. solve_decision. Defined.

(** The autograd context filled by [forward]. *)
Record context : Type := Context {
  ctx_inshape : list Z;
  ctx_outshape : list Z;
  ctx_outorigin : list Qc;
  ctx_outspacing : list Qc;
  ctx_displacement : bool;
  ctx_spacing_tensor : option (list Qc)
}.

#[global] Instance context_eq_dec : EqDecision context.
Proof. solve_decision. Defined.

(** [reg.mul_(t)] for [t] of shape (1, dim, 1, ..., 1): channel c of every
    sample is multiplied by [t[c]]; a single factor is broadcast over all
    channels; any other mismatch of channel counts cannot be broadcast. *)
Definition scale_sample (factors : list Qc) (chs : list (list Qc))
  : option (list (list Qc)) :=
  if decide (length chs = length factors) then
    Some (zip_with (λ f ch, map (λ y, (y * f)%Qc) ch) factors chs)
  else match factors with
       | [f] => Some (map (map (λ y, (y * f)%Qc)) chs)
       | _ => None
       end.

Definition mul_channels (factors : list Qc) (x : field) : result field :=
  match mapM (scale_sample factors) (fdata x) with
  | Some d => OK (Field (fshape x) d)
  | None => Err RuntimeError
  end.

Section Kernels.
(** The external sampling kernels [lagomorph_cuda.regrid_forward] and
    [lagomorph_cuda.regrid_backward]. *)
Variable regrid_forward : field → list Z → list Qc → list Qc → result field.
Variable regrid_backward :
  field → list Z → list Z → list Qc → list Qc → result field.

(** [RegridFunction.forward]; returns the context with the output. *)
Definition forward (I : field) (outshape : list Z) (origin spacing : list Qc)
    (displacement : bool) : result (context * field) :=
  let ctx := Context (drop 2 (fshape I)) outshape origin spacing
               displacement None in
  reg ← regrid_forward I outshape origin spacing;
  if displacement then
    let dim := (Z.of_nat (length (fshape I)) - 2)%Z in
    c ← match fshape I !! 1 with
        | Some c => OK c
        | None => Err IndexError
        end;
    if decide (c ≠ dim) then Err ValueError
    else
      (* 1./torch.Tensor(spacing) ... .view(1,dim,*[1]*dim) *)
      if decide (Z.of_nat (length spacing) = dim) then
        let spacing_tensor := map (λ s, (1 / s)%Qc) spacing in
        reg' ← mul_channels spacing_tensor reg;
        OK (Context (drop 2 (fshape I)) outshape origin spacing
              displacement (Some spacing_tensor), reg')
      else Err RuntimeError
  else OK (ctx, reg).

(** [RegridFunction.backward]; returns [d_I]. *)
Definition backward (ctx : context) (grad_out : field) : result field :=
  d_I ← regrid_backward grad_out (ctx_inshape ctx) (ctx_outshape ctx)
          (ctx_outorigin ctx) (ctx_outspacing ctx);
  if ctx_displacement ctx then
    match ctx_spacing_tensor ctx with
    | Some t => mul_channels t d_I
    | None => Err AttributeError
    end
  else OK d_I.

(** [[x]*d] *)
Definition py_repeat {A} (x : A) (d : Z) : list A := replicate (Z.to_nat d) x.

(** [if not isinstance(x, (list,tuple)): x = tuple([x]*d)] *)
Definition as_tuple {A} (x : pyarg A) (d : Z) : list A :=
  match x with
  | Scalar a => py_repeat a d
  | Tuple l => l
  end.

(** The first half of [regrid]: resolution of the output grid from the
    arguments that were given.  [Ishape] is [I.shape]. *)
Definition regrid_geometry (Ishape : list Z) (shape : option (pyarg Z))
    (origin spacing : option (pyarg Qc))
  : result (list Z * list Qc * list Qc) :=
  '(shape, origin, spacing) ←
    match shape with
    | None =>
        match origin, spacing with
        | None, None => Err ValueError
        | None, Some _ => Err NotImplementedError
        | Some _, None => Err NotImplementedError
        | Some _, Some _ => Err ValueError
        end
    | Some shape =>
        match origin with
        | None =>
            let origin :=
              Tuple (map (λ s, (Z2Qc (s - 1) * qc 1 2)%Qc)
                         (drop 2 Ishape)) in
            match spacing with
            | None =>
                match shape with
                | Scalar _ => Err TypeError
                | Tuple sh =>
                    sp ← foldr (λ '(sI, s) acc,
                                  x ← Streaming.int_truediv (sI - 1) (s - 1);
                                  rest ← acc;
                                  OK (x :: rest))
                               (OK []) (zip (drop 2 Ishape) sh);
                    OK (shape, origin, Tuple sp)
                end
            | Some spacing => OK (shape, origin, spacing)
            end
        | Some _ => Err NotImplementedError
        end
    end;
  let d := (Z.of_nat (length Ishape) - 2)%Z in
  let shape := as_tuple shape d in
  let origin := as_tuple origin d in
  let spacing := as_tuple spacing d in
  py_assert (bool_decide (Z.of_nat (length shape) = d)) ;;
  py_assert (bool_decide (Z.of_nat (length origin) = d)) ;;
  py_assert (bool_decide (Z.of_nat (length spacing) = d)) ;;
  OK (shape, origin, spacing).

(** [regrid(I, shape, origin, spacing, displacement)] *)
Definition regrid (I : field) (shape : option (pyarg Z))
    (origin spacing : option (pyarg Qc)) (displacement : bool)
  : result field :=
  '(shape, origin, spacing) ← regrid_geometry (fshape I) shape origin spacing;
  r ← forward I shape origin spacing displacement;
  OK r.2.
End Kernels.

(** An instance for the examples: a 1-D displacement field of 5 voxels
    regridded to 10 voxels by stand-in kernels that repeat every voxel
    twice (forward) and keep the first five (backward). *)
Definition ex_forward (I : field) (outshape : list Z) (origin spacing : list Qc)
  : result field :=
  OK (Field [1; 1; 10]%Z
        (map (map (λ ch, List.concat (map (λ x, [x; x]) ch))) (fdata I))).
Definition ex_backward (g : field) (inshape outshape : list Z)
    (origin spacing : list Qc) : result field :=
  OK (Field [1; 1; 5]%Z (map (map (take 5)) (fdata g))).
Definition ex_I : field :=
  Field [1; 1; 5]%Z [[[qc 1 1; qc 2 1; qc 3 1; qc 4 1; qc 5 1]]].
Definition ex_out : field :=
  Field [1; 1; 10]%Z
    [[map (λ x, (x * qc 9 4)%Qc)
        [qc 1 1; qc 1 1; qc 2 1; qc 2 1; qc 3 1; qc 3 1;
         qc 4 1; qc 4 1; qc 5 1; qc 5 1]]].
Definition ex_ctx : context :=
  Context [5%Z] [10%Z] [qc 2 1] [qc 4 9] true (Some [qc 9 4]).

End Regrid.

(** *** Atlas fitter: the schedule of atlas-optimizer calls

    The control skeleton of [affine_atlas]: what is kept is every variable
    that decides when [image_optimizer.zero_grad()] and
    [image_optimizer.step()] are called, and the places where the function
    raises before an epoch is complete.  The affine updates, the loss
    values and the atlas itself do not influence the schedule and are left
    out. *)

Module Atlas.

(** A call on [image_optimizer]. *)
Inductive optimizer_call : Set := ZeroGrad | OptStep.

#[global] Instance optimizer_call_eq_dec : EqDecision optimizer_call.
Proof. solve_decision. Defined.

Definition count_steps (calls : list optimizer_call) : nat :=
  length (filter (λ c, c = OptStep) calls).

(** The loop variables of one epoch.  [epoch_loss] starts as the Python
    float [0.0] and becomes a tensor at the first [epoch_loss + li]. *)
Record epoch_state : Type := EpochState {
  image_iters : Z;
  calls : list optimizer_call;
  epoch_loss_is_tensor : bool
}.

Section Fit.
Variable image_update_freq : Z.
Variable affine_steps : Z.
Variable world_size : Z.
(** [len(dataloader)], the number of minibatches of every epoch. *)
Variable num_minibatches : nat.

(** [I.grad = I.grad/(image_iters*world_size); image_optimizer.step()].
    [all_reduce] is not defined in the module; [I.grad] is [None] when no
    affine step has run a backward pass. *)
Definition average_and_step (st : epoch_state) : result epoch_state :=
  if decide (1 < world_size)%Z then Err NameError
  else if decide (affine_steps ≤ 0)%Z then Err TypeError
  else OK (EpochState (image_iters st) (calls st ++ [OptStep])
             (epoch_loss_is_tensor st)).

(** The body of [for it, (ix, img) in enumerate(itbar)]. *)
Definition minibatch_iter (st : epoch_state) : result epoch_state :=
  (* for affit in range(affine_steps): ... loss.backward() ... *)
  let st := EpochState (image_iters st + 1) (calls st)
              (epoch_loss_is_tensor st) in
  st ← (if decide (image_iters st = image_update_freq) then
          st ← average_and_step st;
          OK (EpochState 0 (calls st ++ [ZeroGrad]) (epoch_loss_is_tensor st))
        else OK st);
  (* li = (loss*...).detach(): [loss] is bound by the affine steps only *)
  if decide (affine_steps ≤ 0)%Z then Err UnboundLocalError
  else OK (EpochState (image_iters st) (calls st) true).

Fixpoint minibatch_loop (n : nat) (st : epoch_state) : result epoch_state :=
  match n with
  | O => OK st
  | S n' => st' ← minibatch_iter st; minibatch_loop n' st'
  end.

(** One pass of [for epoch in epbar]; returns the optimizer calls of the
    epoch in order. *)
Definition run_epoch (epoch : nat) : result (list optimizer_call) :=
  let first := if decide (image_update_freq = 0%Z ∨ epoch = 0)
               then [ZeroGrad] else [] in
  st ← minibatch_loop num_minibatches (EpochState 0 first false);
  st ← (if decide (0 < image_iters st)%Z then average_and_step st else OK st);
  (* epoch_losses.append(epoch_loss.item()) *)
  if epoch_loss_is_tensor st then OK (calls st) else Err AttributeError.

(** [affine_atlas]: the optimizer calls of every epoch.  [I_given] tells
    whether the caller passed an initial atlas [I]. *)
Definition affine_atlas (I_given : bool) (num_epochs : nat)
  : result (list (list optimizer_call)) :=
  (* sampler = DistributedSampler(...): the name is not defined *)
  (if decide (1 < world_size)%Z then Err NameError else OK ()) ;;
  (* I = batch_average(dataloader, ...) is None on an empty loader *)
  (if I_given then OK ()
   else match num_minibatches with O => Err AttributeError | _ => OK () end) ;;
  foldr (λ epoch acc, c ← run_epoch epoch; rest ← acc; OK (c :: rest))
        (OK []) (seq 0 num_epochs).
End Fit.

End Atlas.

(** ** lagomorph/deform.py

    The arrays are pycuda [GPUArray]s living in device memory.  A Python
    variable holds a reference, modelled as a location in a heap of
    arrays, so that in-place updates and aliasing are visible.  All
    arrays passed in are taken to be [GPUArray]s already (the
    [isinstance] conversions of the kernels are then no-ops). *)

Module Deform.

Import Streaming.

Record gpuarray : Type := GPUArray {
  shape : list Z;
  dtype : Streaming.dtype;
  c_contiguous : bool;
  data : list Qc
}.

#[global] Instance gpuarray_eq_dec : EqDecision gpuarray.
Proof. solve_decision. Defined.

Definition ndim (a : gpuarray) : Z := Z.of_nat (length (shape a)).

Definition loc : Set := positive.
Abbreviation heap := (gmap loc gpuarray).

(** *** State and exceptions: a computation takes the heap and returns a
    value or an exception together with the heap it leaves. *)
Definition M (A : Type) : Type := heap → result A * heap.

#[global] Instance M_ret : MRet M := λ A a σ, (OK a, σ).
#[global] Instance M_bind : MBind M := λ A B f m σ,
  match m σ with
  | (OK a, σ') => f a σ'
  | (Err e, σ') => (Err e, σ')
  end.

Definition lift {A} (r : result A) : M A := λ σ, (r, σ).
Definition raise {A} (e : pyerr) : M A := lift (Err e).
Definition assert_ (b : bool) : M unit := lift (py_assert b).

(** Dereference; a reference held by a Python variable is never dangling,
    so the error branch is not reached from well-formed states. *)
Definition deref (l : loc) : M gpuarray := λ σ,
  match σ !! l with
  | Some a => (OK a, σ)
  | None => (Err RuntimeError, σ)
  end.

Definition store (l : loc) (a : gpuarray) : M unit := λ σ,
  (OK (), <[l := a]> σ).

Definition alloc (a : gpuarray) : M loc := λ σ,
  let l := fresh (dom σ) in (OK l, <[l := a]> σ).

(** [sh[i]] *)
Definition index (sh : list Z) (i : nat) : M Z :=
  lift (match sh !! i with Some n => OK n | None => Err IndexError end).

Definition numel (sh : list Z) : nat := Z.to_nat (foldr Z.mul 1%Z sh).

(** [gpuarray.empty(shape, dtype, order='C')]; the fresh memory is read
    by nobody before a kernel fills it, zeros stand for its content. *)
Definition empty (sh : list Z) (dt : Streaming.dtype) : M loc :=
  alloc (GPUArray sh dt true (replicate (numel sh) 0%Qc)).

(** [gpuarray.empty_like(a, order='C')] *)
Definition empty_like (l : loc) : M loc :=
  a ← deref l; empty (shape a) (dtype a).

(** [a.copy()] *)
Definition copy (l : loc) : M loc := a ← deref l; alloc a.

(** [a *= dt], in place *)
Definition imul (l : loc) (dt : Qc) : M unit :=
  a ← deref l;
  store l (GPUArray (shape a) (dtype a) (c_contiguous a)
             (map (λ x, (x * dt)%Qc) (data a))).

(** [tuple([sh[0], dim] + list(sh[1:]))] *)
Definition imshape2defshape (sh : list Z) : result (list Z) :=
  match sh with
  | [] => Err IndexError
  | n :: rest => OK (n :: (Z.of_nat (length sh) - 1)%Z :: rest)
  end.

(** [tuple([sh[0]] + list(sh[2:]))] *)
Definition defshape2imshape (sh : list Z) : result (list Z) :=
  match sh with
  | [] => Err IndexError
  | n :: rest => OK (n :: drop 1 rest)
  end.

(** The CUDA kernels of [interp_cuda]. *)
Inductive kernel_name : Set :=
  | interp_displacement_image_2d
  | interp_image_2d
  | interp_image_bcastI_2d
  | interp_displacement_vectorfield_2d
  | interp_vectorfield_2d.

Section Kernels.
(** [dtype2precision] of [lagomorph/dtypes.py] and the launch of a kernel
    of [lagomorph/interp_cuda.py] are not part of the two source files;
    they are parameters.  A launch [f(out, a, h, n, w, hgt, precision,
    block, grid)] computes the new content of [out]. *)
Variable precision : Type.
Variable dtype2precision : Streaming.dtype → result precision.
Variable kernel :
  kernel_name → precision → Z * Z * Z →
  gpuarray → gpuarray → gpuarray → Z → Z → Z → list Qc.

(** [math.ceil(n/32)] *)
Definition ceil32 (n : Z) : Z := (- ((- n) / 32))%Z.

(** [f(out, a, h, np.int32(h.shape[0]), np.int32(h.shape[2]),
       np.int32(h.shape[3]), precision=prec, block=block, grid=grid)] *)
Definition launch (f : kernel_name) (prec : precision) (grid : Z * Z * Z)
    (out a h : loc) : M unit :=
  ao ← deref out; aa ← deref a; ah ← deref h;
  n ← index (shape ah) 0;
  w ← index (shape ah) 2;
  hgt ← index (shape ah) 3;
  store out (GPUArray (shape ao) (dtype ao) (c_contiguous ao)
               (kernel f prec grid ao aa ah n w hgt)).

Definition interp_image_kernel (out I h : loc) (displacement : bool) : M unit :=
  aI ← deref I; ah ← deref h; ao ← deref out;
  assert_ (bool_decide (ndim aI + 1 = ndim ah)%Z) ;;
  assert_ (bool_decide (dtype ao = dtype aI ∧ dtype aI = dtype ah)) ;;
  prec ← lift (dtype2precision (dtype ao));
  let dim := (ndim aI - 1)%Z in
  if decide (dim = 2%Z) then
    s1 ← index (shape aI) 1;
    s2 ← index (shape aI) 2;
    let grid := (ceil32 s1, ceil32 s2, 1%Z) in
    let f := if displacement then interp_displacement_image_2d
             else interp_image_2d in
    launch f prec grid out I h
  else if decide (dim = 3%Z) then raise NotImplementedError
  else raise Exception_.

Definition interp_vectorfield_kernel (out g h : loc) (displacement : bool)
  : M unit :=
  ag ← deref g; ah ← deref h; ao ← deref out;
  assert_ (bool_decide (ndim ag = ndim ah)) ;;
  assert_ (bool_decide (dtype ao = dtype ag ∧ dtype ag = dtype ah)) ;;
  assert_ (c_contiguous ao) ;;
  prec ← lift (dtype2precision (dtype ao));
  let dim := (ndim ag - 2)%Z in
  if decide (dim = 2%Z) then
    s2 ← index (shape ag) 2;
    s3 ← index (shape ag) 3;
    let grid := (ceil32 s2, ceil32 s3, 1%Z) in
    let f := if displacement then interp_displacement_vectorfield_2d
             else interp_vectorfield_2d in
    launch f prec grid out g h
  else if decide (dim = 3%Z) then raise NotImplementedError
  else raise Exception_.

Definition interp_image_kernel_bcastI (out I h : loc) : M unit :=
  aI ← deref I; ah ← deref h; ao ← deref out;
  n0 ← index (shape aI) 0;
  assert_ (bool_decide (n0 = 1%Z)) ;;
  assert_ (bool_decide (ndim aI + 1 = ndim ah)%Z) ;;
  assert_ (bool_decide (dtype ao = dtype aI ∧ dtype aI = dtype ah)) ;;
  prec ← lift (dtype2precision (dtype ao));
  let dim := (ndim aI - 1)%Z in
  if decide (dim = 2%Z) then
    s1 ← index (shape aI) 1;
    s2 ← index (shape aI) 2;
    let grid := (ceil32 s1, ceil32 s2, 1%Z) in
    launch interp_image_bcastI_2d prec grid out I h
  else if decide (dim = 3%Z) then raise NotImplementedError
  else raise Exception_.

Definition interp_image (I h : loc) (displacement : bool) (out : option loc)
  : M loc :=
  aI ← deref I; ah ← deref h;
  let dim := (ndim aI - 1)%Z in
  assert_ (bool_decide (ndim aI = ndim ah - 1)%Z) ;;
  c ← index (shape ah) 1;
  assert_ (bool_decide (c = dim)) ;;
  out ← match out with
        | None => sh ← lift (defshape2imshape (shape ah)); empty sh (dtype aI)
        | Some o => mret o
        end;
  ao ← deref out;
  sh ← lift (defshape2imshape (shape ah));
  assert_ (bool_decide (shape ao = sh)) ;;
  nI ← index (shape aI) 0;
  nh ← index (shape ah) 0;
  (if decide (nI = 1%Z ∧ nh ≠ 1%Z) then interp_image_kernel_bcastI out I h
   else if decide (nh = 1%Z ∧ nI ≠ 1%Z) then
     (* interp_image_kernel_bcasth(): no such name in the module *)
     raise NameError
   else
     assert_ (bool_decide (nI = nh)) ;;
     interp_image_kernel out I h displacement) ;;
  mret out.

Definition interp_vec (g h : loc) (displacement : bool) (out : option loc)
  : M loc :=
  ag ← deref g; ah ← deref h;
  let dim := (ndim ag - 2)%Z in
  assert_ (bool_decide (ndim ag = ndim ah)) ;;
  cg ← index (shape ag) 1;
  assert_ (bool_decide (cg = dim)) ;;
  ch ← index (shape ah) 1;
  assert_ (bool_decide (ch = dim)) ;;
  out ← match out with
        | None => empty_like g
        | Some o => mret o
        end;
  ao ← deref out;
  assert_ (bool_decide (shape ao = shape ag)) ;;
  interp_vectorfield_kernel out g h displacement ;;
  mret out.

(** Modelled from the spec: [multiply_add] lives in [lagomorph/arithmetic.py],
    which is not among the source files.  Section 4.4 of the specification
    says that the displacement branch must "add back dt·v to the sampled
    result"; [multiply_add(v, dt, out=out)] is therefore taken to perform
    [out += dt*v] elementwise, writing [out] only. *)
Definition multiply_add (v : loc) (dt : Qc) (out : loc) : M unit :=
  av ← deref v; ao ← deref out;
  store out (GPUArray (shape ao) (dtype ao) (c_contiguous ao)
               (zip_with (λ o x, (o + dt * x)%Qc) (data ao) (data av))).

(** Reading a local variable; [None] is a name that no assignment has
    bound on the path taken. *)
Definition read_local {A} (x : option A) : M A :=
  match x with
  | Some a => mret a
  | None => raise UnboundLocalError
  end.

Definition composeHV (h v : loc) (dt : Qc) (displacement : bool)
    (out : option loc) : M loc :=
  out ← match out with
        | None => empty_like h
        | Some o => mret o
        end;
  (if displacement then
     xv ← copy v;
     imul xv dt ;;
     interp_vec h xv true (Some out) ;;
     (* subtract the point where we interpolated *)
     multiply_add v dt out
   else
     (* [xv] is only assigned in the other branch *)
     let xv : option loc := None in
     xv' ← read_local xv;
     multiply_add v dt xv' ;;
     interp_vec h xv' true (Some out) ;;
     mret ()) ;;
  mret out.
End Kernels.

Arguments launch {precision}.
Arguments interp_image_kernel {precision}.
Arguments interp_vectorfield_kernel {precision}.
Arguments interp_image_kernel_bcastI {precision}.
Arguments interp_image {precision}.
Arguments interp_vec {precision}.
Arguments composeHV {precision}.

(** [only_writes L σ σ']: the heaps agree outside the locations [L]. *)
Definition only_writes (L : gset loc) (σ σ' : heap) : Prop :=
  ∀ l, l ∉ L → σ' !! l = σ !! l.

(** *** Concrete states for the examples

    Stand-ins for the external parts: single or double precision, and a
    kernel that returns the values of its source array. *)
Definition ex_dtype2precision (d : Streaming.dtype) : result bool :=
  match d with
  | float32 => OK false
  | float64 => OK true
  | _ => Err Exception_
  end.

Definition ex_kernel (f : kernel_name) (prec : bool) (grid : Z * Z * Z)
    (out a h : gpuarray) (n w hgt : Z) : list Qc := data a.

(** A deformation [h] and a velocity [v] of shape (1,2,2,2). *)
Definition ex_h : gpuarray :=
  GPUArray [1; 2; 2; 2]%Z float32 true
    [qc 0 1; qc 0 1; qc 1 1; qc 1 1; qc 0 1; qc 1 1; qc 0 1; qc 1 1].
Definition ex_v : gpuarray :=
  GPUArray [1; 2; 2; 2]%Z float32 true (replicate 8 (qc 1 2)).
Definition ex_heap : heap := {[ 1%positive := ex_h; 2%positive := ex_v ]}.

(** Three images of 4x4 pixels and a single deformation of that grid. *)
Definition ex_images : gpuarray :=
  GPUArray [3; 4; 4]%Z float32 true (replicate 48 (qc 1 1)).
Definition ex_deformation : gpuarray :=
  GPUArray [1; 2; 4; 4]%Z float32 true (replicate 32 (qc 0 1)).
Definition ex_image_heap : heap :=
  {[ 1%positive := ex_images; 2%positive := ex_deformation ]}.

End Deform.

(** *** Affine maps on points

    The map [x ↦ A·x + T] that a pair (A, T) stands for, on one item of
    the batch. *)

Module AffineMap.
Definition affine_apply (M : list (list Qc)) (t x : list Qc) : list Qc :=
  Affine.vadd (Affine.matvec M x) t.
End AffineMap.

(** *** Rigid transforms *)

Module Rigid.
Import Rotation.

(** [-v] *)
Definition vopp (v : vtensor) : vtensor :=
  match v with
  | Rank1 v => Rank1 (map Ropp v)
  | Rank2 T => Rank2 (Tensor2 (tdim T) (map (map Ropp) (titems T)))
  | RankOther sh => RankOther sh
  end.

Definition rmatvec (M : list (list R)) (t : list R) : list R :=
  map (λ row, rdot row t) M.

(** [torch.matmul(Rinv, T.unsqueeze(2)).squeeze(2)], with the batch
    extents broadcast against each other when one of them is 1. *)
Definition rbmatvec (A : tensor3 R) (T : tensor2 R) : result (tensor2 R) :=
  if decide (dim2 A = tdim T) then
    if decide (length (items A) = length (titems T)) then
      OK (Tensor2 (dim1 A) (zip_with rmatvec (items A) (titems T)))
    else match items A, titems T with
         | [M], ts => OK (Tensor2 (dim1 A) (map (rmatvec M) ts))
         | Ms, [t] => OK (Tensor2 (dim1 A) (map (λ M, rmatvec M t) Ms))
         | _, _ => Err RuntimeError
         end
  else Err RuntimeError.

Definition rigid_inverse (v : vtensor) (T : tensor2 R)
  : result (vtensor * tensor2 R) :=
  let negv := vopp v in
  Rinv ← rotation_exp_map negv;
  RT ← rbmatvec Rinv T;
  OK (negv, Tensor2 (tdim RT) (map (map Ropp) (titems RT))).

(** The map [x ↦ R·x + t] of one rigid transform, and the determinant of
    a 2x2 matrix, for stating what the code returns. *)
Definition rigid_apply (M : list (list R)) (t x : list R) : list R :=
  zip_with Rplus (rmatvec M x) t.

Definition rdet2 (M : list (list R)) : R :=
  match M with
  | [[a; b]; [c; d]] => (a * d - b * c)%R
  | _ => 0%R
  end.
End Rigid.

(** *** More states for [interp_image] and [interp_vec] *)

Module InterpExamples.
Import Deform.

(** One image of 2x2 pixels. *)
Definition ex_image : gpuarray :=
  GPUArray [1; 2; 2]%Z Streaming.float32 true [qc 1 1; qc 2 1; qc 3 1; qc 4 1].

(** Two deformations of the 2x2 grid, and two of the 4x4 grid. *)
Definition ex_warps : gpuarray :=
  GPUArray [2; 2; 2; 2]%Z Streaming.float32 true (replicate 16 (qc 0 1)).
Definition ex_warps4 : gpuarray :=
  GPUArray [2; 2; 4; 4]%Z Streaming.float32 true (replicate 64 (qc 0 1)).

(** One volume of 2x2x2 voxels and one deformation of that grid. *)
Definition ex_volume : gpuarray :=
  GPUArray [1; 2; 2; 2]%Z Streaming.float32 true (replicate 8 (qc 1 1)).
Definition ex_warp3d : gpuarray :=
  GPUArray [1; 3; 2; 2; 2]%Z Streaming.float32 true (replicate 24 (qc 0 1)).

Definition ex_same_heap : heap :=
  {[ 1%positive := ex_image; 2%positive := ex_h ]}.
Definition ex_bcast_heap : heap :=
  {[ 1%positive := ex_image; 2%positive := ex_warps ]}.
Definition ex_mismatch_heap : heap :=
  {[ 1%positive := ex_images; 2%positive := ex_warps4 ]}.
Definition ex_volume_heap : heap :=
  {[ 1%positive := ex_volume; 2%positive := ex_warp3d ]}.
End InterpExamples.

(** *** Footprints

    [returns_into o σ rs]: the outcome [rs] of a computation started in
    [σ] changed no array but [o], and a returned reference is [o].
    [returns_fresh σ rs]: the outcome left every array of [σ] as it was,
    and a returned reference is to an array that [σ] did not hold. *)

Module Footprint.
Import Deform.

Definition returns_into (o : loc) (σ : heap) (rs : result loc * heap) : Prop :=
  only_writes {[o]} σ rs.2 ∧ ∀ r, rs.1 = OK r → r = o.

Definition returns_fresh (σ : heap) (rs : result loc * heap) : Prop :=
  (∀ l, is_Some (σ !! l) → rs.2 !! l = σ !! l)
  ∧ (∀ r, rs.1 = OK r → σ !! r = None).
End Footprint.

(** *** [RegridModule]: the module wrapper of [regrid] *)

Module RegridModule.
Import Regrid.

(** [self.shape], [self.origin], [self.spacing] as [__init__] stores them. *)
Record t : Type := Build {
  shape : option (pyarg Z);
  origin : option (pyarg Qc);
  spacing : option (pyarg Qc)
}.

(** [forward(self, I)]: [regrid(I, self.shape, self.origin, self.spacing)],
    with [displacement] left at its default [False]. *)
Definition forward
    (regrid_forward : field → list Z → list Qc → list Qc → result field)
    (self : t) (I : field) : result field :=
  regrid regrid_forward I (shape self) (origin self) (spacing self) false.
End RegridModule.

(* ===================================================================== *)
(** * Theorems *)
(* ===================================================================== *)

Lemma bind_OK {A B} (f : A → result B) (a : A) : (OK a ≫= f) = f a.
Proof. reflexivity. Qed.

Lemma bind_Err {A B} (f : A → result B) (e : pyerr) : (Err e ≫= f) = Err e.
Proof. reflexivity. Qed.

#[local] Arguments Qcopp : simpl never.
#[local] Arguments Qcplus : simpl never.
#[local] Arguments Qcmult : simpl never.
#[local] Arguments Qcminus : simpl never.
#[local] Arguments Qcinv : simpl never.
#[local] Arguments Qcdiv : simpl never.

(** Closed equalities and disequalities between rationals are decided by
    evaluation. *)
Ltac by_eval := apply (bool_decide_unpack _); vm_compute; exact I.


(** ** Batched tensor operations act item by item *)

Section TensorFacts.
Context {K X : Type}.
Implicit Types (l : list X) (h : X → list (list K)).

Lemma entry_shape r c (M : list (list K)) i j :
  matrix_shape r c M → i < r → j < c → is_Some (entry M i j).
Proof.
  intros [Hr Hc] Hi Hj. unfold entry.
  destruct (lookup_lt_is_Some_2 M i) as [row Hrow]; [lia|].
  rewrite Hrow. simpl.
  apply lookup_lt_is_Some_2.
  rewrite Forall_forall in Hc.
  rewrite (Hc row); [done|]. by eapply list_elem_of_lookup_2.
Qed.

Lemma sel_map d1 d2 h l i j (f : X → K) :
  i < d1 → j < d2 →
  (∀ x, x ∈ l → entry (h x) i j = Some (f x)) →
  sel (Tensor3 d1 d2 (map h l)) i j = OK (map f l).
Proof.
  intros Hi Hj Hf. unfold sel. simpl.
  rewrite decide_True by done.
  assert (mapM (λ M, entry M i j) (map h l) = Some (map f l)) as ->; [|done].
  apply mapM_Some. induction l as [|x l IH]; simpl; constructor.
  - apply Hf. left.
  - apply IH. intros y Hy. apply Hf. by right.
Qed.

Lemma zip_with_map_map {B C D} (g : B → C → D) (f1 : X → B) (f2 : X → C) l :
  zip_with g (map f1 l) (map f2 l) = map (λ x, g (f1 x) (f2 x)) l.
Proof. induction l; simpl; congruence. Qed.

Lemma zip_with_cons_nil (f : X → K) l :
  zip_with cons (map f l) (replicate (length l) []) = map (λ x, [f x]) l.
Proof. induction l; simpl; congruence. Qed.

Lemma stack1_nil l :
  stack1 (K:=K) (length l) [] = OK (map (λ _, []) l).
Proof.
  unfold stack1. rewrite decide_True by constructor. simpl. f_equal.
  induction l; simpl; congruence.
Qed.

Lemma stack1_cons (f : X → K) (g : X → list K) l cols :
  stack1 (length l) cols = OK (map g l) →
  stack1 (length l) (map f l :: cols) = OK (map (λ x, f x :: g x) l).
Proof.
  unfold stack1. intros H. destruct (decide _) as [Hc|]; [|done].
  rewrite decide_True by (constructor; [apply length_map|done]).
  simpl. injection H as ->. by rewrite zip_with_map_map.
Qed.

Lemma view3_map d1 d2 (g : X → list K) l :
  (∀ x, length (g x) = d1 * d2) →
  view3 d1 d2 (map g l) = OK (Tensor3 d1 d2 (map (λ x, chunk d1 d2 (g x)) l)).
Proof.
  intros Hg. unfold view3. rewrite decide_True.
  - by rewrite map_map.
  - apply Forall_forall. intros row (x & -> & _)%list_elem_of_fmap. apply Hg.
Qed.
End TensorFacts.

Lemma delete_narrow {A} (l : list A) (n i : nat) :
  length l = n → i < n →
  take i (drop 0 l) ++ take (n - i - 1) (drop (i + 1) l) = delete i l.
Proof.
  intros Hn Hi. rewrite drop_0, (take_ge (drop (i + 1) l)).
  - rewrite Nat.add_1_r. symmetry. apply delete_take_drop.
  - rewrite length_drop. lia.
Qed.

Import Affine.

Section MatrixAlgebraFacts.
Implicit Types (A : tensor3 Qc) (M : list (list Qc)).

Lemma matrix_shape_2x2 M :
  matrix_shape 2 2 M → ∃ a b c d, M = [[a; b]; [c; d]].
Proof.
  intros [Hr Hc].
  destruct M as [|r0 [|r1 [|]]]; try discriminate.
  apply Forall_cons in Hc as [H0 Hc]. apply Forall_cons in Hc as [H1 _].
  destruct r0 as [|a [|b [|]]]; try discriminate.
  destruct r1 as [|c [|d [|]]]; try discriminate.
  by exists a, b, c, d.
Qed.

Lemma matrix_shape_3x3 M :
  matrix_shape 3 3 M →
  ∃ a b c d e f g h i, M = [[a; b; c]; [d; e; f]; [g; h; i]].
Proof.
  intros [Hr Hc].
  destruct M as [|r0 [|r1 [|r2 [|]]]]; try discriminate.
  apply Forall_cons in Hc as [H0 Hc]. apply Forall_cons in Hc as [H1 Hc].
  apply Forall_cons in Hc as [H2 _].
  destruct r0 as [|a [|b [|c [|]]]]; try discriminate.
  destruct r1 as [|d [|e [|f [|]]]]; try discriminate.
  destruct r2 as [|g [|h [|i [|]]]]; try discriminate.
  by exists a, b, c, d, e, f, g, h, i.
Qed.

Lemma entry_get r c M i j :
  matrix_shape r c M → i < r → j < c → entry M i j = Some (get M i j).
Proof.
  intros HM Hi Hj. unfold get.
  by destruct (entry_shape r c M i j HM Hi Hj) as [x ->].
Qed.

(** [A[:,i,j]] on a well-shaped batch. *)
Lemma sel_wf A i j :
  tensor3_wf A → i < dim1 A → j < dim2 A →
  sel A i j = OK (map (λ M, get M i j) (items A)).
Proof.
  destruct A as [d1 d2 l]. unfold tensor3_wf. simpl. intros Hwf Hi Hj.
  rewrite <- (map_id l) at 1.
  apply sel_map; [done..|].
  intros M HM. rewrite Forall_forall in Hwf.
  eapply entry_get; eauto.
Qed.

Lemma det_2x2_map {X} (h : X → list (list Qc)) (l : list X) :
  (∀ x, x ∈ l → matrix_shape 2 2 (h x)) →
  det_2x2 (Tensor3 2 2 (map h l)) = OK (map (λ x, det2_spec (h x)) l).
Proof.
  intros Hh. unfold det_2x2.
  rewrite !(sel_map 2 2 h l _ _ (λ x, get (h x) _ _))
    by (try lia; intros x Hx; eapply entry_get; eauto; lia).
  rewrite !bind_OK. unfold vsub, vmul.
  by rewrite !zip_with_map_map.
Qed.

Lemma det_2x2_wf A :
  tensor3_wf A → dim1 A = 2 → dim2 A = 2 →
  det_2x2 A = OK (map det2_spec (items A)).
Proof.
  destruct A as [d1 d2 l]. unfold tensor3_wf. simpl. intros Hwf -> ->.
  rewrite <- (map_id l) at 1. apply det_2x2_map.
  intros M HM. rewrite Forall_forall in Hwf. by apply Hwf.
Qed.

(** [minor(A,i,j)] deletes row i and column j of every item. *)
Lemma minor_wf A n i j :
  tensor3_wf A → dim1 A = n → dim2 A = n → i < n → j < n →
  minor A i j =
    OK (Tensor3 (n - 1) (n - 1) (map (λ M, minor_spec M i j) (items A))).
Proof.
  destruct A as [d1 d2 l]. unfold tensor3_wf. simpl.
  intros Hwf -> -> Hi Hj. unfold minor. simpl.
  rewrite bool_decide_eq_true_2 by done. simpl.
  unfold narrow1. cbn [dim1 dim2 items].
  rewrite !decide_True by lia. rewrite !bind_OK.
  unfold cat1. cbn [dim1 dim2 items].
  rewrite decide_True by (by rewrite !length_map). rewrite bind_OK.
  unfold narrow2. cbn [dim1 dim2 items].
  rewrite !decide_True by lia. rewrite !bind_OK.
  unfold cat2. cbn [dim1 dim2 items].
  rewrite decide_True by (by rewrite !length_map).
  f_equal. f_equal; [lia..|].
  rewrite !zip_with_map_map, map_map.
  rewrite Forall_forall in Hwf.
  apply map_ext_in. intros M HM%list_elem_of_In.
  destruct (Hwf M HM) as [Hr Hc].
  rewrite zip_with_map_map, (delete_narrow M n i) by done.
  unfold minor_spec. apply map_ext_in. intros row Hrow%list_elem_of_In.
  apply delete_narrow; [|done].
  rewrite Forall_forall in Hc. apply Hc.
  by eapply list_elem_of_delete_inv.
Qed.
End MatrixAlgebraFacts.

Section Invert2x2.
Implicit Types (A : tensor3 Qc) (M : list (list Qc)).

(** [invert_2x2] is adjugate over determinant on every item. *)
Lemma invert_2x2_wf A :
  tensor3_wf A → dim1 A = 2 → dim2 A = 2 →
  invert_2x2 A = OK (Tensor3 2 2 (map inverse2_spec (items A))).
Proof.
  intros Hwf H1 H2. unfold invert_2x2.
  rewrite det_2x2_wf, bind_OK by done.
  rewrite !sel_wf by (try done; lia). rewrite !bind_OK.
  unfold vneg. rewrite !map_map.
  eassert (stack1 (length (items A)) _ = OK (map _ (items A))) as ->
    by (repeat apply stack1_cons; apply stack1_nil).
  rewrite bind_OK, view3_map, bind_OK by done.
  unfold bdiv. cbn [dim1 dim2 items].
  rewrite decide_True by (by rewrite !length_map).
  by rewrite zip_with_map_map.
Qed.
End Invert2x2.

Lemma Qcdiv_congr (x y d1 d2 : Qc) :
  x = y → d1 = d2 → (x / d1)%Qc = (y / d2)%Qc.
Proof. by intros -> ->. Qed.

Section Invert3x3.
Implicit Types (A : tensor3 Qc) (M : list (list Qc)).

Lemma minor_spec_shape M i j :
  matrix_shape 3 3 M → i < 3 → j < 3 → matrix_shape 2 2 (minor_spec M i j).
Proof.
  intros (a & b & c & d & e & f & g & h & k & ->)%matrix_shape_3x3 Hi Hj.
  destruct i as [|[|[|]]]; try lia;
    destruct j as [|[|[|]]]; try lia;
    (split; [done|by repeat constructor]).
Qed.

Lemma minor_det_wf A i j :
  tensor3_wf A → dim1 A = 3 → dim2 A = 3 → i < 3 → j < 3 →
  minor_det A i j =
    OK (map (λ M, det2_spec (minor_spec M i j)) (items A)).
Proof.
  intros Hwf H1 H2 Hi Hj. unfold minor_det.
  rewrite (minor_wf A 3 i j), bind_OK by done.
  apply (det_2x2_map (λ M, minor_spec M i j)).
  intros M HM. unfold tensor3_wf in Hwf. rewrite Forall_forall in Hwf.
  apply minor_spec_shape; [|done..].
  rewrite <- H1 at 1. rewrite <- H2. by apply Hwf.
Qed.

Lemma invert_3x3_items A :
  tensor3_wf A → dim1 A = 3 → dim2 A = 3 →
  invert_3x3 A = OK (Tensor3 3 3 (map invert_3x3_item (items A))).
Proof.
  intros Hwf H1 H2. unfold invert_3x3.
  rewrite !minor_det_wf by (try done; lia).
  rewrite !sel_wf by (try done; lia). rewrite !bind_OK.
  unfold vneg. rewrite !map_map.
  eassert (stack1 (length (items A)) _ = OK (map _ (items A))) as ->
    by (repeat apply stack1_cons; apply stack1_nil).
  rewrite bind_OK, view3_map, bind_OK by done.
  unfold transpose12. cbn [dim1 dim2 items]. rewrite map_map.
  do 3 (erewrite sel_map; [|lia|lia|intros M _; reflexivity]).
  rewrite !bind_OK.
  unfold bdiv, vadd, vmul. cbn [dim1 dim2 items].
  rewrite !zip_with_map_map.
  rewrite decide_True by (by rewrite !length_map).
  reflexivity.
Qed.

(** On a 3x3 matrix the code's item function is the transposed cofactor
    matrix over the first-row determinant. *)
Lemma invert_3x3_item_spec M :
  matrix_shape 3 3 M → invert_3x3_item M = inverse3_spec M.
Proof.
  intros (a & b & c & d & e & f & g & h & k & ->)%matrix_shape_3x3.
  unfold invert_3x3_item, inverse3_spec, mdiv.
  cbv [mtranspose chunk foldr zip_with replicate take drop map
       cofactor_matrix_spec seq det3_spec].
  unfold cofactor_spec, sign, det2_spec, minor_spec, get; simpl.
  repeat first [apply Qcdiv_congr; ring | f_equal].
Qed.
End Invert3x3.

(** ** Algebra of one matrix *)

Section OneMatrix.
Implicit Types (M B : list (list Qc)) (t : list Qc).

Ltac expose :=
  unfold inverse3_spec, inverse2_spec, mdiv, mat_mul, identity, matvec, dot,
    det3_spec, cofactor_matrix_spec, cofactor_spec, sign, det2_spec,
    minor_spec, get;
  simpl.

Lemma det2_mat_mul a b c d a' b' c' d' :
  det2_spec (mat_mul 2 [[a; b]; [c; d]] [[a'; b']; [c'; d']])
  = (det2_spec [[a; b]; [c; d]] * det2_spec [[a'; b']; [c'; d']])%Qc.
Proof. expose. ring. Qed.

Lemma det3_mat_mul a b c d e f g h k a' b' c' d' e' f' g' h' k' :
  det3_spec (mat_mul 3 [[a; b; c]; [d; e; f]; [g; h; k]]
                       [[a'; b'; c']; [d'; e'; f']; [g'; h'; k']])
  = (det3_spec [[a; b; c]; [d; e; f]; [g; h; k]]
     * det3_spec [[a'; b'; c']; [d'; e'; f']; [g'; h'; k']])%Qc.
Proof. expose. ring. Qed.

Lemma Qc_eq_1_nonzero (x y : Qc) : (x * y)%Qc = 1%Qc → x ≠ 0%Qc.
Proof. intros H ->. rewrite Qcmult_0_l in H. discriminate. Qed.

Lemma invertible_det2 M :
  matrix_shape 2 2 M → invertible 2 M → det2_spec M ≠ 0%Qc.
Proof.
  intros (a & b & c & d & ->)%matrix_shape_2x2
         (B & (a' & b' & c' & d' & ->)%matrix_shape_2x2 & HMB & _).
  apply (Qc_eq_1_nonzero _ (det2_spec [[a'; b']; [c'; d']])).
  by rewrite <- det2_mat_mul, HMB.
Qed.

Lemma invertible_det3 M :
  matrix_shape 3 3 M → invertible 3 M → det3_spec M ≠ 0%Qc.
Proof.
  intros (a & b & c & d & e & f & g & h & k & ->)%matrix_shape_3x3
         (B & (a' & b' & c' & d' & e' & f' & g' & h' & k' & ->)%matrix_shape_3x3
            & HMB & _).
  apply (Qc_eq_1_nonzero _
           (det3_spec [[a'; b'; c']; [d'; e'; f']; [g'; h'; k']])).
  by rewrite <- det3_mat_mul, HMB.
Qed.

Lemma inverse2_spec_shape M : matrix_shape 2 2 (inverse2_spec M).
Proof. split; [done|by repeat constructor]. Qed.

Lemma inverse3_spec_shape M : matrix_shape 3 3 (inverse3_spec M).
Proof. split; [done|by repeat constructor]. Qed.

Ltac entrywise tac := repeat first [progress f_equal | tac].

(** Discharges the side condition of [field] from [H : det ≠ 0], the two
    being equal as polynomials. *)
Ltac fold_minus_one :=
  change (Qcmake (-1) (Qred_involutive (-1))) with (Qcopp (Q2Qc 1)).

Ltac nonzero H :=
  repeat split;
  first [ exact H
        | let Hz := fresh in
          intros Hz; apply H; etransitivity; [|exact Hz];
          fold_minus_one; ring
        | let Hz := fresh in
          intros Hz;
          match type of H with
          | ?D ≠ _ =>
              assert (D * D = 0)%Qc as [?|?]%Qcmult_integral
                by (etransitivity; [|exact Hz]; fold_minus_one; ring);
              contradiction
          end ].

(** The closed forms are two-sided inverses. *)
Lemma inverse2_spec_inverse M :
  matrix_shape 2 2 M → det2_spec M ≠ 0%Qc →
  mat_mul 2 M (inverse2_spec M) = identity 2
  ∧ mat_mul 2 (inverse2_spec M) M = identity 2.
Proof.
  intros (a & b & c & d & ->)%matrix_shape_2x2. expose. intros Hdet.
  split; entrywise ltac:(field; nonzero Hdet).
Qed.

Lemma inverse3_spec_inverse M :
  matrix_shape 3 3 M → det3_spec M ≠ 0%Qc →
  mat_mul 3 M (inverse3_spec M) = identity 3
  ∧ mat_mul 3 (inverse3_spec M) M = identity 3.
Proof.
  intros (a & b & c & d & e & f & g & h & k & ->)%matrix_shape_3x3.
  expose. intros Hdet.
  split; entrywise ltac:(field; nonzero Hdet).
Qed.

(** Inverting twice gives the matrix back. *)
Lemma inverse2_spec_involutive M :
  matrix_shape 2 2 M → det2_spec M ≠ 0%Qc →
  inverse2_spec (inverse2_spec M) = M.
Proof.
  intros (a & b & c & d & ->)%matrix_shape_2x2. expose. intros Hdet.
  entrywise ltac:(field; nonzero Hdet).
Qed.

Lemma inverse3_spec_involutive M :
  matrix_shape 3 3 M → det3_spec M ≠ 0%Qc →
  inverse3_spec (inverse3_spec M) = M.
Proof.
  intros (a & b & c & d & e & f & g & h & k & ->)%matrix_shape_3x3.
  expose. intros Hdet.
  entrywise ltac:(field; nonzero Hdet).
Qed.

(** The translation of the inverse of the inverse: [-(M (-(M^-1 t))) = t]. *)
Lemma matvec_inverse2 M t :
  matrix_shape 2 2 M → length t = 2 → det2_spec M ≠ 0%Qc →
  map Qcopp (matvec M (map Qcopp (matvec (inverse2_spec M) t))) = t.
Proof.
  intros (a & b & c & d & ->)%matrix_shape_2x2 Ht.
  destruct t as [|x [|y [|]]]; try discriminate.
  expose. intros Hdet.
  entrywise ltac:(field; nonzero Hdet).
Qed.

Lemma matvec_inverse3 M t :
  matrix_shape 3 3 M → length t = 3 → det3_spec M ≠ 0%Qc →
  map Qcopp (matvec M (map Qcopp (matvec (inverse3_spec M) t))) = t.
Proof.
  intros (a & b & c & d & e & f & g & h & k & ->)%matrix_shape_3x3 Ht.
  destruct t as [|x [|y [|z [|]]]]; try discriminate.
  expose. intros Hdet.
  entrywise ltac:(field; nonzero Hdet).
Qed.
End OneMatrix.

(** ** Matrix inversion and affine inversion on batches *)

Section BatchInverse.
Implicit Types (A : tensor3 Qc) (T : tensor2 Qc) (M : list (list Qc)).

Lemma double_inverse_translation (inv : list (list Qc) → list (list Qc))
    (d : nat) (l : list (list (list Qc))) (ts : list (list Qc)) :
  Forall (λ M, inv (inv M) = M
               ∧ ∀ t, length t = d →
                   map Qcopp (matvec M (map Qcopp (matvec (inv M) t))) = t) l →
  length l = length ts →
  Forall (λ t, length t = d) ts →
  map (map Qcopp)
    (zip_with matvec (map inv (map inv l))
       (map (map Qcopp) (zip_with matvec (map inv l) ts))) = ts.
Proof.
  intros Hl. revert ts.
  induction Hl as [|M l [HM Ht] _ IH]; intros [|t ts] Hlen Hts;
    try discriminate; [done|].
  apply Forall_cons in Hts as [Hd Hts]. simpl.
  rewrite HM, (Ht t Hd). f_equal. apply IH; [|done].
  by injection Hlen.
Qed.

Lemma double_inverse_items (inv : list (list Qc) → list (list Qc))
    (l : list (list (list Qc))) :
  Forall (λ M, inv (inv M) = M) l → map inv (map inv l) = l.
Proof. induction 1; simpl; congruence. Qed.

(** C6.  On every batch of invertible 3x3 matrices [invert_3x3] returns,
    item by item, the transposed cofactor matrix divided by the
    determinant, each output item being a function of the input item at
    the same position only, and that item is a two-sided inverse; in
    particular the inverse of diag(2,4,5) is diag(1/2,1/4,1/5). *)
Theorem invert_3x3_cofactor_formula :
  (∀ A, tensor3_wf A → dim1 A = 3 → dim2 A = 3 →
        Forall (invertible 3) (items A) →
        invert_3x3 A = OK (Tensor3 3 3 (map inverse3_spec (items A)))
        ∧ Forall (λ M, mat_mul 3 M (inverse3_spec M) = identity 3
                       ∧ mat_mul 3 (inverse3_spec M) M = identity 3)
                 (items A))
  ∧ invert_3x3 (Tensor3 3 3 [AffineExamples.diag245])
    = OK (Tensor3 3 3 [AffineExamples.diag245_inv]).
Proof.
  split; [|by_eval].
  intros A Hwf H1 H2 Hinv. split.
  - rewrite invert_3x3_items by done. do 2 f_equal.
    apply map_ext_in. intros M HM%list_elem_of_In.
    apply invert_3x3_item_spec.
    unfold tensor3_wf in Hwf. rewrite Forall_forall in Hwf.
    rewrite <- H1 at 1. rewrite <- H2. by apply Hwf.
  - unfold tensor3_wf in Hwf. rewrite H1, H2 in Hwf.
    rewrite Forall_forall in Hwf, Hinv |- *. intros M HM.
    apply inverse3_spec_inverse; [by apply Hwf|].
    apply invertible_det3; [by apply Hwf|by apply Hinv].
Qed.

Lemma invert_3x3_cofactor_formula_witness :
  invert_3x3 AffineExamples.batch3
  = OK (Tensor3 3 3 (map inverse3_spec (items AffineExamples.batch3)))
  ∧ Forall (λ M, mat_mul 3 M (inverse3_spec M) = identity 3
                 ∧ mat_mul 3 (inverse3_spec M) M = identity 3)
           (items AffineExamples.batch3).
Proof.
  apply (proj1 invert_3x3_cofactor_formula AffineExamples.batch3).
  - repeat constructor.
  - reflexivity.
  - reflexivity.
  - repeat constructor.
    + exists AffineExamples.diag245_inv.
      split; [repeat constructor|split; by_eval].
    + exists AffineExamples.full3_inv.
      split; [repeat constructor|split; by_eval].
Defined.

(** [affine_inverse] on a well-shaped batch of dimension 2. *)
Lemma affine_inverse_2 l ts :
  Forall (matrix_shape 2 2) l → length l = length ts →
  affine_inverse (Tensor3 2 2 l) (Tensor2 2 ts)
  = OK (Tensor3 2 2 (map inverse2_spec l),
        Tensor2 2 (map (map Qcopp) (zip_with matvec (map inverse2_spec l) ts))).
Proof.
  intros Hl Hlen. unfold affine_inverse. cbn [dim1 dim2 tdim].
  rewrite !bool_decide_eq_true_2 by (done || by left). cbn [py_assert].
  rewrite !bind_OK, decide_True by done.
  rewrite invert_2x2_wf, bind_OK by done.
  unfold bmatvec. cbn [dim1 dim2 tdim items titems].
  rewrite decide_True by done.
  by rewrite decide_True by (by rewrite length_map).
Qed.

(** [affine_inverse] on a well-shaped batch of dimension 3. *)
Lemma affine_inverse_3 l ts :
  Forall (matrix_shape 3 3) l → length l = length ts →
  affine_inverse (Tensor3 3 3 l) (Tensor2 3 ts)
  = OK (Tensor3 3 3 (map invert_3x3_item l),
        Tensor2 3 (map (map Qcopp) (zip_with matvec (map invert_3x3_item l) ts))).
Proof.
  intros Hl Hlen. unfold affine_inverse. cbn [dim1 dim2 tdim].
  rewrite !bool_decide_eq_true_2 by (done || by right). cbn [py_assert].
  rewrite !bind_OK, decide_False by done.
  rewrite invert_3x3_items, bind_OK by done.
  unfold bmatvec. cbn [dim1 dim2 tdim items titems].
  rewrite decide_True by done.
  by rewrite decide_True by (by rewrite length_map).
Qed.

(** C5.  For a batch of invertible square matrices of dimension 2 or 3
    with one translation per matrix, [affine_inverse] succeeds, and
    applying it to its own result gives the original pair back. *)
Theorem affine_inverse_involutive A T d :
  tensor3_wf A → tensor2_wf T →
  dim1 A = d → dim2 A = d → tdim T = d → d = 2 ∨ d = 3 →
  length (items A) = length (titems T) →
  Forall (invertible d) (items A) →
  ∃ Ainv Tinv,
    affine_inverse A T = OK (Ainv, Tinv)
    ∧ affine_inverse Ainv Tinv = OK (A, T).
Proof.
  destruct A as [d1 d2 l], T as [dt ts].
  unfold tensor3_wf, tensor2_wf. cbn [dim1 dim2 tdim items titems].
  intros Hwf HT -> -> -> [->| ->] Hlen Hinv.
  - eexists _, _. split; [by apply affine_inverse_2|].
    rewrite affine_inverse_2.
    + assert (Forall (λ M, inverse2_spec (inverse2_spec M) = M
                ∧ ∀ t, length t = 2 →
                    map Qcopp (matvec M (map Qcopp (matvec (inverse2_spec M) t))) = t)
                l) as Hl.
      { rewrite Forall_forall in Hwf, Hinv |- *. intros M HM.
        pose proof (invertible_det2 M (Hwf M HM) (Hinv M HM)).
        split; [by apply inverse2_spec_involutive; auto|].
        intros t Ht. by apply matvec_inverse2; auto. }
      rewrite (double_inverse_translation inverse2_spec 2 l ts) by done.
      rewrite double_inverse_items; [done|].
      eapply Forall_impl; [exact Hl|]. by intros M [? _].
    + apply Forall_forall. intros M (M' & -> & _)%list_elem_of_fmap.
      apply inverse2_spec_shape.
    + rewrite !length_map, length_zip_with, length_map. lia.
  - assert (map invert_3x3_item l = map inverse3_spec l) as Hitems.
    { apply map_ext_in. intros M HM%list_elem_of_In.
      apply invert_3x3_item_spec. rewrite Forall_forall in Hwf. by apply Hwf. }
    assert (Forall (matrix_shape 3 3) (map inverse3_spec l)) as Hshape.
    { apply Forall_forall. intros M (M' & -> & _)%list_elem_of_fmap.
      apply inverse3_spec_shape. }
    eexists _, _. split; [by apply affine_inverse_3|].
    rewrite Hitems, affine_inverse_3.
    + assert (map invert_3x3_item (map inverse3_spec l)
              = map inverse3_spec (map inverse3_spec l)) as ->.
      { apply map_ext_in. intros M HM%list_elem_of_In.
        apply invert_3x3_item_spec. rewrite Forall_forall in Hshape.
        by apply Hshape. }
      assert (Forall (λ M, inverse3_spec (inverse3_spec M) = M
                ∧ ∀ t, length t = 3 →
                    map Qcopp (matvec M (map Qcopp (matvec (inverse3_spec M) t))) = t)
                l) as Hl.
      { rewrite Forall_forall in Hwf, Hinv |- *. intros M HM.
        pose proof (invertible_det3 M (Hwf M HM) (Hinv M HM)).
        split; [by apply inverse3_spec_involutive; auto|].
        intros t Ht. by apply matvec_inverse3; auto. }
      rewrite (double_inverse_translation inverse3_spec 3 l ts) by done.
      rewrite double_inverse_items; [done|].
      eapply Forall_impl; [exact Hl|]. by intros M [? _].
    + done.
    + rewrite !length_map, length_zip_with, length_map. lia.
Qed.

Example affine_inverse_2x2 :
  affine_inverse AffineExamples.batch2 AffineExamples.trans2
  = OK (Tensor3 2 2 [AffineExamples.full2_inv],
        Tensor2 2 [[qc 1 1; qc (-1) 1]]).
Proof. by_eval. Qed.

Lemma affine_inverse_involutive_witness :
  ∃ Ainv Tinv,
    affine_inverse AffineExamples.batch3 AffineExamples.trans3 = OK (Ainv, Tinv)
    ∧ affine_inverse Ainv Tinv
      = OK (AffineExamples.batch3, AffineExamples.trans3).
Proof.
  apply (affine_inverse_involutive
           AffineExamples.batch3 AffineExamples.trans3 3).
  - repeat constructor.
  - repeat constructor.
  - reflexivity.
  - reflexivity.
  - reflexivity.
  - right. reflexivity.
  - reflexivity.
  - repeat constructor.
    + exists AffineExamples.diag245_inv.
      split; [repeat constructor|split; by_eval].
    + exists AffineExamples.full3_inv.
      split; [repeat constructor|split; by_eval].
Defined.
End BatchInverse.

(** ** Rotation generator *)

Section RotationFacts.
Import Rotation.

Lemma rotation_exp_map_rot2 (v : list R) :
  rotation_exp_map (Rank1 v) = OK (Tensor3 2 2 (map rot2 v)).
Proof.
  unfold rotation_exp_map. rewrite map_map.
  eassert (stack1 (length v) _ = OK (map _ v)) as ->
    by (repeat apply stack1_cons; apply stack1_nil).
  rewrite bind_OK, map_map. by rewrite view3_map.
Qed.

Lemma rot2_orthogonal (a : R) :
  rmat_mul 2 (mtranspose 2 (rot2 a)) (rot2 a) = ridentity 2.
Proof.
  pose proof (sin2_cos2 a) as H. unfold Rsqr in H.
  unfold rmat_mul, rdot, ridentity, rot2. simpl.
  repeat f_equal; lra.
Qed.

(** C7.  For every batch [v] of 2D angles [rotation_exp_map] returns one
    2x2 matrix per angle, each of them orthogonal (its transpose times
    itself is the identity); on angles that are all zero it returns
    identity matrices. *)
Theorem rotation_exp_map_orthogonal :
  (∀ v : list R,
     ∃ Rs, rotation_exp_map (Rank1 v) = OK Rs
           ∧ dim1 Rs = 2 ∧ dim2 Rs = 2
           ∧ length (items Rs) = length v
           ∧ Forall (λ Rm, rmat_mul 2 (mtranspose 2 Rm) Rm = ridentity 2)
                    (items Rs))
  ∧ (∀ n : nat,
       rotation_exp_map (Rank1 (replicate n 0%R))
       = OK (Tensor3 2 2 (replicate n (ridentity 2)))).
Proof.
  split.
  - intros v. eexists. split; [apply rotation_exp_map_rot2|].
    cbn [dim1 dim2 items]. repeat split.
    + by rewrite length_map.
    + apply Forall_forall. intros Rm (a & -> & _)%list_elem_of_fmap.
      apply rot2_orthogonal.
  - intros n. rewrite rotation_exp_map_rot2. do 2 f_equal.
    induction n as [|n IH]; [done|]. simpl. rewrite IH. f_equal.
    unfold rot2, ridentity. simpl. rewrite cos_0, sin_0, Ropp_0. done.
Qed.
End RotationFacts.

(** ** Streaming average *)

Section StreamingFacts.
Import Streaming.

Example sum0_batch_a : sum0 batch_a = [qc 4 1; qc 6 1].
Proof. by_eval. Qed.

Example sum0_batch_b : sum0 batch_b = [qc 9 1; qc 12 1].
Proof. by_eval. Qed.

Example mean_spec_two_batches :
  mean_spec two_batches = [qc 13 5; qc 18 5].
Proof. by_eval. Qed.

Lemma Z2Qc_add (a b : Z) : Z2Qc (a + b) = (Z2Qc a + Z2Qc b)%Qc.
Proof.
  unfold Z2Qc, Qcplus. apply Qc_is_canon. cbn [this Q2Qc].
  rewrite !Qred_correct, inject_Z_plus. reflexivity.
Qed.

Lemma Z2Qc_nonzero (z : Z) : z ≠ 0%Z → Z2Qc z ≠ 0%Qc.
Proof.
  intros Hz H. apply Hz. apply (f_equal this) in H.
  unfold Z2Qc in H. cbn [this Q2Qc] in H.
  assert (inject_Z z == 0)%Q as E
    by (rewrite <- (Qred_correct (inject_Z z)), H; reflexivity).
  unfold Qeq in E. cbn in E. lia.
Qed.

(** After the first batch the running value is the batch sum, not the
    batch sum over the batch size. *)
Lemma batch_average_single (b : image_batch) :
  batch_average false 0 [b]
  = OK (Some (MeanTensor (match pix_dtype b with
                          | float32 => float32
                          | _ => float64
                          end) (sum0 b))).
Proof. unfold batch_average. simpl. by destruct (pix_dtype b). Qed.

(** One weighted update, multiplied out: [(S+n) * avg' = S * avg + avi]. *)
Lemma weighted_update (S n : Z) (a s : list Qc) :
  (S + n ≠ 0)%Z →
  map (λ x, (x * Z2Qc (S + n))%Qc)
    (Affine.vadd (map (λ x, (x * (Z2Qc S / Z2Qc (S + n)))%Qc) a)
                 (map (λ x, (x / Z2Qc (S + n))%Qc) s))
  = Affine.vadd (map (λ x, (x * Z2Qc S)%Qc) a) s.
Proof.
  intros HT%Z2Qc_nonzero. unfold Affine.vadd. revert s.
  induction a as [|x a IH]; intros [|y s]; try done.
  simpl. f_equal; [|apply IH]. field. exact HT.
Qed.

(** The loop from a state that already holds a running value: the
    running value times the number of items seen grows by the sum of
    every further batch. *)
Lemma batch_loop_weighted (batches : list image_batch) (st : avg_state) a d :
  avg st = Some a → seen_dtype st = Some d → (0 < sumsizes st)%Z →
  ∃ st' a',
    batch_loop false 0 st batches = OK st'
    ∧ avg st' = Some a'
    ∧ seen_dtype st' = seen_dtype st
    ∧ sumsizes st' = (sumsizes st + total_count batches)%Z
    ∧ map (λ x, (x * Z2Qc (sumsizes st'))%Qc) a'
      = foldl Affine.vadd (map (λ x, (x * Z2Qc (sumsizes st))%Qc) a)
          (map sum0 batches).
Proof.
  revert st a. induction batches as [|b batches IH]; intros st a Ha Hdt HS.
  - exists st, a. unfold total_count. simpl. rewrite Z.add_0_r. done.
  - cbn [batch_loop unpack]. unfold batch_step, shape_at. cbn [lookup list_lookup].
    rewrite bind_OK, Ha. unfold int_truediv.
    assert (0 ≤ batch_size b)%Z as Hb by (unfold batch_size; lia).
    rewrite decide_False by lia. rewrite !bind_OK.
    match goal with
    | |- context [batch_loop _ _ ?st1 _] =>
        destruct (IH st1 _ eq_refl) as (st' & a' & -> & Ha' & Hd & HS' & Hw);
        [cbn [seen_dtype]; by rewrite Hdt|cbn [sumsizes]; lia|]
    end.
    exists st', a'. cbn [sumsizes seen_dtype] in *.
    split_and!; [done|done| | |].
    + by rewrite Hd, Hdt.
    + rewrite HS'. unfold total_count. simpl. lia.
    + rewrite Hw, weighted_update by lia. done.
Qed.

(** What [batch_average] returns on any stream that starts with a
    non-empty batch: N times the result is [n_1] times the first batch sum
    plus the sums of the other batches, whereas N times the mean is the
    sum of all batch sums.  The two agree only when the first batch has
    one item or sums to zero. *)
Lemma batch_average_weighted_sum (b : image_batch) (rest : list image_batch) :
  (0 < batch_size b)%Z →
  ∃ dt r,
    batch_average false 0 (b :: rest) = OK (Some (MeanTensor dt r))
    ∧ map (λ x, (x * Z2Qc (total_count (b :: rest)))%Qc) r
      = foldl Affine.vadd
          (map (λ x, (x * Z2Qc (batch_size b))%Qc) (sum0 b))
          (map sum0 rest).
Proof.
  intros Hb. unfold batch_average.
  cbn [batch_loop unpack]. unfold batch_step at 1, shape_at.
  cbn [lookup list_lookup avg seen_dtype sumsizes]. rewrite !bind_OK.
  match goal with
  | |- context [batch_loop _ _ ?st1 _] =>
      destruct (batch_loop_weighted rest st1 _ (pix_dtype b) eq_refl eq_refl)
        as (st' & a' & -> & Ha' & Hd & HS' & Hw); [cbn [sumsizes]; lia|]
  end.
  rewrite bind_OK, Ha'. cbn [sumsizes seen_dtype] in *.
  assert (total_count (b :: rest) = sumsizes st') as ->
    by (rewrite HS'; unfold total_count; simpl; lia).
  rewrite Z.add_0_l in Hw. rewrite Hd.
  destruct (pix_dtype b); eexists _, a'; (split; [reflexivity|exact Hw]).
Qed.

(** C1 (fails on the code).  On the stream [(n=2, sum=[4,6]),
    (n=3, sum=[9,12])] [batch_average] returns [17/5, 24/5] = [3.4, 4.8],
    whereas the mean of the five items is [13/5, 18/5] = [2.6, 3.6]: the
    first batch enters the running value as its sum. *)
Theorem batch_average_two_batches :
  batch_average false 0 two_batches
  = OK (Some (MeanTensor float64 [qc 17 5; qc 24 5]))
  ∧ batch_average false 0 two_batches
    ≠ OK (Some (MeanTensor float64 [qc 13 5; qc 18 5])).
Proof. split; by_eval. Qed.
End StreamingFacts.

(** ** Regridding *)

Section RegridFacts.
Import Regrid.

(** The list comprehension [[(sI-1)/(s-1) for sI, s in zip(ins, outs)]]. *)
Lemma spacing_comprehension (ins outs : list Z) :
  Forall (λ s, s ≠ 1%Z) outs →
  foldr (λ '(sI, s) acc,
           x ← Streaming.int_truediv (sI - 1) (s - 1);
           rest ← acc;
           OK (x :: rest))
        (OK []) (zip ins outs)
  = OK (zip_with (λ sI s, (Z2Qc (sI - 1) / Z2Qc (s - 1))%Qc) ins outs).
Proof.
  intros Houts. revert ins.
  induction Houts as [|s outs Hs _ IH]; intros [|sI ins]; try done.
  cbn [zip zip_with foldr]. rewrite IH.
  unfold Streaming.int_truediv.
  rewrite decide_False by lia. done.
Qed.

(** C2, as the code has it.  With only [shape] given, as a tuple with one
    size per spatial axis and no size equal to 1, the resolved origin is
    [(in_size-1)/2] per axis and the resolved spacing is
    [(in_size-1)/(out_size-1)] per axis. *)
Theorem regrid_geometry_shape_only (N C : Z) (ins outs : list Z) :
  length outs = length ins →
  Forall (λ s, s ≠ 1%Z) outs →
  regrid_geometry (N :: C :: ins) (Some (Tuple outs)) None None
  = OK (outs,
        map (λ sI, (Z2Qc (sI - 1) * qc 1 2)%Qc) ins,
        zip_with (λ sI s, (Z2Qc (sI - 1) / Z2Qc (s - 1))%Qc) ins outs).
Proof.
  intros Hlen Houts. unfold regrid_geometry.
  change (drop 2 (N :: C :: ins)) with ins.
  rewrite spacing_comprehension by done. rewrite !bind_OK. cbn [as_tuple].
  rewrite !bool_decide_eq_true_2; [done|..];
    rewrite ?length_zip_with, ?length_map; cbn [length]; lia.
Qed.

Lemma regrid_geometry_shape_only_witness :
  regrid_geometry [1%Z; 1%Z; 5%Z] (Some (Tuple [10%Z])) None None
  = OK ([10%Z],
        map (λ sI, (Z2Qc (sI - 1) * qc 1 2)%Qc) [5%Z],
        zip_with (λ sI s, (Z2Qc (sI - 1) / Z2Qc (s - 1))%Qc)
                 [5%Z] [10%Z]).
Proof.
  apply (regrid_geometry_shape_only 1 1 [5%Z] [10%Z]).
  - reflexivity.
  - repeat constructor; lia.
Defined.

(** With the resolved spacing the output grid spans the input grid: the
    distance from the first to the last output voxel, [(out_size-1)]
    spacings, is the distance [in_size-1] between the input corners. *)
Lemma resolved_spacing_aligns_corners (sI s : Z) :
  s ≠ 1%Z →
  (Z2Qc (s - 1) * (Z2Qc (sI - 1) / Z2Qc (s - 1)))%Qc = Z2Qc (sI - 1).
Proof.
  intros Hs. assert (Z2Qc (s - 1) ≠ 0%Qc) by (apply Z2Qc_nonzero; lia).
  by field.
Qed.

(** C2 as stated fails: for [shape=(10,)] on an input of size 5 the
    resolved origin is 2 and the resolved spacing is 4/9, not 9/4. *)
Lemma regrid_geometry_shape_10_size_5 :
  regrid_geometry [1%Z; 1%Z; 5%Z] (Some (Tuple [10%Z])) None None
  = OK ([10%Z], [qc 2 1], [qc 4 9])
  ∧ regrid_geometry [1%Z; 1%Z; 5%Z] (Some (Tuple [10%Z])) None None
    ≠ OK ([10%Z], [qc 2 1], [qc 9 4]).
Proof. split; by_eval. Qed.

Section Displacement.
Variable regrid_forward : field → list Z → list Qc → list Qc → result field.
Variable regrid_backward :
  field → list Z → list Z → list Qc → list Qc → result field.

(** With [displacement=True] the forward pass succeeds as soon as the
    kernel does, the input has as many channels as spatial axes, there is
    one spacing per axis and the kernel keeps the channel count. *)
Lemma forward_displacement_OK I outshape origin spacing reg :
  regrid_forward I outshape origin spacing = OK reg →
  fshape I !! 1 = Some (Z.of_nat (length (fshape I)) - 2)%Z →
  Z.of_nat (length spacing) = (Z.of_nat (length (fshape I)) - 2)%Z →
  Forall (λ chs, length chs = length spacing) (fdata reg) →
  is_OK (forward regrid_forward I outshape origin spacing true).
Proof.
  intros Hreg Hc Hlen Hch. unfold forward.
  rewrite Hreg, bind_OK, Hc, bind_OK. cbv beta zeta.
  destruct (decide (_ ≠ _)) as [Hne|_]; [by destruct Hne|].
  rewrite decide_True by done.
  unfold mul_channels.
  destruct (mapM _ (fdata reg)) as [d|] eqn:Hd; [by eexists|].
  exfalso. apply eq_None_not_Some in Hd. apply Hd. clear Hd.
  apply mapM_is_Some. eapply Forall_impl; [exact Hch|].
  intros chs Hchs. unfold compose, scale_sample.
  rewrite decide_True by (by rewrite length_map). done.
Qed.

(** C8.  Whenever [forward] returns with [displacement=True], its output
    is the kernel's output with channel c multiplied by [1/spacing[c]],
    and [backward] on the context it saved multiplies the kernel's
    gradient by the very same per-channel factors.  (The spacings are
    taken non-zero, where the rational [1/s] is the float [1./s].) *)
Theorem regrid_displacement_scaling I outshape origin spacing ctx out :
  Forall (λ s, s ≠ 0%Qc) spacing →
  forward regrid_forward I outshape origin spacing true = OK (ctx, out) →
  let factors := map (λ s, (1 / s)%Qc) spacing in
  (∃ reg, regrid_forward I outshape origin spacing = OK reg
          ∧ mul_channels factors reg = OK out)
  ∧ (∀ grad_out,
       backward regrid_backward ctx grad_out
       = (d_I ← regrid_backward grad_out (drop 2 (fshape I)) outshape
                  origin spacing;
          mul_channels factors d_I)).
Proof.
  intros _ H factors. unfold forward in H.
  destruct (regrid_forward I outshape origin spacing) as [reg|] eqn:Hreg;
    [|discriminate].
  rewrite bind_OK in H.
  destruct (fshape I !! 1) as [c|]; [|discriminate].
  rewrite bind_OK in H.
  destruct (decide (c ≠ _)); [discriminate|].
  destruct (decide (Z.of_nat (length spacing) = _)); [|discriminate].
  destruct (mul_channels _ reg) as [reg'|] eqn:Hmul; [|discriminate].
  rewrite bind_OK in H. injection H as <- <-.
  split; [by exists reg|].
  intros grad_out. unfold backward. reflexivity.
Qed.
End Displacement.

(** End to end: regridding the example displacement field from 5 to 10
    voxels with only [shape] given resolves the spacing 4/9 and scales
    the displacements by 9/4. *)
Example regrid_displacement_example :
  regrid ex_forward ex_I (Some (Tuple [10%Z])) None None true = OK ex_out.
Proof. by_eval. Qed.

Lemma regrid_displacement_scaling_witness :
  forward ex_forward ex_I [10%Z] [qc 2 1] [qc 4 9] true = OK (ex_ctx, ex_out)
  ∧ ((∃ reg, ex_forward ex_I [10%Z] [qc 2 1] [qc 4 9] = OK reg
             ∧ mul_channels (map (λ s, (1 / s)%Qc) [qc 4 9]) reg = OK ex_out)
     ∧ ∀ grad_out,
         backward ex_backward ex_ctx grad_out
         = (d_I ← ex_backward grad_out (drop 2 (fshape ex_I)) [10%Z]
                    [qc 2 1] [qc 4 9];
            mul_channels (map (λ s, (1 / s)%Qc) [qc 4 9]) d_I)).
Proof.
  assert (forward ex_forward ex_I [10%Z] [qc 2 1] [qc 4 9] true
          = OK (ex_ctx, ex_out)) as H by by_eval.
  split; [exact H|].
  apply (regrid_displacement_scaling ex_forward ex_backward ex_I
           [10%Z] [qc 2 1] [qc 4 9] ex_ctx ex_out); [|exact H].
  repeat constructor. by_eval.
Defined.
End RegridFacts.

(** ** Atlas fitter: optimizer steps per epoch *)

Section AtlasFacts.
Import Atlas.
Local Open Scope Z_scope.

Lemma succ_div_mod (j k : Z) :
  0 ≤ j → 0 < k →
  (j mod k + 1 = k → (j + 1) mod k = 0 ∧ (j + 1) / k = j / k + 1)
  ∧ (j mod k + 1 ≠ k → (j + 1) mod k = j mod k + 1 ∧ (j + 1) / k = j / k).
Proof.
  intros Hj Hk.
  pose proof (Z.div_mod j k ltac:(lia)) as Hdm.
  pose proof (Z.mod_pos_bound j k Hk) as Hb.
  split; intros H.
  - assert (j + 1 = k * (j / k + 1) + 0) as E by lia.
    split.
    + symmetry. apply (Z.mod_unique_pos _ _ (j / k + 1)); lia.
    + symmetry. apply (Z.div_unique_pos _ _ _ 0); lia.
  - assert (j + 1 = k * (j / k) + (j mod k + 1)) as E by lia.
    split.
    + symmetry. apply (Z.mod_unique_pos _ _ (j / k)); lia.
    + symmetry. apply (Z.div_unique_pos _ _ _ (j mod k + 1)); lia.
Qed.

Lemma count_steps_app (c1 c2 : list optimizer_call) :
  count_steps (c1 ++ c2) = (count_steps c1 + count_steps c2)%nat.
Proof. unfold count_steps. by rewrite filter_app, length_app. Qed.

Section Schedule.
Variables (k a ws : Z) (M : nat).
Hypothesis Ha : 1 ≤ a.
Hypothesis Hws : ws ≤ 1.

Lemma average_and_step_OK st :
  average_and_step a ws st
  = OK (EpochState (image_iters st) (calls st ++ [OptStep])
          (epoch_loss_is_tensor st)).
Proof.
  unfold average_and_step.
  rewrite decide_False by lia. by rewrite decide_False by lia.
Qed.

Lemma minibatch_iter_OK st :
  minibatch_iter k a ws st
  = OK (if decide (image_iters st + 1 = k)
        then EpochState 0 (calls st ++ [OptStep] ++ [ZeroGrad]) true
        else EpochState (image_iters st + 1) (calls st) true).
Proof.
  unfold minibatch_iter. cbn [image_iters calls epoch_loss_is_tensor].
  destruct (decide (image_iters st + 1 = k)).
  - rewrite average_and_step_OK, !bind_OK.
    cbn [image_iters calls epoch_loss_is_tensor].
    rewrite decide_False by lia. by rewrite <- app_assoc.
  - rewrite bind_OK. by rewrite decide_False by lia.
Qed.

(** With a positive frequency: after [n] more minibatches the counter is
    the number of minibatches seen modulo [k] and one step was taken per
    full group of [k]. *)
Lemma minibatch_loop_pos (n : nat) st (j : Z) :
  0 < k → 0 ≤ j → image_iters st = j mod k →
  ∃ st', minibatch_loop k a ws n st = OK st'
         ∧ image_iters st' = (j + Z.of_nat n) mod k
         ∧ Z.of_nat (count_steps (calls st'))
           = Z.of_nat (count_steps (calls st)) + ((j + Z.of_nat n) / k - j / k)
         ∧ (epoch_loss_is_tensor st'
            = if n is O then epoch_loss_is_tensor st else true).
Proof.
  intros Hk. revert st j. induction n as [|n IH]; intros st j Hj Hst.
  - exists st. rewrite Z.add_0_r. repeat split; [done|lia].
  - cbn [minibatch_loop]. rewrite minibatch_iter_OK, bind_OK.
    destruct (succ_div_mod j k Hj Hk) as [Heq Hne].
    replace (j + Z.of_nat (S n)) with ((j + 1) + Z.of_nat n) by lia.
    destruct (decide (image_iters st + 1 = k)) as [E|E].
    + destruct Heq as [Hm Hd]; [lia|].
      destruct (IH (EpochState 0 (calls st ++ [OptStep] ++ [ZeroGrad]) true)
                  (j + 1)) as (st' & -> & Hi & Hc & Ht); [lia|done|].
      exists st'. repeat split; [done| |by destruct n].
      rewrite Hc. cbn [calls]. rewrite count_steps_app.
      change (count_steps ([OptStep] ++ [ZeroGrad])) with 1%nat. lia.
    + destruct Hne as [Hm Hd]; [lia|].
      destruct (IH (EpochState (image_iters st + 1) (calls st) true)
                  (j + 1)) as (st' & -> & Hi & Hc & Ht);
        [lia|cbn [image_iters]; lia|].
      exists st'. repeat split; [done| |by destruct n].
      rewrite Hc. cbn [calls]. lia.
Qed.

(** With frequency 0 no step is taken inside the loop. *)
Lemma minibatch_loop_zero (n : nat) st :
  k = 0 → 0 ≤ image_iters st →
  ∃ st', minibatch_loop k a ws n st = OK st'
         ∧ image_iters st' = image_iters st + Z.of_nat n
         ∧ calls st' = calls st
         ∧ (epoch_loss_is_tensor st'
            = if n is O then epoch_loss_is_tensor st else true).
Proof.
  intros Hk. revert st. induction n as [|n IH]; intros st Hst.
  - exists st. repeat split. lia.
  - cbn [minibatch_loop]. rewrite minibatch_iter_OK, bind_OK.
    rewrite decide_False by lia.
    destruct (IH (EpochState (image_iters st + 1) (calls st) true))
      as (st' & -> & Hi & Hc & Ht); [cbn [image_iters]; lia|].
    exists st'. cbn [image_iters calls] in *.
    repeat split; [lia|done|by destruct n].
Qed.

(** The same loop, call by call: every full group of [k] minibatches
    appends one step followed by one reset of the gradient. *)
Lemma minibatch_loop_pos_calls (n : nat) st (j : Z) :
  0 < k → 0 ≤ j → image_iters st = j mod k →
  ∃ st', minibatch_loop k a ws n st = OK st'
         ∧ calls st'
           = calls st
             ++ List.concat
                  (replicate (Z.to_nat ((j + Z.of_nat n) / k - j / k))
                     [OptStep; ZeroGrad]).
Proof.
  intros Hk. revert st j. induction n as [|n IH]; intros st j Hj Hst.
  - exists st. rewrite Z.add_0_r, Z.sub_diag. simpl. by rewrite app_nil_r.
  - cbn [minibatch_loop]. rewrite minibatch_iter_OK, bind_OK.
    destruct (succ_div_mod j k Hj Hk) as [Heq Hne].
    replace (j + Z.of_nat (S n)) with ((j + 1) + Z.of_nat n) by lia.
    assert ((j + 1) / k ≤ (j + 1 + Z.of_nat n) / k)
      by (apply Z.div_le_mono; lia).
    destruct (decide (image_iters st + 1 = k)) as [E|E].
    + destruct Heq as [Hm Hd]; [lia|].
      destruct (IH (EpochState 0 (calls st ++ [OptStep] ++ [ZeroGrad]) true)
                  (j + 1)) as (st' & -> & Hc); [lia|done|].
      exists st'. split; [done|]. rewrite Hc. cbn [calls].
      replace (Z.to_nat ((j + 1 + Z.of_nat n) / k - j / k))
        with (S (Z.to_nat ((j + 1 + Z.of_nat n) / k - (j + 1) / k))) by lia.
      cbn [replicate List.concat]. by rewrite <- !app_assoc.
    + destruct Hne as [Hm Hd]; [lia|].
      destruct (IH (EpochState (image_iters st + 1) (calls st) true)
                  (j + 1)) as (st' & -> & Hc); [lia|cbn [image_iters]; lia|].
      exists st'. split; [done|]. rewrite Hc, Hd. done.
Qed.

(** The optimizer calls of one epoch with [k > 0]: the reset of the first
    epoch, [floor(M/k)] steps inside the loop, each followed by a reset,
    and one final step when minibatches remain. *)
Lemma run_epoch_calls (epoch : nat) :
  (1 ≤ M)%nat → 0 < k →
  run_epoch k a ws M epoch
  = OK ((if decide (epoch = 0%nat) then [ZeroGrad] else [])
        ++ List.concat (replicate (Z.to_nat (Z.of_nat M / k)) [OptStep; ZeroGrad])
        ++ (if decide (Z.of_nat M mod k = 0) then [] else [OptStep])).
Proof.
  intros HM Hk. unfold run_epoch.
  assert ((if decide (k = 0 ∨ epoch = 0%nat) then [ZeroGrad] else [])
          = (if decide (epoch = 0%nat) then [ZeroGrad] else [])) as ->
    by (repeat destruct (decide _); (done || lia)).
  set (first := if decide (epoch = 0%nat) then [ZeroGrad] else []).
  destruct (minibatch_loop_pos M (EpochState 0 first false) 0)
    as (st' & Hloop & Hi & _ & Ht); [lia|done|done|].
  destruct (minibatch_loop_pos_calls M (EpochState 0 first false) 0)
    as (st'' & Hloop' & Hc); [lia|done|done|].
  rewrite Hloop in Hloop'. injection Hloop' as <-. rewrite Hloop, bind_OK.
  cbn [image_iters calls epoch_loss_is_tensor] in *.
  rewrite Z.add_0_l in Hi, Hc. rewrite Z.div_0_l, Z.sub_0_r in Hc by lia.
  pose proof (Z.mod_pos_bound (Z.of_nat M) k ltac:(lia)) as Hb.
  assert (epoch_loss_is_tensor st' = true) as Ht'
    by (rewrite Ht; destruct M; [lia|done]).
  destruct (decide (0 < image_iters st')) as [Hpos|Hpos].
  - rewrite average_and_step_OK, bind_OK.
    cbn [image_iters calls epoch_loss_is_tensor]. rewrite Ht', Hc.
    rewrite decide_False by lia. by rewrite <- app_assoc.
  - rewrite bind_OK, Ht', Hc. rewrite decide_True by lia.
    by rewrite app_nil_r.
Qed.

(** With [image_update_freq = 0] the calls of an epoch are one reset and
    one step. *)
Lemma run_epoch_calls_zero (epoch : nat) :
  (1 ≤ M)%nat → k = 0 → run_epoch k a ws M epoch = OK [ZeroGrad; OptStep].
Proof.
  intros HM Hk. unfold run_epoch. rewrite decide_True by (by left).
  destruct (minibatch_loop_zero M (EpochState 0 [ZeroGrad] false) Hk)
    as (st' & -> & Hi & Hc & Ht); [done|].
  rewrite bind_OK. cbn [image_iters calls epoch_loss_is_tensor] in *.
  rewrite decide_True by lia. rewrite average_and_step_OK, bind_OK.
  cbn [image_iters calls epoch_loss_is_tensor].
  rewrite Ht, Hc. by destruct M; [lia|].
Qed.

(** An epoch over at least one minibatch completes, with the number of
    steps that the specification gives. *)
Lemma run_epoch_steps (epoch : nat) :
  (1 ≤ M)%nat → 0 ≤ k →
  ∃ cs, run_epoch k a ws M epoch = OK cs
        ∧ (k = 0 → count_steps cs = 1%nat)
        ∧ (0 < k →
           Z.of_nat (count_steps cs)
           = Z.of_nat M / k + (if decide (Z.of_nat M mod k = 0) then 0 else 1)).
Proof.
  intros HM Hk0. unfold run_epoch.
  set (first := if decide (k = 0 ∨ epoch = 0%nat) then [ZeroGrad] else []).
  assert (count_steps first = 0%nat) as Hfirst
    by (unfold first; by destruct (decide _)).
  destruct (decide (k = 0)) as [Hk|Hk].
  - destruct (minibatch_loop_zero M (EpochState 0 first false) Hk)
      as (st' & -> & Hi & Hc & Ht); [done|].
    rewrite bind_OK. cbn [image_iters calls epoch_loss_is_tensor] in *.
    rewrite decide_True by lia.
    rewrite average_and_step_OK, bind_OK.
    cbn [image_iters calls epoch_loss_is_tensor].
    rewrite Ht. destruct M; [lia|].
    eexists. split; [done|]. split; [|lia].
    intros _. by rewrite Hc, count_steps_app, Hfirst.
  - destruct (minibatch_loop_pos M (EpochState 0 first false) 0)
      as (st' & -> & Hi & Hc & Ht); [lia|done|done|].
    rewrite bind_OK. cbn [image_iters calls epoch_loss_is_tensor] in *.
    rewrite Z.add_0_l in Hi, Hc. rewrite Z.div_0_l, Hfirst in Hc by lia.
    pose proof (Z.mod_pos_bound (Z.of_nat M) k ltac:(lia)) as Hb.
    assert (epoch_loss_is_tensor st' = true) as Ht'
      by (rewrite Ht; destruct M; [lia|done]).
    destruct (decide (0 < image_iters st')) as [Hpos|Hpos].
    + rewrite average_and_step_OK, bind_OK.
      cbn [image_iters calls epoch_loss_is_tensor]. rewrite Ht'.
      eexists. split; [done|]. split; [lia|]. intros _.
      rewrite count_steps_app, Nat2Z.inj_add, Hc.
      rewrite decide_False by lia.
      change (count_steps [OptStep]) with 1%nat. lia.
    + rewrite bind_OK, Ht'.
      eexists. split; [done|]. split; [lia|]. intros _.
      rewrite Hc. rewrite decide_True by lia. lia.
Qed.
End Schedule.

(** An epoch that completes ran at least one minibatch with at least one
    affine step: on an empty loader [epoch_loss] is still a float when
    [.item()] is called on it, and without an affine step [loss] and
    [I.grad] are never set. *)
Lemma run_epoch_OK_inv k a ws M epoch cs :
  run_epoch k a ws M epoch = OK cs → (1 ≤ M)%nat ∧ 1 ≤ a.
Proof.
  unfold run_epoch. destruct M as [|n].
  - cbn [minibatch_loop]. rewrite bind_OK. cbn [image_iters].
    rewrite decide_False by lia. by rewrite bind_OK.
  - intros H. split; [lia|]. destruct (decide (1 ≤ a)) as [|Ha]; [done|].
    exfalso. revert H. cbn [minibatch_loop]. unfold minibatch_iter.
    cbn [image_iters calls epoch_loss_is_tensor].
    destruct (decide (0 + 1 = k)).
    + unfold average_and_step. destruct (decide (1 < ws)); [done|].
      by rewrite decide_True by lia.
    + rewrite bind_OK. by rewrite decide_True by lia.
Qed.

(** An epoch over no minibatch does not complete. *)
Lemma run_epoch_empty k a ws epoch :
  run_epoch k a ws 0 epoch = Err AttributeError.
Proof.
  unfold run_epoch. cbn [minibatch_loop]. rewrite bind_OK. cbn [image_iters].
  rewrite decide_False by lia. by rewrite bind_OK.
Qed.

Lemma epochs_foldr (run : nat → result (list optimizer_call))
    (es : list nat) (epochs : list (list optimizer_call)) :
  foldr (λ epoch acc, c ← run epoch; rest ← acc; OK (c :: rest)) (OK []) es
  = OK epochs →
  Forall2 (λ e cs, run e = OK cs) es epochs.
Proof.
  revert epochs. induction es as [|e es IH]; intros epochs; cbn [foldr].
  - intros [= <-]. constructor.
  - destruct (run e) as [c|] eqn:Hc; [|discriminate]. rewrite bind_OK.
    destruct (foldr _ _ es) as [rest|]; [|discriminate].
    rewrite bind_OK. intros [= <-]. constructor; [done|by apply IH].
Qed.

(** C9.  [affine_atlas] completes whenever every epoch has at least one
    minibatch (with at least one affine step and a single process), and
    every epoch of a completed run performs exactly one atlas-optimizer
    step when [image_update_freq] is 0, and [floor(M/k)] steps plus one
    more when [M mod k] is not zero when [image_update_freq] is [k > 0]. *)
Theorem affine_atlas_steps_per_epoch
    (k a ws : Z) (M : nat) (I_given : bool) (num_epochs : nat) :
  ((1 ≤ M)%nat → 1 ≤ a → ws ≤ 1 → 0 ≤ k →
   is_OK (affine_atlas k a ws M I_given num_epochs))
  ∧ ∀ epochs,
      affine_atlas k a ws M I_given num_epochs = OK epochs →
      length epochs = num_epochs
      ∧ Forall (λ cs,
          (k = 0 → count_steps cs = 1%nat)
          ∧ (0 < k →
             Z.of_nat (count_steps cs)
             = Z.of_nat M / k
               + (if decide (Z.of_nat M mod k = 0) then 0 else 1)))
          epochs.
Proof.
  unfold affine_atlas. split.
  - intros HM Ha Hws Hk. rewrite decide_False by lia. rewrite bind_OK.
    assert ((if I_given then OK ()
             else match M with O => Err AttributeError | S _ => OK () end)
            = OK ()) as -> by (destruct I_given, M; (done || lia)).
    rewrite bind_OK.
    induction (seq 0 num_epochs) as [|e es [rest IH]]; cbn [foldr].
    + by eexists.
    + destruct (run_epoch_steps k a ws M Ha Hws e HM Hk) as (cs & -> & _).
      rewrite bind_OK, IH, bind_OK. by eexists.
  - intros epochs H.
    destruct (decide (1 < ws)) as [|Hws]; [discriminate|]. rewrite bind_OK in H.
    destruct (if I_given then _ else _); [|discriminate]. rewrite bind_OK in H.
    apply epochs_foldr in H. split.
    + apply Forall2_length in H. by rewrite length_seq in H.
    + apply Forall_forall. intros cs Hcs.
      destruct (proj1 (list_elem_of_lookup _ _) Hcs) as [i Hi].
      destruct (Forall2_lookup_r _ _ _ _ _ H Hi) as (e & _ & He).
      destruct (run_epoch_OK_inv _ _ _ _ _ _ He) as [HM Ha].
      split; intros Hk;
        destruct (run_epoch_steps k a ws M Ha ltac:(lia) e HM ltac:(lia))
          as (cs' & Hcs' & H0 & Hpos);
        rewrite He in Hcs'; injection Hcs' as <-; auto.
Qed.

Lemma affine_atlas_steps_per_epoch_witness :
  is_OK (affine_atlas 3 1 1 7 true 2)
  ∧ affine_atlas 3 1 1 7 true 2
    = OK [[ZeroGrad; OptStep; ZeroGrad; OptStep; ZeroGrad; OptStep];
          [OptStep; ZeroGrad; OptStep; ZeroGrad; OptStep]]
  ∧ Forall (λ cs, Z.of_nat (count_steps cs) = 3)
      [[ZeroGrad; OptStep; ZeroGrad; OptStep; ZeroGrad; OptStep];
       [OptStep; ZeroGrad; OptStep; ZeroGrad; OptStep]].
Proof.
  destruct (affine_atlas_steps_per_epoch 3 1 1 7 true 2) as [Hok Hsteps].
  split; [apply Hok; lia|].
  assert (affine_atlas 3 1 1 7 true 2
          = OK [[ZeroGrad; OptStep; ZeroGrad; OptStep; ZeroGrad; OptStep];
                [OptStep; ZeroGrad; OptStep; ZeroGrad; OptStep]]) as E
    by (vm_compute; reflexivity).
  split; [exact E|].
  destruct (Hsteps _ E) as [_ H].
  eapply Forall_impl; [exact H|].
  intros cs [_ Hcs]. apply Hcs. lia.
Defined.
End AtlasFacts.

(** ** Flow composition and image interpolation *)

Section DeformFacts.
Import Deform.

Variable precision : Type.
Variable dtype2precision : Streaming.dtype → result precision.
Variable kernel :
  kernel_name → precision → Z * Z * Z →
  gpuarray → gpuarray → gpuarray → Z → Z → Z → list Qc.

Lemma only_writes_refl L σ : only_writes L σ σ.
Proof. by intros l _. Qed.

Lemma only_writes_insert L σ l a : l ∈ L → only_writes L σ (<[l := a]> σ).
Proof. intros Hl l' Hl'. apply lookup_insert_ne. set_solver. Qed.

Lemma only_writes_trans L σ1 σ2 σ3 :
  only_writes L σ1 σ2 → only_writes L σ2 σ3 → only_writes L σ1 σ3.
Proof. intros H12 H23 l Hl. by rewrite H23, H12. Qed.

Lemma bind_only_writes {A B} L (m : M A) (f : A → M B) σ :
  only_writes L σ (m σ).2 →
  (∀ a σ', only_writes L σ' (f a σ').2) →
  only_writes L σ ((m ≫= f) σ).2.
Proof.
  intros Hm Hf. unfold mbind, M_bind.
  destruct (m σ) as [[a|e] σ']; cbn [snd] in *; [|done].
  eapply only_writes_trans; [exact Hm|apply Hf].
Qed.

Lemma lift_only_writes {A} L (r : result A) σ : only_writes L σ (lift r σ).2.
Proof. apply only_writes_refl. Qed.

Lemma deref_only_writes L l σ : only_writes L σ (deref l σ).2.
Proof. unfold deref. destruct (σ !! l); apply only_writes_refl. Qed.

Lemma ret_only_writes {A} L (a : A) σ : only_writes L σ (mret (M:=M) a σ).2.
Proof. apply only_writes_refl. Qed.

Lemma store_only_writes L l a σ : l ∈ L → only_writes L σ (store l a σ).2.
Proof. intros Hl. by apply only_writes_insert. Qed.

Lemma ret_bind_only_writes {A B} L (a : A) (f : A → M B) σ :
  only_writes L σ (f a σ).2 → only_writes L σ ((mret a ≫= f) σ).2.
Proof. done. Qed.

(** Walks through a computation made of binds, branches and the
    primitives above; [tac] closes the calls of functions that have a
    frame lemma of their own. *)
Ltac frame_with tac :=
  repeat first
    [ tac
    | match goal with
      | |- only_writes _ _ ((mret _ ≫= _) _).2 => apply ret_bind_only_writes
      | |- only_writes _ _ ((_ ≫= _) _).2 =>
          apply bind_only_writes; [|intros ? ?]
      end
    | apply lift_only_writes
    | apply deref_only_writes
    | apply ret_only_writes
    | apply store_only_writes; set_solver
    | progress cbv zeta
    | match goal with
      | |- only_writes _ _ ((if ?c then _ else _) _).2 => destruct c
      end ].

Ltac frame := frame_with fail.

Lemma launch_only_writes f prec grid out a h σ :
  only_writes {[out]} σ (launch kernel f prec grid out a h σ).2.
Proof. unfold launch, index. frame. Qed.

Lemma interp_vectorfield_kernel_only_writes out g h d σ :
  only_writes {[out]} σ
    (interp_vectorfield_kernel dtype2precision kernel out g h d σ).2.
Proof.
  unfold interp_vectorfield_kernel, index, assert_, raise.
  frame_with ltac:(apply launch_only_writes).
Qed.

Lemma interp_vec_only_writes g h d out σ :
  only_writes {[out]} σ
    (interp_vec dtype2precision kernel g h d (Some out) σ).2.
Proof.
  unfold interp_vec, index, assert_.
  frame_with ltac:(apply interp_vectorfield_kernel_only_writes).
Qed.

Lemma multiply_add_only_writes v dt out σ :
  only_writes {[out]} σ (multiply_add v dt out σ).2.
Proof. unfold multiply_add. frame. Qed.

Lemma imul_only_writes l dt σ : only_writes {[l]} σ (imul l dt σ).2.
Proof. unfold imul. frame. Qed.

Lemma only_writes_mono L1 L2 σ σ' :
  L1 ⊆ L2 → only_writes L1 σ σ' → only_writes L2 σ σ'.
Proof. intros HL H l Hl. apply H. set_solver. Qed.

Lemma fresh_not_allocated (σ : heap) l : is_Some (σ !! l) → l ≠ fresh (dom σ).
Proof.
  intros Hl%elem_of_dom ->. by apply (is_fresh (dom σ)).
Qed.

Lemma bindM_eq {A B} (m : M A) (f : A → M B) σ :
  (m ≫= f) σ = match m σ with
               | (OK a, σ') => f a σ'
               | (Err e, σ') => (Err e, σ')
               end.
Proof. reflexivity. Qed.

Lemma empty_like_cases l σ :
  (∃ e, empty_like l σ = (Err e, σ))
  ∨ (∃ a, empty_like l σ = (OK (fresh (dom σ)), <[fresh (dom σ) := a]> σ)).
Proof.
  unfold empty_like, empty, alloc, deref, mbind, M_bind.
  destruct (σ !! l); eauto.
Qed.

Lemma copy_cases l σ :
  (∃ e, copy l σ = (Err e, σ))
  ∨ (∃ a, copy l σ = (OK (fresh (dom σ)), <[fresh (dom σ) := a]> σ)).
Proof.
  unfold copy, alloc, deref, mbind, M_bind.
  destruct (σ !! l); eauto.
Qed.

(** The heap that [composeHV] leaves, with [displacement=True] and no
    output buffer, differs from the initial heap only at two locations
    that were not allocated before the call; the result, if any, is the
    first of them. *)
Lemma composeHV_displacement_heap h v dt σ :
  ∃ o x, σ !! o = None ∧ σ !! x = None
         ∧ only_writes {[o; x]} σ
             (composeHV dtype2precision kernel h v dt true None σ).2
         ∧ ∀ r, (composeHV dtype2precision kernel h v dt true None σ).1 = OK r
                → r = o.
Proof.
  set (o := fresh (dom σ)).
  assert (σ !! o = None) as Ho by (apply not_elem_of_dom, is_fresh).
  unfold composeHV. rewrite bindM_eq.
  destruct (empty_like_cases h σ) as [[e ->]|[a ->]].
  { exists o, o. split_and!; [done|done|apply only_writes_refl|done]. }
  fold o. set (σ1 := <[o := a]> σ).
  assert (only_writes {[o]} σ σ1) as H1
    by (apply only_writes_insert; set_solver).
  rewrite bindM_eq, bindM_eq.
  destruct (copy_cases v σ1) as [[e ->]|[av ->]].
  { exists o, o. split_and!; [done|done| |done].
    eapply only_writes_mono; [|exact H1]. set_solver. }
  set (x := fresh (dom σ1)). set (σ2 := <[x := av]> σ1).
  assert (σ1 !! x = None) as Hx1 by (apply not_elem_of_dom, is_fresh).
  assert (σ !! x = None) as Hx.
  { destruct (decide (x = o)) as [->|Hne]; [done|].
    unfold σ1 in Hx1. by rewrite lookup_insert_ne in Hx1. }
  assert (only_writes {[o; x]} σ σ2) as H2.
  { eapply only_writes_trans; apply only_writes_insert; set_solver. }
  exists o, x. split; [done|]. split; [done|].
  match goal with
  | |- context [?body σ2] =>
      assert (only_writes {[o; x]} σ2 (body σ2).2) as H3;
      [|destruct (body σ2) as [[[]|e] σ3]; cbn [fst snd] in *]
  end.
  - frame_with ltac:(first
      [ eapply only_writes_mono; [|apply imul_only_writes]; set_solver
      | eapply only_writes_mono; [|apply interp_vec_only_writes]; set_solver
      | eapply only_writes_mono; [|apply multiply_add_only_writes];
        set_solver ]).
  - split; [by eapply only_writes_trans|]. by intros r [= <-].
  - split; [by eapply only_writes_trans|done].
Qed.

(** C10.  With [displacement=True] and no output buffer, [composeHV]
    leaves the arrays [h] and [v] as they were, whether it returns or
    raises; the array it returns is one that did not exist before the
    call, hence neither [h] nor [v]. *)
Theorem composeHV_displacement_frame h v dt σ :
  is_Some (σ !! h) → is_Some (σ !! v) →
  (composeHV dtype2precision kernel h v dt true None σ).2 !! h = σ !! h
  ∧ (composeHV dtype2precision kernel h v dt true None σ).2 !! v = σ !! v
  ∧ ∀ out,
      (composeHV dtype2precision kernel h v dt true None σ).1 = OK out →
      σ !! out = None ∧ out ≠ h ∧ out ≠ v.
Proof.
  intros [ah Hh] [av Hv].
  destruct (composeHV_displacement_heap h v dt σ)
    as (o & x & Ho & Hx & Hframe & Hres).
  assert (∀ l, is_Some (σ !! l) → l ∉ ({[o; x]} : gset loc)) as Hout.
  { intros l [al Hl]. rewrite elem_of_union, !elem_of_singleton.
    intros [-> | ->]; congruence. }
  split_and!; [apply Hframe, Hout; eauto..|].
  intros out ->%Hres. split_and!; [done|congruence|congruence].
Qed.

(** *** Running a computation step by step *)

Lemma bindM_assoc {A B C} (m : M A) (f : A → M B) (g : B → M C) σ :
  ((m ≫= f) ≫= g) σ = (m ≫= λ a, f a ≫= g) σ.
Proof. unfold mbind, M_bind. by destruct (m σ) as [[a|e] σ']. Qed.

Lemma bind_deref {B} l a (f : gpuarray → M B) σ :
  σ !! l = Some a → (deref l ≫= f) σ = f a σ.
Proof. intros H. unfold mbind, M_bind, deref. by rewrite H. Qed.

Lemma bind_lift_OK {A B} (a : A) (f : A → M B) σ :
  (lift (OK a) ≫= f) σ = f a σ.
Proof. reflexivity. Qed.

Lemma bind_ret {A B} (a : A) (f : A → M B) σ : (mret a ≫= f) σ = f a σ.
Proof. reflexivity. Qed.

Lemma bind_assert {B} (b : bool) (f : unit → M B) σ :
  b = true → (assert_ b ≫= f) σ = f () σ.
Proof. by intros ->. Qed.

Lemma bind_index {B} sh i n (f : Z → M B) σ :
  sh !! i = Some n → (index sh i ≫= f) σ = f n σ.
Proof. intros H. unfold index. by rewrite H. Qed.

Lemma bind_alloc {B} a (f : loc → M B) σ :
  (alloc a ≫= f) σ = f (fresh (dom σ)) (<[fresh (dom σ) := a]> σ).
Proof. reflexivity. Qed.

Lemma bind_store {B} l a (f : unit → M B) σ :
  (store l a ≫= f) σ = f () (<[l := a]> σ).
Proof. reflexivity. Qed.

Lemma bind_raise {A B} e (f : A → M B) σ : (raise e ≫= f) σ = (Err e, σ).
Proof. reflexivity. Qed.

(** C3 (fails on the code).  With [displacement=False] [composeHV] never
    returns a field: once the output buffer is there, the first statement
    of the branch reads the local variable [xv], which only the other
    branch assigns, and the call raises [UnboundLocalError] before
    anything is sampled. *)
Theorem composeHV_position_raises h v dt σ :
  (∀ out, composeHV dtype2precision kernel h v dt false (Some out) σ
          = (Err UnboundLocalError, σ))
  ∧ (is_Some (σ !! h) →
     ∃ σ', composeHV dtype2precision kernel h v dt false None σ
           = (Err UnboundLocalError, σ')).
Proof.
  split; [done|]. intros [ah Hh]. unfold composeHV, empty_like, empty.
  rewrite bindM_assoc, (bind_deref h ah) by done.
  rewrite bind_alloc. by eexists.
Qed.

Tactic Notation "step" open_constr(L) :=
  rewrite ?bindM_assoc; rewrite L by done.

(** The displacement branch on 2D fields of one element type: [h] is
    sampled by the displacement kernel at the offsets [dt*v], held in a
    copy of [v], and [dt*v] is added to the sampled values. *)
Lemma composeHV_displacement_OK h v dt σ ah av n w hgt n' w' hgt' prec :
  σ !! h = Some ah → σ !! v = Some av →
  shape ah = [n; 2; w; hgt]%Z → shape av = [n'; 2; w'; hgt']%Z →
  dtype av = dtype ah → dtype2precision (dtype ah) = OK prec →
  let o := fresh (dom σ) in
  let ao := GPUArray (shape ah) (dtype ah) true
              (replicate (numel (shape ah)) 0%Qc) in
  let axv := GPUArray (shape av) (dtype av) (c_contiguous av)
               (map (λ y, (y * dt)%Qc) (data av)) in
  let sampled := kernel interp_displacement_vectorfield_2d prec
                   (ceil32 w, ceil32 hgt, 1%Z) ao ah axv n' w' hgt' in
  ∃ σ',
    composeHV dtype2precision kernel h v dt true None σ = (OK o, σ')
    ∧ σ' !! o
      = Some (GPUArray (shape ah) (dtype ah) true
                (zip_with (λ s y, (s + dt * y)%Qc) sampled (data av))).
Proof.
  intros Hh Hv Hsh Hsv Hdt Hprec o ao axv sampled.
  assert (h ≠ o) as Hho by (apply fresh_not_allocated; eauto).
  assert (v ≠ o) as Hvo by (apply fresh_not_allocated; eauto).
  unfold composeHV, empty_like, empty.
  rewrite bindM_assoc, (bind_deref h ah), bind_alloc by done.
  fold o. fold ao. set (σ1 := <[o := ao]> σ).
  rewrite bindM_assoc. unfold copy.
  rewrite bindM_assoc, (bind_deref v av), bind_alloc
    by (unfold σ1; by rewrite lookup_insert_ne).
  set (x := fresh (dom σ1)).
  assert (o ≠ x) as Hox
    by (apply fresh_not_allocated; unfold σ1; rewrite lookup_insert_eq; eauto).
  assert (h ≠ x) as Hhx
    by (apply fresh_not_allocated; unfold σ1; rewrite lookup_insert_ne; eauto).
  assert (v ≠ x) as Hvx
    by (apply fresh_not_allocated; unfold σ1; rewrite lookup_insert_ne; eauto).
  set (σ2 := <[x := av]> σ1).
  rewrite bindM_assoc. unfold imul.
  rewrite bindM_assoc, (bind_deref x av), bind_store
    by apply lookup_insert_eq.
  fold axv. set (σ3 := <[x := axv]> σ2).
  assert (σ3 !! h = Some ah ∧ σ3 !! v = Some av ∧ σ3 !! o = Some ao
          ∧ σ3 !! x = Some axv) as (H3h & H3v & H3o & H3x).
  { unfold σ3, σ2, σ1. split_and!.
    - by rewrite !lookup_insert_ne by done.
    - by rewrite !lookup_insert_ne by done.
    - by rewrite !lookup_insert_ne, lookup_insert_eq by done.
    - by rewrite lookup_insert_eq. }
  rewrite bindM_assoc. unfold interp_vec.
  step (bind_deref h ah). step (bind_deref x axv).
  unfold ndim. cbn [shape axv]. rewrite Hsh, Hsv. cbn [length].
  step bind_assert. step (bind_index _ 1 2%Z). step bind_assert.
  step (bind_index _ 1 2%Z). step bind_assert.
  step bind_ret. step (bind_deref o ao).
  rewrite ?bindM_assoc, bind_assert
    by (apply bool_decide_eq_true_2; by rewrite <- Hsh).
  rewrite ?bindM_assoc. unfold interp_vectorfield_kernel.
  step (bind_deref h ah). step (bind_deref x axv). step (bind_deref o ao).
  unfold ndim. cbn [shape axv]. rewrite Hsh, Hsv. cbn [length].
  step bind_assert.
  rewrite ?bindM_assoc, bind_assert
    by (apply bool_decide_eq_true_2; split; [done|symmetry; exact Hdt]).
  step bind_assert.
  cbn [dtype ao]. rewrite Hprec. step bind_lift_OK.
  rewrite decide_True by done.
  step (bind_index _ 2 w). step (bind_index _ 3 hgt).
  unfold launch.
  step (bind_deref o ao). step (bind_deref h ah). step (bind_deref x axv).
  cbn [shape axv]. rewrite Hsv.
  step (bind_index _ 0 n'). step (bind_index _ 2 w').
  step (bind_index _ 3 hgt').
  step bind_store. step bind_ret. rewrite <- Hsh. fold ao. fold sampled.
  set (σ4 := <[o := _]> σ3).
  unfold multiply_add.
  rewrite ?bindM_assoc, (bind_deref v av)
    by (unfold σ4; by rewrite lookup_insert_ne by done).
  rewrite ?bindM_assoc. erewrite bind_deref by (unfold σ4; apply lookup_insert_eq).
  step bind_store.
  eexists. split; [reflexivity|]. by rewrite lookup_insert_eq.
Qed.

(** One image broadcast over many deformations: the supported
    direction.  For a 2D image batch of size 1 and [nh ≠ 1] deformations
    of the same element type [interp_image] returns a new array filled by
    the broadcasting kernel. *)
Lemma interp_image_broadcast_image I h d σ aI ah w hgt nh w' hgt' prec :
  σ !! I = Some aI → σ !! h = Some ah →
  shape aI = [1; w; hgt]%Z → shape ah = [nh; 2; w'; hgt']%Z → nh ≠ 1%Z →
  dtype ah = dtype aI → dtype2precision (dtype aI) = OK prec →
  let o := fresh (dom σ) in
  let ao := GPUArray [nh; w'; hgt']%Z (dtype aI) true
              (replicate (numel [nh; w'; hgt']%Z) 0%Qc) in
  interp_image dtype2precision kernel I h d None σ
  = (OK o,
     <[o := GPUArray [nh; w'; hgt']%Z (dtype aI) true
              (kernel interp_image_bcastI_2d prec
                 (ceil32 w, ceil32 hgt, 1%Z) ao aI ah nh w' hgt')]>
       (<[o := ao]> σ)).
Proof.
  intros HI Hh HsI Hsh Hnh Hdt Hprec o ao.
  assert (I ≠ o) as HIo by (apply fresh_not_allocated; eauto).
  assert (h ≠ o) as Hho by (apply fresh_not_allocated; eauto).
  unfold interp_image.
  rewrite (bind_deref I aI), (bind_deref h ah) by done.
  unfold ndim. rewrite HsI, Hsh. cbn [length].
  rewrite bind_assert by done.
  rewrite (bind_index _ 1 2%Z), bind_assert by done.
  cbn [defshape2imshape drop]. rewrite bindM_assoc, bind_lift_OK.
  unfold empty. rewrite bind_alloc. fold o. fold ao.
  rewrite (bind_deref o ao) by apply lookup_insert_eq.
  rewrite bind_lift_OK, bind_assert by (by apply bool_decide_eq_true_2).
  rewrite (bind_index _ 0 1%Z), (bind_index _ 0 nh) by done.
  rewrite decide_True by done.
  rewrite bindM_eq. unfold interp_image_kernel_bcastI.
  rewrite (bind_deref I aI), (bind_deref h ah), (bind_deref o ao)
    by (by rewrite ?lookup_insert_eq, ?lookup_insert_ne).
  unfold ndim. rewrite HsI, Hsh. cbn [length].
  rewrite (bind_index _ 0 1%Z), bind_assert by done.
  rewrite bind_assert by done.
  rewrite bind_assert by (apply bool_decide_eq_true_2; by rewrite Hdt).
  cbn [dtype ao]. rewrite Hprec, bind_lift_OK.
  rewrite decide_True by done.
  rewrite (bind_index _ 1 w), (bind_index _ 2 hgt) by done.
  unfold launch.
  rewrite (bind_deref o ao), (bind_deref I aI), (bind_deref h ah)
    by (by rewrite ?lookup_insert_eq, ?lookup_insert_ne).
  rewrite Hsh.
  rewrite (bind_index _ 0 nh), (bind_index _ 2 w'), (bind_index _ 3 hgt')
    by done.
  reflexivity.
Qed.

(** C4 (fails on the code).  Many images against one deformation: the
    branch calls [interp_image_kernel_bcasth], a name that the module
    does not define, so the call raises [NameError] although the batch
    sizes are compatible. *)
Theorem interp_image_broadcast_deformation I h d σ aI ah nI sp sp' :
  σ !! I = Some aI → σ !! h = Some ah →
  shape aI = nI :: sp → shape ah = 1%Z :: Z.of_nat (length sp) :: sp' →
  length sp' = length sp → nI ≠ 1%Z →
  ∃ σ', interp_image dtype2precision kernel I h d None σ
        = (Err NameError, σ').
Proof.
  intros HI Hh HsI Hsh Hlen HnI.
  unfold interp_image.
  rewrite (bind_deref I aI), (bind_deref h ah) by done.
  unfold ndim. rewrite HsI, Hsh. cbn [length].
  rewrite bind_assert by (apply bool_decide_eq_true_2; lia).
  rewrite (bind_index _ 1 (Z.of_nat (length sp))) by done.
  rewrite bind_assert by (apply bool_decide_eq_true_2; lia).
  cbn [defshape2imshape drop]. rewrite bindM_assoc, bind_lift_OK.
  unfold empty. rewrite bind_alloc.
  erewrite bind_deref by apply lookup_insert_eq.
  rewrite bind_lift_OK, bind_assert by (by apply bool_decide_eq_true_2).
  rewrite (bind_index _ 0 nI), (bind_index _ 0 1%Z) by done.
  rewrite decide_False by (by intros [_ ?]).
  rewrite decide_True by done.
  rewrite bindM_eq. by eexists.
Qed.
End DeformFacts.

Section DeformExamples.
Import Deform.

Lemma composeHV_position_raises_witness :
  ∃ σ', composeHV ex_dtype2precision ex_kernel 1%positive 2%positive
          (qc 1 1) false None ex_heap
        = (Err UnboundLocalError, σ').
Proof.
  apply (proj2 (composeHV_position_raises bool ex_dtype2precision ex_kernel
                  1%positive 2%positive (qc 1 1) ex_heap)).
  exists ex_h. reflexivity.
Defined.

Lemma interp_image_broadcast_deformation_witness :
  ∃ σ', interp_image ex_dtype2precision ex_kernel 1%positive 2%positive
          true None ex_image_heap
        = (Err NameError, σ').
Proof.
  apply (interp_image_broadcast_deformation bool ex_dtype2precision ex_kernel
           1%positive 2%positive true ex_image_heap ex_images ex_deformation
           3%Z [4; 4]%Z [4; 4]%Z).
  - reflexivity.
  - reflexivity.
  - reflexivity.
  - reflexivity.
  - reflexivity.
  - lia.
Defined.

Lemma composeHV_displacement_frame_witness :
  (composeHV ex_dtype2precision ex_kernel 1%positive 2%positive (qc 1 2)
     true None ex_heap).2 !! 1%positive = ex_heap !! 1%positive
  ∧ (composeHV ex_dtype2precision ex_kernel 1%positive 2%positive (qc 1 2)
       true None ex_heap).2 !! 2%positive = ex_heap !! 2%positive
  ∧ ∀ out,
      (composeHV ex_dtype2precision ex_kernel 1%positive 2%positive (qc 1 2)
         true None ex_heap).1 = OK out →
      ex_heap !! out = None ∧ out ≠ 1%positive ∧ out ≠ 2%positive.
Proof.
  apply (composeHV_displacement_frame bool ex_dtype2precision ex_kernel
           1%positive 2%positive (qc 1 2) ex_heap).
  - exists ex_h. reflexivity.
  - exists ex_v. reflexivity.
Defined.

(** On the example state the displacement branch does return: the output
    is a new array holding the sampled values plus [dt*v]. *)
Example composeHV_displacement_runs :
  ∃ σ',
    composeHV ex_dtype2precision ex_kernel 1%positive 2%positive (qc 1 2)
      true None ex_heap = (OK (fresh (dom ex_heap)), σ')
    ∧ σ' !! fresh (dom ex_heap)
      = Some (GPUArray [1; 2; 2; 2]%Z Streaming.float32 true
                (zip_with (λ s y, (s + qc 1 2 * y)%Qc) (data ex_h) (data ex_v))).
Proof.
  exact (composeHV_displacement_OK bool ex_dtype2precision ex_kernel
           1%positive 2%positive (qc 1 2) ex_heap ex_h ex_v
           1%Z 2%Z 2%Z 1%Z 2%Z 2%Z false
           eq_refl eq_refl eq_refl eq_refl eq_refl eq_refl).
Qed.
End DeformExamples.

(* ===================================================================== *)
(** * Further properties of the code *)
(* ===================================================================== *)

(** ** Matrix algebra: shapes, errors and the 2x2 inverse *)

Section MatrixAlgebraMore.
Implicit Types (A : tensor3 Qc) (M : list (list Qc)).

Lemma sel_Err {K} (A : tensor3 K) i j e : sel A i j = Err e → e = IndexError.
Proof.
  unfold sel. destruct (decide _); [|by intros [= <-]].
  destruct (mapM _ _); [done|by intros [= <-]].
Qed.

Lemma sel_out_of_range {K} (A : tensor3 K) i j :
  dim1 A ≤ i ∨ dim2 A ≤ j → sel A i j = Err IndexError.
Proof. intros H. unfold sel. by rewrite decide_False by lia. Qed.



(** A batch whose matrices have fewer than two rows or fewer than two
    columns makes [det_2x2], and with it [invert_2x2], raise
    [IndexError]. *)
Theorem det_2x2_too_small A :
  dim1 A < 2 ∨ dim2 A < 2 →
  det_2x2 A = Err IndexError ∧ invert_2x2 A = Err IndexError.
Proof.
  intros H.
  assert (det_2x2 A = Err IndexError) as Hdet.
  { unfold det_2x2. destruct (sel A 0 0) as [a00|e] eqn:H00.
    - rewrite bind_OK. by rewrite (sel_out_of_range A 1 1) by lia.
    - by rewrite (sel_Err _ _ _ _ H00). }
  split; [done|]. unfold invert_2x2. by rewrite Hdet.
Qed.

Lemma det_2x2_too_small_witness :
  det_2x2 (Tensor3 1 1 [[[qc 3 1]]]) = Err IndexError
  ∧ invert_2x2 (Tensor3 1 1 [[[qc 3 1]]]) = Err IndexError.
Proof. apply det_2x2_too_small. left. simpl. lia. Defined.

(** X6.  On a batch of invertible 2x2 matrices [invert_2x2] returns, item by
    item, the adjugate over the determinant, and that item is a
    two-sided inverse. *)
Theorem invert_2x2_inverse A :
  tensor3_wf A → dim1 A = 2 → dim2 A = 2 →
  Forall (invertible 2) (items A) →
  ∃ Ainv, invert_2x2 A = OK Ainv
          ∧ dim1 Ainv = 2 ∧ dim2 Ainv = 2
          ∧ Forall2 (λ M Mi, mat_mul 2 M Mi = identity 2
                             ∧ mat_mul 2 Mi M = identity 2)
                    (items A) (items Ainv).
Proof.
  intros Hwf H1 H2 Hinv. eexists. split; [by apply invert_2x2_wf|].
  cbn [dim1 dim2 items]. split_and!; [done..|].
  apply Forall2_fmap_r, Forall_Forall2_diag.
  unfold tensor3_wf in Hwf. rewrite H1, H2 in Hwf.
  rewrite Forall_forall in Hwf, Hinv |- *. intros M HM.
  apply inverse2_spec_inverse; [by apply Hwf|].
  apply invertible_det2; [by apply Hwf|by apply Hinv].
Qed.

Lemma invert_2x2_inverse_witness :
  ∃ Ainv, invert_2x2 AffineExamples.batch2 = OK Ainv
          ∧ dim1 Ainv = 2 ∧ dim2 Ainv = 2
          ∧ Forall2 (λ M Mi, mat_mul 2 M Mi = identity 2
                             ∧ mat_mul 2 Mi M = identity 2)
                    (items AffineExamples.batch2) (items Ainv).
Proof.
  apply (invert_2x2_inverse AffineExamples.batch2).
  - repeat constructor.
  - reflexivity.
  - reflexivity.
  - repeat constructor. exists AffineExamples.full2_inv.
    split; [repeat constructor|split; by_eval].
Defined.

(** X7.  [minor(A,i,j)] on a batch of n-by-n matrices with [i, j < n] returns
    the batch of (n-1)-by-(n-1) matrices obtained by deleting row [i] and
    column [j] of every item. *)
Theorem minor_deletes_row_and_column A n i j :
  tensor3_wf A → dim1 A = n → dim2 A = n → i < n → j < n →
  ∃ B, minor A i j = OK B
       ∧ dim1 B = n - 1 ∧ dim2 B = n - 1
       ∧ items B = map (λ M, map (delete j) (delete i M)) (items A)
       ∧ tensor3_wf B.
Proof.
  intros Hwf H1 H2 Hi Hj. eexists. split; [by apply minor_wf|].
  cbn [dim1 dim2 items]. split_and!; [done..|].
  unfold tensor3_wf in *. cbn [dim1 dim2 items].
  rewrite H1, H2 in Hwf.
  apply Forall_forall. intros B (M & -> & HM)%list_elem_of_fmap.
  rewrite Forall_forall in Hwf. destruct (Hwf M HM) as [Hr Hc].
  unfold minor_spec. split.
  - rewrite length_map, length_delete by (apply lookup_lt_is_Some_2; lia). lia.
  - apply Forall_forall. intros row (row' & -> & Hrow)%list_elem_of_fmap.
    apply list_elem_of_delete_inv in Hrow.
    rewrite Forall_forall in Hc.
    rewrite length_delete by (apply lookup_lt_is_Some_2; rewrite (Hc _ Hrow); lia).
    rewrite (Hc _ Hrow). lia.
Qed.

Lemma minor_deletes_row_and_column_witness :
  ∃ B, minor AffineExamples.batch3 1 2 = OK B
       ∧ dim1 B = 3 - 1 ∧ dim2 B = 3 - 1
       ∧ items B = map (λ M, map (delete 2) (delete 1 M))
                       (items AffineExamples.batch3)
       ∧ tensor3_wf B.
Proof.
  apply (minor_deletes_row_and_column AffineExamples.batch3 3 1 2).
  - repeat constructor.
  - reflexivity.
  - reflexivity.
  - lia.
  - lia.
Defined.

(** [minor] raises [AssertionError] on matrices that are not square, and
    the slicing error of [narrow] when the row or the column to delete
    does not exist. *)
Theorem minor_errors A i j :
  (dim1 A ≠ dim2 A → minor A i j = Err AssertionError)
  ∧ (dim1 A = dim2 A → dim1 A ≤ i ∨ dim1 A ≤ j →
     minor A i j = Err RuntimeError).
Proof.
  split.
  - intros H. unfold minor. by rewrite bool_decide_eq_false_2.
  - intros Hsq H. unfold minor.
    rewrite bool_decide_eq_true_2 by done. cbn [py_assert]. rewrite bind_OK.
    unfold narrow1. cbn [dim1 dim2 items].
    destruct (decide (0 + i ≤ dim1 A)) as [Hi|]; [|done]. rewrite bind_OK.
    destruct (decide (i + 1 + (dim1 A - i - 1) ≤ dim1 A)) as [Hi'|]; [|done].
    rewrite bind_OK. unfold cat1. cbn [dim1 dim2 items].
    rewrite decide_True by (by rewrite !length_map). rewrite bind_OK.
    unfold narrow2. cbn [dim1 dim2 items].
    destruct (decide (0 + j ≤ dim2 A)) as [Hj|]; [|done]. rewrite bind_OK.
    destruct (decide (j + 1 + (dim1 A - j - 1) ≤ dim2 A)) as [Hj'|]; [|done].
    lia.
Qed.

Lemma minor_errors_witness :
  minor (Tensor3 2 3 [[[qc 1 1; qc 2 1; qc 3 1]; [qc 4 1; qc 5 1; qc 6 1]]]) 0 0
  = Err AssertionError
  ∧ minor AffineExamples.batch3 3 0 = Err RuntimeError.
Proof.
  split.
  - apply (proj1 (minor_errors _ 0 0)). simpl. lia.
  - apply (proj2 (minor_errors AffineExamples.batch3 3 0)); [reflexivity|].
    left. simpl. lia.
Defined.
End MatrixAlgebraMore.

(** ** Affine inversion: refused shapes, and the inverse as a map *)

Section AffineInverseMore.
Import AffineMap.
Implicit Types (A : tensor3 Qc) (T : tensor2 Qc) (M : list (list Qc)).

(** X8.  [affine_inverse] refuses, with [AssertionError], a batch of
    non-square matrices, translations whose length is not the matrix
    dimension, and every dimension other than 2 and 3. *)
Theorem affine_inverse_refuses A T :
  dim1 A ≠ dim2 A ∨ dim1 A ≠ tdim T ∨ (dim1 A ≠ 2 ∧ dim1 A ≠ 3) →
  affine_inverse A T = Err AssertionError.
Proof.
  intros H. unfold affine_inverse.
  destruct (decide (dim1 A = dim2 A)) as [H1|H1];
    [rewrite (bool_decide_eq_true_2 _ H1)|by rewrite (bool_decide_eq_false_2 _ H1)].
  cbn [py_assert]. rewrite bind_OK.
  destruct (decide (dim1 A = tdim T)) as [H2|H2];
    [rewrite (bool_decide_eq_true_2 _ H2)|by rewrite (bool_decide_eq_false_2 _ H2)].
  cbn [py_assert]. rewrite bind_OK.
  rewrite bool_decide_eq_false_2; [done|]. intros [?|?]; destruct H as [?|[?|[? ?]]]; lia.
Qed.

Lemma affine_inverse_refuses_witness :
  affine_inverse (Tensor3 1 1 [[[qc 2 1]]]) (Tensor2 1 [[qc 1 1]])
  = Err AssertionError.
Proof. apply affine_inverse_refuses. right. right. simpl. lia. Defined.

Ltac expose :=
  unfold affine_apply, inverse3_spec, inverse2_spec, mdiv, matvec, dot,
    Affine.vadd, det3_spec, cofactor_matrix_spec, cofactor_spec, sign,
    det2_spec, minor_spec, get;
  simpl.

Ltac entrywise tac := repeat first [progress f_equal | tac].

Ltac nonzero H :=
  repeat split;
  first [ exact H
        | let Hz := fresh in
          intros Hz; apply H; etransitivity; [|exact Hz];
          change (Qcmake (-1) (Qred_involutive (-1))) with (Qcopp (Q2Qc 1));
          ring ].

Lemma affine_apply_inverse2 M t x :
  matrix_shape 2 2 M → length t = 2 → length x = 2 → det2_spec M ≠ 0%Qc →
  let Mi := inverse2_spec M in
  let ti := map Qcopp (matvec Mi t) in
  affine_apply Mi ti (affine_apply M t x) = x
  ∧ affine_apply M t (affine_apply Mi ti x) = x.
Proof.
  intros (a & b & c & d & ->)%matrix_shape_2x2 Ht Hx.
  destruct t as [|t0 [|t1 [|]]]; try discriminate.
  destruct x as [|x0 [|x1 [|]]]; try discriminate.
  expose. intros Hdet.
  split; entrywise ltac:(field; nonzero Hdet).
Qed.

Lemma affine_apply_inverse3 M t x :
  matrix_shape 3 3 M → length t = 3 → length x = 3 → det3_spec M ≠ 0%Qc →
  let Mi := inverse3_spec M in
  let ti := map Qcopp (matvec Mi t) in
  affine_apply Mi ti (affine_apply M t x) = x
  ∧ affine_apply M t (affine_apply Mi ti x) = x.
Proof.
  intros (a & b & c & d & e & f & g & h & k & ->)%matrix_shape_3x3 Ht Hx.
  destruct t as [|t0 [|t1 [|t2 [|]]]]; try discriminate.
  destruct x as [|x0 [|x1 [|x2 [|]]]]; try discriminate.
  expose. intros Hdet.
  split; entrywise ltac:(field; nonzero Hdet).
Qed.

(** X9.  The pair returned by [affine_inverse] is the inverse map: for every
    sample of the batch and every point [x], applying (A, T) and then the
    returned pair, or the other way round, gives [x] back. *)
Theorem affine_inverse_is_inverse_map A T d :
  tensor3_wf A → tensor2_wf T →
  dim1 A = d → dim2 A = d → tdim T = d → d = 2 ∨ d = 3 →
  length (items A) = length (titems T) →
  Forall (invertible d) (items A) →
  ∃ Ainv Tinv,
    affine_inverse A T = OK (Ainv, Tinv)
    ∧ ∀ i M t Mi ti x,
        items A !! i = Some M → titems T !! i = Some t →
        items Ainv !! i = Some Mi → titems Tinv !! i = Some ti →
        length x = d →
        affine_apply Mi ti (affine_apply M t x) = x
        ∧ affine_apply M t (affine_apply Mi ti x) = x.
Proof.
  destruct A as [d1 d2 l], T as [dt ts].
  unfold tensor3_wf, tensor2_wf. cbn [dim1 dim2 tdim items titems].
  intros Hwf HT -> -> -> [->| ->] Hlen Hinv.
  - eexists _, _. split; [by apply affine_inverse_2|].
    cbn [items titems]. intros i M t Mi ti x HM Ht HMi Hti Hx.
    rewrite list_lookup_fmap, HM in HMi. injection HMi as <-.
    rewrite list_lookup_fmap, lookup_zip_with, list_lookup_fmap, HM in Hti.
    cbn in Hti. rewrite Ht in Hti. cbn in Hti. injection Hti as <-.
    rewrite Forall_forall in Hwf, Hinv. rewrite Forall_forall in HT.
    assert (M ∈ l) as HMl by (by eapply list_elem_of_lookup_2).
    assert (t ∈ ts) as Htl by (by eapply list_elem_of_lookup_2).
    apply affine_apply_inverse2; auto.
    apply invertible_det2; auto.
  - assert (map invert_3x3_item l = map inverse3_spec l) as Hitems.
    { apply map_ext_in. intros M HM%list_elem_of_In.
      apply invert_3x3_item_spec. rewrite Forall_forall in Hwf. by apply Hwf. }
    eexists _, _. split; [by apply affine_inverse_3|].
    cbn [items titems]. rewrite Hitems.
    intros i M t Mi ti x HM Ht HMi Hti Hx.
    rewrite Forall_forall in Hwf, Hinv. rewrite Forall_forall in HT.
    assert (M ∈ l) as HMl by (by eapply list_elem_of_lookup_2).
    assert (t ∈ ts) as Htl by (by eapply list_elem_of_lookup_2).
    rewrite list_lookup_fmap, HM in HMi.
    rewrite list_lookup_fmap, lookup_zip_with, list_lookup_fmap, HM in Hti.
    cbn [fmap option_fmap option_map mbind option_bind] in HMi, Hti.
    rewrite Ht in Hti.
    cbn [fmap option_fmap option_map mbind option_bind] in Hti.
    assert (Mi = inverse3_spec M) as -> by congruence.
    assert (ti = map Qcopp (matvec (inverse3_spec M) t)) as -> by congruence.
    apply affine_apply_inverse3; auto.
    apply invertible_det3; auto.
Qed.

Lemma affine_inverse_is_inverse_map_witness :
  ∃ Ainv Tinv,
    affine_inverse AffineExamples.batch2 AffineExamples.trans2
    = OK (Ainv, Tinv)
    ∧ ∀ i M t Mi ti x,
        items AffineExamples.batch2 !! i = Some M →
        titems AffineExamples.trans2 !! i = Some t →
        items Ainv !! i = Some Mi → titems Tinv !! i = Some ti →
        length x = 2 →
        affine_apply Mi ti (affine_apply M t x) = x
        ∧ affine_apply M t (affine_apply Mi ti x) = x.
Proof.
  apply (affine_inverse_is_inverse_map
           AffineExamples.batch2 AffineExamples.trans2 2).
  - repeat constructor.
  - repeat constructor.
  - reflexivity.
  - reflexivity.
  - reflexivity.
  - left. reflexivity.
  - reflexivity.
  - repeat constructor. exists AffineExamples.full2_inv.
    split; [repeat constructor|split; by_eval].
Defined.
End AffineInverseMore.

(** ** Rotations and rigid transforms *)

Section RigidFacts.
Import Rotation Rigid.

Lemma pair_eq {A} (a b c d : A) : a = c → b = d → [a; b] = [c; d].
Proof. by intros -> ->. Qed.

Lemma sin2_cos2' (a : R) : (cos a * cos a + sin a * sin a = 1)%R.
Proof. pose proof (sin2_cos2 a) as H. unfold Rsqr in H. lra. Qed.

(** X10.  The matrices of [rotation_exp_map] are proper rotations: every one
    has determinant 1, and the matrix of the opposite angle is the
    transpose. *)
Theorem rotation_exp_map_proper (v : list R) :
  ∃ Rs Rn,
    rotation_exp_map (Rank1 v) = OK Rs
    ∧ rotation_exp_map (Rank1 (map Ropp v)) = OK Rn
    ∧ Forall (λ Rm, rdet2 Rm = 1%R) (items Rs)
    ∧ items Rn = map (mtranspose 2) (items Rs).
Proof.
  eexists _, _. rewrite !rotation_exp_map_rot2.
  split_and!; [done|done| |]; cbn [items].
  - apply Forall_forall. intros Rm (a & -> & _)%list_elem_of_fmap.
    unfold rot2, rdet2. pose proof (sin2_cos2' a). lra.
  - rewrite !map_map. apply map_ext. intros a.
    unfold rot2. simpl. by rewrite cos_neg, sin_neg, Ropp_involutive.
Qed.

(** X11.  Angles add up: the matrix of [v + w] is the product of the matrices
    of [v] and of [w], sample by sample. *)
Theorem rotation_exp_map_add (v w : list R) :
  ∃ Rv Rw Rvw,
    rotation_exp_map (Rank1 v) = OK Rv
    ∧ rotation_exp_map (Rank1 w) = OK Rw
    ∧ rotation_exp_map (Rank1 (zip_with Rplus v w)) = OK Rvw
    ∧ items Rvw = zip_with (rmat_mul 2) (items Rv) (items Rw).
Proof.
  eexists _, _, _. rewrite !rotation_exp_map_rot2.
  split_and!; [done..|]. cbn [items].
  revert w. induction v as [|a v IH]; intros [|b w]; try done.
  simpl. f_equal; [|apply IH].
  unfold rot2, rmat_mul, rdot. simpl. rewrite cos_plus, sin_plus.
  repeat f_equal; lra.
Qed.

(** X12.  Axis-angle input for 3D rotations is refused: on an N-by-3 tensor
    [rotation_exp_map] raises [NotImplementedError], and so does
    [rigid_inverse]; any other shape that is not a vector of angles gets
    a plain exception. *)
Theorem rigid_inverse_3d_refused (T3 : tensor2 R) (T : tensor2 R) :
  (tdim T3 = 3 →
   rotation_exp_map (Rank2 T3) = Err NotImplementedError
   ∧ rigid_inverse (Rank2 T3) T = Err NotImplementedError)
  ∧ (tdim T3 ≠ 3 →
     rotation_exp_map (Rank2 T3) = Err Exception_
     ∧ rigid_inverse (Rank2 T3) T = Err Exception_).
Proof.
  unfold rigid_inverse, rotation_exp_map, vopp. cbn [tdim].
  split; intros H.
  - by rewrite decide_True.
  - by rewrite decide_False.
Qed.

Lemma rigid_inverse_3d_refused_witness :
  rotation_exp_map (Rank2 (Tensor2 3 [[1; 0; 0]%R])) = Err NotImplementedError
  ∧ rigid_inverse (Rank2 (Tensor2 3 [[1; 0; 0]%R])) (Tensor2 3 [[0; 0; 0]%R])
    = Err NotImplementedError.
Proof.
  apply (proj1 (rigid_inverse_3d_refused (Tensor2 3 [[1; 0; 0]%R])
                  (Tensor2 3 [[0; 0; 0]%R]))).
  reflexivity.
Defined.

(** [rigid_inverse] on angles with one 2D translation each. *)
Lemma rigid_inverse_2d (v : list R) (ts : list (list R)) :
  length v = length ts →
  rigid_inverse (Rank1 v) (Tensor2 2 ts)
  = OK (Rank1 (map Ropp v),
        Tensor2 2 (map (map Ropp)
                     (zip_with rmatvec (map rot2 (map Ropp v)) ts))).
Proof.
  intros Hlen. unfold rigid_inverse, vopp.
  rewrite rotation_exp_map_rot2, bind_OK.
  unfold rbmatvec. cbn [dim1 dim2 tdim items titems].
  rewrite decide_True by done.
  by rewrite decide_True by (by rewrite !length_map).
Qed.

Lemma rigid_apply_inverse (a : R) (t x : list R) :
  length t = 2 → length x = 2 →
  let ti := map Ropp (rmatvec (rot2 (- a)) t) in
  rigid_apply (rot2 (- a)) ti (rigid_apply (rot2 a) t x) = x
  ∧ rigid_apply (rot2 a) t (rigid_apply (rot2 (- a)) ti x) = x.
Proof.
  intros Ht Hx.
  destruct t as [|t0 [|t1 [|]]]; try discriminate.
  destruct x as [|x0 [|x1 [|]]]; try discriminate.
  unfold rigid_apply, rmatvec, rdot, rot2. simpl.
  rewrite cos_neg, sin_neg. pose proof (sin2_cos2' a) as H.
  set (c := cos a) in *. set (s := sin a) in *.
  split; apply pair_eq.
  - transitivity ((c * c + s * s) * x0)%R; [|rewrite H]; ring.
  - transitivity ((c * c + s * s) * x1)%R; [|rewrite H]; ring.
  - transitivity ((c * c + s * s) * x0 + (1 - (c * c + s * s)) * t0)%R;
      [|rewrite H]; ring.
  - transitivity ((c * c + s * s) * x1 + (1 - (c * c + s * s)) * t1)%R;
      [|rewrite H]; ring.
Qed.

(** X13.  The pair returned by [rigid_inverse] is the inverse rigid map: for
    every sample and every point [x], applying (R(v), T) and then
    (R(-v), Tinv), or the other way round, gives [x] back. *)
Theorem rigid_inverse_is_inverse_map (v : list R) (T : tensor2 R) :
  tensor2_wf T → tdim T = 2 → length v = length (titems T) →
  ∃ Tinv,
    rigid_inverse (Rank1 v) T = OK (Rank1 (map Ropp v), Tinv)
    ∧ ∀ i a t ti x,
        v !! i = Some a → titems T !! i = Some t →
        titems Tinv !! i = Some ti → length x = 2 →
        rigid_apply (rot2 (- a)) ti (rigid_apply (rot2 a) t x) = x
        ∧ rigid_apply (rot2 a) t (rigid_apply (rot2 (- a)) ti x) = x.
Proof.
  destruct T as [dt ts]. unfold tensor2_wf. cbn [tdim titems].
  intros HT -> Hlen. eexists. split; [by apply rigid_inverse_2d|].
  cbn [titems]. intros i a t ti x Ha Ht Hti Hx.
  rewrite list_lookup_fmap, lookup_zip_with, !list_lookup_fmap, Ha in Hti.
  cbn [fmap option_fmap option_map mbind option_bind] in Hti.
  rewrite Ht in Hti.
  cbn [fmap option_fmap option_map mbind option_bind] in Hti.
  assert (ti = map Ropp (rmatvec (rot2 (- a)) t)) as -> by congruence.
  apply rigid_apply_inverse; [|done].
  rewrite Forall_forall in HT. apply HT. by eapply list_elem_of_lookup_2.
Qed.

Lemma rigid_inverse_is_inverse_map_witness :
  ∃ Tinv,
    rigid_inverse (Rank1 [PI; 0%R]) (Tensor2 2 [[1; 2]%R; [0; 1]%R])
    = OK (Rank1 (map Ropp [PI; 0%R]), Tinv)
    ∧ ∀ i a t ti x,
        [PI; 0%R] !! i = Some a →
        titems (Tensor2 2 [[1; 2]%R; [0; 1]%R]) !! i = Some t →
        titems Tinv !! i = Some ti → length x = 2 →
        rigid_apply (rot2 (- a)) ti (rigid_apply (rot2 a) t x) = x
        ∧ rigid_apply (rot2 a) t (rigid_apply (rot2 (- a)) ti x) = x.
Proof.
  apply (rigid_inverse_is_inverse_map [PI; 0%R]
           (Tensor2 2 [[1; 2]%R; [0; 1]%R])).
  - repeat constructor.
  - reflexivity.
  - reflexivity.
Defined.

Lemma rmatvec_rot2_cancel (a : R) (t : list R) :
  length t = 2 →
  map Ropp (rmatvec (rot2 (- - a)) (map Ropp (rmatvec (rot2 (- a)) t))) = t.
Proof.
  intros Ht. destruct t as [|t0 [|t1 [|]]]; try discriminate.
  unfold rmatvec, rdot, rot2. simpl.
  rewrite Ropp_involutive, cos_neg, sin_neg. pose proof (sin2_cos2' a) as H.
  set (c := cos a) in *. set (s := sin a) in *.
  apply pair_eq.
  - transitivity ((c * c + s * s) * t0)%R; [|rewrite H]; ring.
  - transitivity ((c * c + s * s) * t1)%R; [|rewrite H]; ring.
Qed.

(** X14.  Inverting a rigid transform twice gives the transform back. *)
Theorem rigid_inverse_involutive (v : list R) (T : tensor2 R) :
  tensor2_wf T → tdim T = 2 → length v = length (titems T) →
  ∃ negv Tinv,
    rigid_inverse (Rank1 v) T = OK (negv, Tinv)
    ∧ rigid_inverse negv Tinv = OK (Rank1 v, T).
Proof.
  destruct T as [dt ts]. unfold tensor2_wf. cbn [tdim titems].
  intros HT -> Hlen. eexists _, _. split; [by apply rigid_inverse_2d|].
  rewrite rigid_inverse_2d
    by (rewrite !length_map, length_zip_with, !length_map; lia).
  do 2 f_equal.
  - f_equal. rewrite map_map. rewrite <- (map_id v) at 2. apply map_ext.
    intros a. apply Ropp_involutive.
  - f_equal. revert ts HT Hlen.
    induction v as [|a v IH]; intros [|t ts] HT Hlen; try done.
    apply Forall_cons in HT as [Ht HT]. cbn [map zip_with].
    rewrite rmatvec_rot2_cancel by done. f_equal.
    apply IH; [done|]. simpl in Hlen. by injection Hlen.
Qed.

Lemma rigid_inverse_involutive_witness :
  ∃ negv Tinv,
    rigid_inverse (Rank1 [PI; 0%R]) (Tensor2 2 [[1; 2]%R; [0; 1]%R])
    = OK (negv, Tinv)
    ∧ rigid_inverse negv Tinv
      = OK (Rank1 [PI; 0%R], Tensor2 2 [[1; 2]%R; [0; 1]%R]).
Proof.
  apply (rigid_inverse_involutive [PI; 0%R]
           (Tensor2 2 [[1; 2]%R; [0; 1]%R])).
  - repeat constructor.
  - reflexivity.
  - reflexivity.
Defined.
End RigidFacts.

(** ** Image and field interpolation: shapes, dispatch and refusals *)

Section ShapeFacts.
Import Deform.

(** X24.  An image-batch shape survives the trip through the deformation shape
    and back; a deformation shape survives the trip through the image
    shape exactly when its channel count is the number of spatial axes.
    Both conversions raise [IndexError] on the empty shape. *)
Theorem defshape_imshape_round_trip (n : Z) (sp : list Z) :
  (imshape2defshape (n :: sp) ≫= defshape2imshape) = OK (n :: sp)
  ∧ (∀ c, (defshape2imshape (n :: c :: sp) ≫= imshape2defshape)
          = OK (n :: c :: sp)
          ↔ c = Z.of_nat (length sp))
  ∧ imshape2defshape [] = Err IndexError
  ∧ defshape2imshape [] = Err IndexError.
Proof.
  split_and!; [| |done..].
  - cbn [imshape2defshape]. rewrite bind_OK. by cbn [defshape2imshape drop].
  - intros c. cbn [defshape2imshape]. rewrite bind_OK.
    change (drop 1 (c :: sp)) with sp. cbn [imshape2defshape length]. split.
    + intros [= <-]. lia.
    + intros ->. do 3 f_equal. lia.
Qed.
End ShapeFacts.

Section InterpFacts.
Import Deform.

Variable precision : Type.
Variable dtype2precision : Streaming.dtype → result precision.
Variable kernel :
  kernel_name → precision → Z * Z * Z →
  gpuarray → gpuarray → gpuarray → Z → Z → Z → list Qc.

Tactic Notation "run" open_constr(L) :=
  rewrite ?bindM_assoc; rewrite L by done.

(** X25.  Equal batch sizes: for 2D images and as many deformations of one
    element type, [interp_image] returns a new array of the deformations'
    grid, filled by the displacement kernel when [displacement] is set
    and by the plain kernel otherwise; the kernel receives the batch size
    and the grid extents of [h]. *)
Theorem interp_image_same_batch I h (d : bool) σ aI ah n w hgt w' hgt' prec :
  σ !! I = Some aI → σ !! h = Some ah →
  shape aI = [n; w; hgt]%Z → shape ah = [n; 2; w'; hgt']%Z →
  dtype ah = dtype aI → dtype2precision (dtype aI) = OK prec →
  let o := fresh (dom σ) in
  let ao := GPUArray [n; w'; hgt']%Z (dtype aI) true
              (replicate (numel [n; w'; hgt']%Z) 0%Qc) in
  let f := if d then interp_displacement_image_2d else interp_image_2d in
  interp_image dtype2precision kernel I h d None σ
  = (OK o,
     <[o := GPUArray [n; w'; hgt']%Z (dtype aI) true
              (kernel f prec (ceil32 w, ceil32 hgt, 1%Z) ao aI ah n w' hgt')]>
       (<[o := ao]> σ)).
Proof.
  intros HI Hh HsI Hsh Hdt Hprec o ao f.
  assert (I ≠ o) as HIo by (apply fresh_not_allocated; eauto).
  assert (h ≠ o) as Hho by (apply fresh_not_allocated; eauto).
  unfold interp_image.
  rewrite (bind_deref I aI), (bind_deref h ah) by done.
  unfold ndim. rewrite HsI, Hsh. cbn [length].
  rewrite bind_assert by done.
  rewrite (bind_index _ 1 2%Z), bind_assert by done.
  cbn [defshape2imshape drop]. rewrite bindM_assoc, bind_lift_OK.
  unfold empty. rewrite bind_alloc. fold o. fold ao.
  rewrite (bind_deref o ao) by apply lookup_insert_eq.
  rewrite bind_lift_OK, bind_assert by (by apply bool_decide_eq_true_2).
  rewrite (bind_index _ 0 n), (bind_index _ 0 n) by done.
  rewrite !decide_False by (intros [? ?]; lia).
  rewrite bindM_eq, bind_assert by (by apply bool_decide_eq_true_2).
  unfold interp_image_kernel.
  rewrite (bind_deref I aI), (bind_deref h ah), (bind_deref o ao)
    by (by rewrite ?lookup_insert_eq, ?lookup_insert_ne).
  unfold ndim. rewrite HsI, Hsh. cbn [length].
  rewrite bind_assert by done.
  rewrite bind_assert by (apply bool_decide_eq_true_2; by rewrite Hdt).
  cbn [dtype ao]. rewrite Hprec, bind_lift_OK.
  rewrite decide_True by done.
  rewrite (bind_index _ 1 w), (bind_index _ 2 hgt) by done.
  unfold launch.
  rewrite (bind_deref o ao), (bind_deref I aI), (bind_deref h ah)
    by (by rewrite ?lookup_insert_eq, ?lookup_insert_ne).
  rewrite Hsh.
  rewrite (bind_index _ 0 n), (bind_index _ 2 w'), (bind_index _ 3 hgt')
    by done.
  reflexivity.
Qed.

(** X26.  One image against many deformations: the [displacement] argument has
    no effect.  Both settings launch the one broadcasting kernel and
    leave the same new array. *)
Theorem interp_image_broadcast_ignores_displacement
    I h σ aI ah w hgt nh w' hgt' prec :
  σ !! I = Some aI → σ !! h = Some ah →
  shape aI = [1; w; hgt]%Z → shape ah = [nh; 2; w'; hgt']%Z → nh ≠ 1%Z →
  dtype ah = dtype aI → dtype2precision (dtype aI) = OK prec →
  let ao := GPUArray [nh; w'; hgt']%Z (dtype aI) true
              (replicate (numel [nh; w'; hgt']%Z) 0%Qc) in
  ∃ o σ',
    σ !! o = None
    ∧ interp_image dtype2precision kernel I h true None σ = (OK o, σ')
    ∧ interp_image dtype2precision kernel I h false None σ = (OK o, σ')
    ∧ σ' !! o
      = Some (GPUArray [nh; w'; hgt']%Z (dtype aI) true
                (kernel interp_image_bcastI_2d prec
                   (ceil32 w, ceil32 hgt, 1%Z) ao aI ah nh w' hgt')).
Proof.
  intros HI Hh HsI Hsh Hnh Hdt Hprec ao.
  eexists (fresh (dom σ)), _. split_and!.
  - apply not_elem_of_dom, is_fresh.
  - by eapply interp_image_broadcast_image.
  - by eapply interp_image_broadcast_image.
  - by rewrite lookup_insert_eq.
Qed.

(** X27.  Batch sizes that differ, neither being 1, are refused with
    [AssertionError]; the output array has been allocated by then. *)
Theorem interp_image_batch_mismatch I h d σ aI ah nI nh sp sp' :
  σ !! I = Some aI → σ !! h = Some ah →
  shape aI = nI :: sp → shape ah = nh :: Z.of_nat (length sp) :: sp' →
  length sp' = length sp → nI ≠ 1%Z → nh ≠ 1%Z → nI ≠ nh →
  ∃ ao, interp_image dtype2precision kernel I h d None σ
        = (Err AssertionError, <[fresh (dom σ) := ao]> σ)
        ∧ shape ao = nh :: sp'.
Proof.
  intros HI Hh HsI Hsh Hlen HnI Hnh Hne.
  unfold interp_image.
  rewrite (bind_deref I aI), (bind_deref h ah) by done.
  unfold ndim. rewrite HsI, Hsh. cbn [length].
  rewrite bind_assert by (apply bool_decide_eq_true_2; lia).
  rewrite (bind_index _ 1 (Z.of_nat (length sp))) by done.
  rewrite bind_assert by (apply bool_decide_eq_true_2; lia).
  cbn [defshape2imshape drop]. rewrite bindM_assoc, bind_lift_OK.
  unfold empty. rewrite bind_alloc.
  erewrite bind_deref by apply lookup_insert_eq.
  rewrite bind_lift_OK, bind_assert by (by apply bool_decide_eq_true_2).
  rewrite (bind_index _ 0 nI), (bind_index _ 0 nh) by done.
  rewrite !decide_False by (intros [? ?]; lia).
  rewrite bindM_eq. rewrite bool_decide_eq_false_2 by done.
  eexists. split; [reflexivity|done].
Qed.
(** X28.  Volumes are documented but not supported: on 3D images with
    matching deformations [interp_image] allocates the output and then
    raises [NotImplementedError], whether the batch sizes are equal or
    the image is broadcast. *)
Theorem interp_image_3d_not_implemented
    I h d σ aI ah nI nh a b c a' b' c' prec :
  σ !! I = Some aI → σ !! h = Some ah →
  shape aI = [nI; a; b; c]%Z → shape ah = [nh; 3; a'; b'; c']%Z →
  nI = nh ∨ nI = 1%Z →
  dtype ah = dtype aI → dtype2precision (dtype aI) = OK prec →
  ∃ σ', interp_image dtype2precision kernel I h d None σ
        = (Err NotImplementedError, σ').
Proof.
  intros HI Hh HsI Hsh Hn Hdt Hprec.
  set (o := fresh (dom σ)).
  assert (I ≠ o) as HIo by (apply fresh_not_allocated; eauto).
  assert (h ≠ o) as Hho by (apply fresh_not_allocated; eauto).
  unfold interp_image.
  rewrite (bind_deref I aI), (bind_deref h ah) by done.
  unfold ndim. rewrite HsI, Hsh. cbn [length].
  rewrite bind_assert by done.
  rewrite (bind_index _ 1 3%Z), bind_assert by done.
  cbn [defshape2imshape drop]. rewrite bindM_assoc, bind_lift_OK.
  unfold empty. rewrite bind_alloc. fold o.
  set (ao := GPUArray _ _ _ _).
  rewrite (bind_deref o ao) by apply lookup_insert_eq.
  rewrite bind_lift_OK, bind_assert by (by apply bool_decide_eq_true_2).
  rewrite (bind_index _ 0 nI), (bind_index _ 0 nh) by done.
  rewrite bindM_eq.
  destruct (decide (nI = 1%Z ∧ nh ≠ 1%Z)) as [[-> Hnh]|Hb].
  - unfold interp_image_kernel_bcastI.
    rewrite (bind_deref I aI), (bind_deref h ah), (bind_deref o ao)
      by (by rewrite ?lookup_insert_eq, ?lookup_insert_ne).
    unfold ndim. rewrite HsI, Hsh. cbn [length].
    rewrite (bind_index _ 0 1%Z), bind_assert by done.
    rewrite bind_assert by done.
    rewrite bind_assert by (apply bool_decide_eq_true_2; by rewrite Hdt).
    cbn [dtype ao]. rewrite Hprec, bind_lift_OK.
    rewrite decide_False, decide_True by done. by eexists.
  - rewrite decide_False by (intros [? ?]; lia).
    rewrite bind_assert by (apply bool_decide_eq_true_2; lia).
    unfold interp_image_kernel.
    rewrite (bind_deref I aI), (bind_deref h ah), (bind_deref o ao)
      by (by rewrite ?lookup_insert_eq, ?lookup_insert_ne).
    unfold ndim. rewrite HsI, Hsh. cbn [length].
    rewrite bind_assert by done.
    rewrite bind_assert by (apply bool_decide_eq_true_2; by rewrite Hdt).
    cbn [dtype ao]. rewrite Hprec, bind_lift_OK.
    rewrite decide_False, decide_True by done. by eexists.
Qed.

(** The same for vector fields: [interp_vec] on 3D fields raises
    [NotImplementedError]. *)
Theorem interp_vec_3d_not_implemented
    g h d σ ag ah n n' a b c a' b' c' prec :
  σ !! g = Some ag → σ !! h = Some ah →
  shape ag = [n; 3; a; b; c]%Z → shape ah = [n'; 3; a'; b'; c']%Z →
  dtype ah = dtype ag → dtype2precision (dtype ag) = OK prec →
  ∃ σ', interp_vec dtype2precision kernel g h d None σ
        = (Err NotImplementedError, σ').
Proof.
  intros Hg Hh Hsg Hsh Hdt Hprec.
  set (o := fresh (dom σ)).
  assert (g ≠ o) as Hgo by (apply fresh_not_allocated; eauto).
  assert (h ≠ o) as Hho by (apply fresh_not_allocated; eauto).
  unfold interp_vec.
  rewrite (bind_deref g ag), (bind_deref h ah) by done.
  unfold ndim. rewrite Hsg, Hsh. cbn [length].
  rewrite bind_assert by done.
  rewrite (bind_index _ 1 3%Z), bind_assert by done.
  rewrite (bind_index _ 1 3%Z), bind_assert by done.
  unfold empty_like, empty.
  rewrite !bindM_assoc, (bind_deref g ag), bind_alloc by done. fold o.
  set (ao := GPUArray _ _ _ _).
  rewrite (bind_deref o ao) by apply lookup_insert_eq.
  rewrite bind_assert by (by apply bool_decide_eq_true_2).
  rewrite bindM_eq. unfold interp_vectorfield_kernel.
  rewrite (bind_deref g ag), (bind_deref h ah), (bind_deref o ao)
    by (by rewrite ?lookup_insert_eq, ?lookup_insert_ne).
  unfold ndim. rewrite Hsg, Hsh. cbn [length].
  rewrite bind_assert by done.
  rewrite bind_assert by (apply bool_decide_eq_true_2; by rewrite Hdt).
  rewrite bind_assert by done.
  cbn [dtype ao]. rewrite Hprec, bind_lift_OK.
  rewrite decide_False, decide_True by done. by eexists.
Qed.
(** *** What a call may touch *)

Import Footprint.

Lemma deref_cases {B} l (f : gpuarray → M B) σ (P : result B * heap → Prop) :
  (∀ e, P (Err e, σ)) → (∀ a, P (f a σ)) → P ((deref l ≫= f) σ).
Proof.
  intros He Hf. unfold mbind, M_bind, deref. destruct (σ !! l); auto.
Qed.

Lemma lift_cases {A B} (r : result A) (f : A → M B) σ
    (P : result B * heap → Prop) :
  (∀ e, P (Err e, σ)) → (∀ a, P (f a σ)) → P ((lift r ≫= f) σ).
Proof. intros He Hf. unfold mbind, M_bind, lift. destruct r; auto. Qed.

Lemma returns_into_Err o σ e : returns_into o σ (Err e, σ).
Proof. split; [apply only_writes_refl|done]. Qed.

Lemma returns_fresh_Err σ e : returns_fresh σ (Err e, σ).
Proof. split; done. Qed.

Lemma returns_into_seq_ret o σ (m : M unit) :
  only_writes {[o]} σ (m σ).2 → returns_into o σ ((m ;; mret o) σ).
Proof.
  intros H. unfold returns_into, mbind, M_bind.
  destruct (m σ) as [[[]|e] σ']; cbn [fst snd] in *; split; try done.
  by intros r [= <-].
Qed.

(** A computation that returns into a location allocated for it leaves
    every array of the heap before the allocation as it was. *)
Lemma returns_into_fresh σ a (rs : result loc * heap) :
  returns_into (fresh (dom σ)) (<[fresh (dom σ) := a]> σ) rs →
  returns_fresh σ rs.
Proof.
  intros [Hw Hr].
  assert (σ !! fresh (dom σ) = None) as Ho by (apply not_elem_of_dom, is_fresh).
  split.
  - intros l [al Hl]. assert (l ≠ fresh (dom σ)) as Hne by congruence.
    rewrite Hw by set_solver. by rewrite lookup_insert_ne.
  - by intros r ->%Hr.
Qed.

Ltac frame_with tac :=
  repeat first
    [ tac
    | match goal with
      | |- only_writes _ _ ((mret _ ≫= _) _).2 => apply ret_bind_only_writes
      | |- only_writes _ _ ((_ ≫= _) _).2 =>
          apply bind_only_writes; [|intros ? ?]
      end
    | apply lift_only_writes
    | apply deref_only_writes
    | apply ret_only_writes
    | apply store_only_writes; set_solver
    | progress cbv zeta
    | match goal with
      | |- only_writes _ _ ((if ?c then _ else _) _).2 => destruct c
      end ].

(** Walks through the reads and checks at the head of a computation; an
    error there leaves the heap as it was, which [err] shows. *)
Ltac prefix P err :=
  repeat first
    [ apply (deref_cases _ _ _ P); [intros ?; err|intros ?]
    | apply (lift_cases _ _ _ P); [intros ?; err|intros ?]
    | progress cbv zeta ].

Lemma interp_image_kernel_only_writes out I h d σ :
  only_writes {[out]} σ
    (interp_image_kernel dtype2precision kernel out I h d σ).2.
Proof.
  unfold interp_image_kernel, index, assert_, raise.
  frame_with ltac:(apply launch_only_writes).
Qed.

Lemma interp_image_kernel_bcastI_only_writes out I h σ :
  only_writes {[out]} σ
    (interp_image_kernel_bcastI dtype2precision kernel out I h σ).2.
Proof.
  unfold interp_image_kernel_bcastI, index, assert_, raise.
  frame_with ltac:(apply launch_only_writes).
Qed.

Lemma interp_image_returns_into I h d out σ :
  returns_into out σ
    (interp_image dtype2precision kernel I h d (Some out) σ).
Proof.
  unfold interp_image, index, assert_.
  prefix (returns_into out σ) ltac:(apply returns_into_Err).
  apply returns_into_seq_ret. unfold raise.
  frame_with ltac:(first [ apply interp_image_kernel_only_writes
                         | apply interp_image_kernel_bcastI_only_writes ]).
Qed.

Lemma interp_image_returns_fresh I h d σ :
  returns_fresh σ (interp_image dtype2precision kernel I h d None σ).
Proof.
  unfold interp_image, index, assert_.
  prefix (returns_fresh σ) ltac:(apply returns_fresh_Err).
  rewrite bindM_assoc.
  prefix (returns_fresh σ) ltac:(apply returns_fresh_Err).
  unfold empty. rewrite bind_alloc. eapply returns_into_fresh.
  match goal with
  | |- returns_into ?o ?σ1 _ =>
      prefix (returns_into o σ1) ltac:(apply returns_into_Err)
  end.
  apply returns_into_seq_ret. unfold raise.
  frame_with ltac:(first [ apply interp_image_kernel_only_writes
                         | apply interp_image_kernel_bcastI_only_writes ]).
Qed.

(** X29.  [interp_image] changes no array but its output, whether it returns
    or raises: given an output buffer it writes that buffer only and
    returns it; given none, it leaves every existing array as it was and
    returns an array that did not exist before. *)
Theorem interp_image_frame I h d σ :
  (∀ out,
     only_writes {[out]} σ
       (interp_image dtype2precision kernel I h d (Some out) σ).2
     ∧ ∀ r, (interp_image dtype2precision kernel I h d (Some out) σ).1 = OK r
            → r = out)
  ∧ (∀ l, is_Some (σ !! l) →
          (interp_image dtype2precision kernel I h d None σ).2 !! l = σ !! l)
  ∧ (∀ r, (interp_image dtype2precision kernel I h d None σ).1 = OK r →
          σ !! r = None).
Proof.
  split; [intros out; apply interp_image_returns_into|].
  apply interp_image_returns_fresh.
Qed.

Lemma interp_vec_returns_into g h d out σ :
  returns_into out σ (interp_vec dtype2precision kernel g h d (Some out) σ).
Proof.
  unfold interp_vec, index, assert_.
  prefix (returns_into out σ) ltac:(apply returns_into_Err).
  apply returns_into_seq_ret.
  apply interp_vectorfield_kernel_only_writes.
Qed.

Lemma interp_vec_returns_fresh g h d σ :
  returns_fresh σ (interp_vec dtype2precision kernel g h d None σ).
Proof.
  unfold interp_vec, index, assert_.
  prefix (returns_fresh σ) ltac:(apply returns_fresh_Err).
  unfold empty_like. rewrite bindM_assoc.
  prefix (returns_fresh σ) ltac:(apply returns_fresh_Err).
  unfold empty. rewrite bind_alloc. eapply returns_into_fresh.
  match goal with
  | |- returns_into ?o ?σ1 _ =>
      prefix (returns_into o σ1) ltac:(apply returns_into_Err)
  end.
  apply returns_into_seq_ret.
  apply interp_vectorfield_kernel_only_writes.
Qed.

(** X30.  The same for [interp_vec]: only the output is written, and without
    an output buffer the fields [g] and [h], like every other array, are
    left as they were. *)
Theorem interp_vec_frame g h d σ :
  (∀ out,
     only_writes {[out]} σ
       (interp_vec dtype2precision kernel g h d (Some out) σ).2
     ∧ ∀ r, (interp_vec dtype2precision kernel g h d (Some out) σ).1 = OK r
            → r = out)
  ∧ (∀ l, is_Some (σ !! l) →
          (interp_vec dtype2precision kernel g h d None σ).2 !! l = σ !! l)
  ∧ (∀ r, (interp_vec dtype2precision kernel g h d None σ).1 = OK r →
          σ !! r = None).
Proof.
  split; [intros out; apply interp_vec_returns_into|].
  apply interp_vec_returns_fresh.
Qed.
(** Given an output buffer, [composeHV] with [displacement=True] returns
    that very buffer; besides it, the call writes one temporary array
    that did not exist before (the scaled copy of [v]), and nothing
    else.  ([multiply_add] is taken to write its [out] argument only.) *)
Theorem composeHV_into_buffer h v dt out σ :
  ∃ x, σ !! x = None
       ∧ only_writes {[out; x]} σ
           (composeHV dtype2precision kernel h v dt true (Some out) σ).2
       ∧ ∀ r, (composeHV dtype2precision kernel h v dt true (Some out) σ).1
              = OK r → r = out.
Proof.
  set (x := fresh (dom σ)).
  assert (σ !! x = None) as Hx by (apply not_elem_of_dom, is_fresh).
  exists x. split; [done|].
  unfold composeHV. rewrite bind_ret, bindM_eq, bindM_eq.
  destruct (copy_cases v σ) as [[e ->]|[av ->]].
  { split; [apply only_writes_refl|done]. }
  fold x. set (σ1 := <[x := av]> σ).
  assert (only_writes {[out; x]} σ σ1) as H1
    by (apply only_writes_insert; set_solver).
  match goal with
  | |- context [?body σ1] =>
      assert (only_writes {[out; x]} σ1 (body σ1).2) as H3;
      [|destruct (body σ1) as [[[]|e] σ3]; cbn [fst snd] in *]
  end.
  - frame_with ltac:(first
      [ eapply only_writes_mono; [|apply imul_only_writes]; set_solver
      | eapply only_writes_mono; [|apply interp_vec_only_writes]; set_solver
      | eapply only_writes_mono; [|apply multiply_add_only_writes];
        set_solver ]).
  - split; [by eapply only_writes_trans|]. by intros r [= <-].
  - split; [by eapply only_writes_trans|done].
Qed.
End InterpFacts.

Section InterpWitnesses.
Import Deform InterpExamples.

Lemma interp_image_same_batch_witness :
  interp_image ex_dtype2precision ex_kernel 1%positive 2%positive true None
    ex_same_heap
  = (OK (fresh (dom ex_same_heap)),
     <[fresh (dom ex_same_heap) :=
         GPUArray [1; 2; 2]%Z Streaming.float32 true (data ex_image)]>
       (<[fresh (dom ex_same_heap) :=
            GPUArray [1; 2; 2]%Z Streaming.float32 true
              (replicate 4 0%Qc)]> ex_same_heap)).
Proof.
  exact (interp_image_same_batch bool ex_dtype2precision ex_kernel
           1%positive 2%positive true ex_same_heap ex_image ex_h
           1%Z 2%Z 2%Z 2%Z 2%Z false
           eq_refl eq_refl eq_refl eq_refl eq_refl eq_refl).
Defined.

Lemma interp_image_broadcast_ignores_displacement_witness :
  ∃ o σ',
    ex_bcast_heap !! o = None
    ∧ interp_image ex_dtype2precision ex_kernel 1%positive 2%positive
        true None ex_bcast_heap = (OK o, σ')
    ∧ interp_image ex_dtype2precision ex_kernel 1%positive 2%positive
        false None ex_bcast_heap = (OK o, σ')
    ∧ σ' !! o
      = Some (GPUArray [2; 2; 2]%Z Streaming.float32 true (data ex_image)).
Proof.
  apply (interp_image_broadcast_ignores_displacement bool ex_dtype2precision
           ex_kernel 1%positive 2%positive ex_bcast_heap ex_image ex_warps
           2%Z 2%Z 2%Z 2%Z 2%Z false).
  - reflexivity.
  - reflexivity.
  - reflexivity.
  - reflexivity.
  - lia.
  - reflexivity.
  - reflexivity.
Defined.

Lemma interp_image_batch_mismatch_witness :
  ∃ ao, interp_image ex_dtype2precision ex_kernel 1%positive 2%positive
          true None ex_mismatch_heap
        = (Err AssertionError, <[fresh (dom ex_mismatch_heap) := ao]>
                                 ex_mismatch_heap)
        ∧ shape ao = [2; 4; 4]%Z.
Proof.
  apply (interp_image_batch_mismatch bool ex_dtype2precision ex_kernel
           1%positive 2%positive true ex_mismatch_heap ex_images ex_warps4
           3%Z 2%Z [4; 4]%Z [4; 4]%Z).
  - reflexivity.
  - reflexivity.
  - reflexivity.
  - reflexivity.
  - reflexivity.
  - lia.
  - lia.
  - lia.
Defined.

Lemma interp_image_3d_not_implemented_witness :
  ∃ σ', interp_image ex_dtype2precision ex_kernel 1%positive 2%positive
          true None ex_volume_heap
        = (Err NotImplementedError, σ').
Proof.
  apply (interp_image_3d_not_implemented bool ex_dtype2precision ex_kernel
           1%positive 2%positive true ex_volume_heap ex_volume ex_warp3d
           1%Z 1%Z 2%Z 2%Z 2%Z 2%Z 2%Z 2%Z false).
  - reflexivity.
  - reflexivity.
  - reflexivity.
  - reflexivity.
  - left. reflexivity.
  - reflexivity.
  - reflexivity.
Defined.

Lemma interp_vec_3d_not_implemented_witness :
  ∃ σ', interp_vec ex_dtype2precision ex_kernel 2%positive 2%positive
          true None ex_volume_heap
        = (Err NotImplementedError, σ').
Proof.
  apply (interp_vec_3d_not_implemented bool ex_dtype2precision ex_kernel
           2%positive 2%positive true ex_volume_heap ex_warp3d ex_warp3d
           1%Z 1%Z 2%Z 2%Z 2%Z 2%Z 2%Z 2%Z false).
  - reflexivity.
  - reflexivity.
  - reflexivity.
  - reflexivity.
  - reflexivity.
  - reflexivity.
Defined.
End InterpWitnesses.

(** ** Atlas fitter: the calls of a run, and when a run completes *)

Section AtlasMore.
Import Atlas.
Local Open Scope Z_scope.

Lemma epochs_foldr_OK (run : nat → result (list optimizer_call))
    (f : nat → list optimizer_call) (es : list nat) :
  (∀ e, run e = OK (f e)) →
  foldr (λ epoch acc, c ← run epoch; rest ← acc; OK (c :: rest)) (OK []) es
  = OK (map f es).
Proof.
  intros Hrun. induction es as [|e es IH]; [done|].
  cbn [foldr map]. by rewrite Hrun, bind_OK, IH, bind_OK.
Qed.

(** With a negative frequency the counter never meets it: no step is
    taken inside the loop. *)
Lemma minibatch_loop_nonpos k a ws (n : nat) st :
  1 ≤ a → ws ≤ 1 → k ≤ 0 → 0 ≤ image_iters st →
  ∃ st', minibatch_loop k a ws n st = OK st'
         ∧ image_iters st' = image_iters st + Z.of_nat n
         ∧ calls st' = calls st
         ∧ (epoch_loss_is_tensor st'
            = if n is O then epoch_loss_is_tensor st else true).
Proof.
  intros Ha Hws Hk. revert st. induction n as [|n IH]; intros st Hst.
  - exists st. repeat split. lia.
  - cbn [minibatch_loop]. rewrite minibatch_iter_OK, bind_OK by done.
    rewrite decide_False by lia.
    destruct (IH (EpochState (image_iters st + 1) (calls st) true))
      as (st' & -> & Hi & Hc & Ht); [cbn [image_iters]; lia|].
    exists st'. cbn [image_iters calls] in *.
    repeat split; [lia|done|by destruct n].
Qed.

Lemma run_epoch_calls_neg k a ws (M epoch : nat) :
  1 ≤ a → ws ≤ 1 → (1 ≤ M)%nat → k < 0 →
  run_epoch k a ws M epoch
  = OK ((if decide (epoch = 0%nat) then [ZeroGrad] else []) ++ [OptStep]).
Proof.
  intros Ha Hws HM Hk. unfold run_epoch.
  assert ((if decide (k = 0 ∨ epoch = 0%nat) then [ZeroGrad] else [])
          = (if decide (epoch = 0%nat) then [ZeroGrad] else [])) as ->
    by (repeat destruct (decide _); (done || lia)).
  set (first := if decide (epoch = 0%nat) then [ZeroGrad] else []).
  destruct (minibatch_loop_nonpos k a ws M (EpochState 0 first false))
    as (st' & -> & Hi & Hc & Ht); [lia..|done|].
  rewrite bind_OK. cbn [image_iters calls epoch_loss_is_tensor] in *.
  rewrite decide_True by lia. rewrite average_and_step_OK, bind_OK by done.
  cbn [image_iters calls epoch_loss_is_tensor].
  rewrite Ht, Hc. by destruct M; [lia|].
Qed.

(** X21.  The calls on the atlas optimizer of a whole run, epoch by epoch.
    With [image_update_freq = 0] every epoch resets the gradient and
    takes one step.  With [image_update_freq = k > 0] only the first
    epoch starts with a reset; every full group of [k] minibatches gives
    a step followed by a reset, and minibatches left over at the end give
    a last step that no reset follows, so that the next epoch accumulates
    on top of that gradient. *)
Theorem affine_atlas_call_trace
    (k a ws : Z) (M : nat) (I_given : bool) (num_epochs : nat) :
  (1 ≤ M)%nat → 1 ≤ a → ws ≤ 1 → 0 ≤ k →
  affine_atlas k a ws M I_given num_epochs
  = OK (map (λ epoch,
          if decide (k = 0) then [ZeroGrad; OptStep]
          else (if decide (epoch = 0%nat) then [ZeroGrad] else [])
               ++ List.concat
                    (replicate (Z.to_nat (Z.of_nat M / k)) [OptStep; ZeroGrad])
               ++ (if decide (Z.of_nat M mod k = 0) then [] else [OptStep]))
        (seq 0 num_epochs)).
Proof.
  intros HM Ha Hws Hk. unfold affine_atlas.
  rewrite decide_False by lia. rewrite bind_OK.
  assert ((if I_given then OK ()
           else match M with O => Err AttributeError | S _ => OK () end)
          = OK ()) as -> by (destruct I_given, M; (done || lia)).
  rewrite bind_OK. apply epochs_foldr_OK. intros epoch.
  destruct (decide (k = 0)) as [Hk0|Hk0].
  - by apply run_epoch_calls_zero.
  - apply run_epoch_calls; (done || lia).
Qed.

Lemma affine_atlas_call_trace_witness :
  affine_atlas 3 1 1 7 true 2
  = OK [[ZeroGrad; OptStep; ZeroGrad; OptStep; ZeroGrad; OptStep];
        [OptStep; ZeroGrad; OptStep; ZeroGrad; OptStep]].
Proof.
  assert (map (λ epoch : nat,
            if decide (3 = 0) then [ZeroGrad; OptStep]
            else (if decide (epoch = 0%nat) then [ZeroGrad] else [])
                 ++ List.concat
                      (replicate (Z.to_nat (Z.of_nat 7 / 3)) [OptStep; ZeroGrad])
                 ++ (if decide (Z.of_nat 7 mod 3 = 0) then [] else [OptStep]))
            (seq 0 2)
          = [[ZeroGrad; OptStep; ZeroGrad; OptStep; ZeroGrad; OptStep];
             [OptStep; ZeroGrad; OptStep; ZeroGrad; OptStep]]) as <-
    by (vm_compute; reflexivity).
  apply (affine_atlas_call_trace 3 1 1 7 true 2); lia.
Defined.

(** X22.  When a run completes.  [affine_atlas] returns exactly when there is
    a single process, an initial atlas is given or the loader is not
    empty, and, unless no epoch is asked for, the loader is not empty and
    at least one affine step is taken per minibatch.  The value of
    [image_update_freq] plays no role. *)
Theorem affine_atlas_completes_iff
    (k a ws : Z) (M : nat) (I_given : bool) (num_epochs : nat) :
  is_OK (affine_atlas k a ws M I_given num_epochs)
  ↔ ws ≤ 1
    ∧ (I_given = true ∨ (1 ≤ M)%nat)
    ∧ (num_epochs = 0%nat ∨ ((1 ≤ M)%nat ∧ 1 ≤ a)).
Proof.
  unfold affine_atlas. split.
  - intros [epochs H].
    destruct (decide (1 < ws)) as [|Hws]; [discriminate|]. rewrite bind_OK in H.
    split; [lia|]. split.
    { destruct I_given; [by left|]. right. destruct M; [discriminate|lia]. }
    destruct (if I_given then _ else _); [|discriminate]. rewrite bind_OK in H.
    destruct num_epochs as [|n]; [by left|]. right.
    apply epochs_foldr in H. cbn [seq] in H.
    apply Forall2_cons_inv_l in H as (cs & rest & Hcs & _ & _).
    by apply run_epoch_OK_inv in Hcs.
  - intros (Hws & HI & Hn). rewrite decide_False by lia. rewrite bind_OK.
    assert ((if I_given then OK ()
             else match M with O => Err AttributeError | S _ => OK () end)
            = OK ()) as ->.
    { destruct HI as [->|HM]; [done|]. destruct I_given, M; (done || lia). }
    rewrite bind_OK. destruct Hn as [->|[HM Ha]]; [by eexists|].
    induction (seq 0 num_epochs) as [|e es [rest IH]]; cbn [foldr].
    + by eexists.
    + assert (is_OK (run_epoch k a ws M e)) as [cs ->].
      { destruct (decide (k < 0)) as [Hk|Hk].
        - rewrite run_epoch_calls_neg by done. by eexists.
        - destruct (run_epoch_steps k a ws M Ha Hws e HM ltac:(lia))
            as (cs & -> & _). by eexists. }
      rewrite bind_OK, IH, bind_OK. by eexists.
Qed.

(** X23.  How a run fails.  More than one process: [NameError], whatever the
    rest.  An empty loader: [AttributeError], from the missing initial
    atlas or at the end of the first epoch.  No affine step: the first
    minibatch raises [TypeError] when the atlas is updated after every
    minibatch, and [UnboundLocalError] otherwise. *)
Theorem affine_atlas_failures
    (k a ws : Z) (M : nat) (I_given : bool) (num_epochs : nat) :
  (1 < ws → affine_atlas k a ws M I_given num_epochs = Err NameError)
  ∧ (ws ≤ 1 → M = 0%nat → I_given = false ∨ (1 ≤ num_epochs)%nat →
     affine_atlas k a ws M I_given num_epochs = Err AttributeError)
  ∧ (ws ≤ 1 → (1 ≤ M)%nat → a ≤ 0 → (1 ≤ num_epochs)%nat →
     affine_atlas k a ws M I_given num_epochs
     = Err (if decide (k = 1) then TypeError else UnboundLocalError)).
Proof.
  unfold affine_atlas. split_and!.
  - intros Hws. by rewrite decide_True by done.
  - intros Hws -> H. rewrite decide_False by lia. rewrite bind_OK.
    destruct I_given; [|done]. rewrite bind_OK.
    destruct H as [|Hn]; [done|].
    destruct num_epochs as [|n]; [lia|]. cbn [seq foldr].
    by rewrite run_epoch_empty.
  - intros Hws HM Ha Hn. rewrite decide_False by lia. rewrite bind_OK.
    assert ((if I_given then OK ()
             else match M with O => Err AttributeError | S _ => OK () end)
            = OK ()) as -> by (destruct I_given, M; (done || lia)).
    rewrite bind_OK.
    destruct num_epochs as [|n]; [lia|]. cbn [seq foldr].
    assert (run_epoch k a ws M 0
            = Err (if decide (k = 1) then TypeError else UnboundLocalError))
      as ->; [|done].
    unfold run_epoch. destruct M as [|M']; [lia|].
    cbn [minibatch_loop]. unfold minibatch_iter.
    cbn [image_iters calls epoch_loss_is_tensor].
    destruct (decide (k = 1)) as [->|Hk].
    + rewrite decide_True by done. unfold average_and_step.
      rewrite decide_False by lia. by rewrite decide_True by lia.
    + rewrite decide_False by lia. rewrite bind_OK.
      by rewrite decide_True by lia.
Qed.

Lemma affine_atlas_failures_witness :
  affine_atlas 0 1 2 4 true 1 = Err NameError
  ∧ affine_atlas 0 1 1 0 true 1 = Err AttributeError
  ∧ affine_atlas 1 0 1 4 true 1 = Err TypeError
  ∧ affine_atlas 0 0 1 4 true 1 = Err UnboundLocalError.
Proof.
  split_and!.
  - apply (proj1 (affine_atlas_failures 0 1 2 4 true 1)). lia.
  - apply (proj1 (proj2 (affine_atlas_failures 0 1 1 0 true 1)));
      [lia|reflexivity|right; lia].
  - apply (proj2 (proj2 (affine_atlas_failures 1 0 1 4 true 1))); lia.
  - apply (proj2 (proj2 (affine_atlas_failures 0 0 1 4 true 1))); lia.
Defined.
End AtlasMore.

(** ** Regridding: which arguments are accepted, and what they resolve to *)

Section RegridMore.
Import Regrid.

(** [(s-1)*.5] per spatial axis: the centre of the input grid. *)
Abbreviation centre ins := (map (λ s : Z, (Z2Qc (s - 1) * qc 1 2)%Qc) ins).

(** X15.  Whenever the geometry is resolved, [shape] was given and [origin]
    was not; the input has a batch and a channel axis; the resolved
    origin is the centre of the input grid; and the three resolved tuples
    have one entry per spatial axis. *)
Theorem regrid_geometry_resolved Ishape shape origin spacing sh o sp :
  regrid_geometry Ishape shape origin spacing = OK (sh, o, sp) →
  (∃ s, shape = Some s) ∧ origin = None
  ∧ 2 ≤ length Ishape
  ∧ o = centre (drop 2 Ishape)
  ∧ length sh = length Ishape - 2
  ∧ length o = length Ishape - 2
  ∧ length sp = length Ishape - 2.
Proof.
  unfold regrid_geometry. intros H.
  destruct shape as [shape|]; [|by destruct origin, spacing].
  destruct origin as [origin|]; [done|].
  match type of H with
  | (?m ≫= _) = _ => destruct m as [[[shape' origin'] spacing']|] eqn:Hm;
                     [|done]
  end.
  rewrite bind_OK in H.
  assert (origin' = Tuple (centre (drop 2 Ishape))) as ->.
  { destruct spacing as [spacing|]; [by injection Hm as <- <- <-|].
    destruct shape as [|l]; [done|].
    destruct (foldr _ _ _); [|done]. rewrite bind_OK in Hm.
    by injection Hm as <- <- <-. }
  cbn [as_tuple] in H.
  repeat case_bool_decide;
    repeat (progress (cbn [py_assert] in H; rewrite ?bind_OK, ?bind_Err in H));
    try discriminate.
  injection H as <- <- <-.
  rewrite length_map, length_drop in *.
  split_and!; [by eexists|done|lia|done|lia|lia|lia].
Qed.

Lemma regrid_geometry_resolved_witness :
  (∃ s, Some (Tuple [10%Z]) = Some s) ∧ (None : option (pyarg Qc)) = None
  ∧ 2 ≤ length [1%Z; 1%Z; 5%Z]
  ∧ [qc 2 1] = centre (drop 2 [1%Z; 1%Z; 5%Z])
  ∧ length [10%Z] = length [1%Z; 1%Z; 5%Z] - 2
  ∧ length [qc 2 1] = length [1%Z; 1%Z; 5%Z] - 2
  ∧ length [qc 4 9] = length [1%Z; 1%Z; 5%Z] - 2.
Proof.
  apply (regrid_geometry_resolved [1%Z; 1%Z; 5%Z] (Some (Tuple [10%Z]))
           None None [10%Z] [qc 2 1] [qc 4 9]).
  by_eval.
Defined.
(** X16.  With [shape] and [spacing] both given, they are used as they are: a
    scalar is repeated once per spatial axis, a tuple with one entry per
    axis is taken verbatim, and the origin is the centre of the input
    grid. *)
Theorem regrid_geometry_shape_spacing
    (N C : Z) (ins : list Z) (shape : pyarg Z) (spacing : pyarg Qc) :
  (∀ l, shape = Tuple l → length l = length ins) →
  (∀ l, spacing = Tuple l → length l = length ins) →
  regrid_geometry (N :: C :: ins) (Some shape) None (Some spacing)
  = OK (match shape with
        | Scalar n => replicate (length ins) n
        | Tuple l => l
        end,
        centre ins,
        match spacing with
        | Scalar s => replicate (length ins) s
        | Tuple l => l
        end).
Proof.
  intros Hsh Hsp. unfold regrid_geometry. rewrite bind_OK.
  change (drop 2 (N :: C :: ins)) with ins. cbv zeta. cbn [length].
  replace (Z.of_nat (S (S (length ins))) - 2)%Z with (Z.of_nat (length ins))
    by lia.
  assert (length (as_tuple shape (Z.of_nat (length ins))) = length ins) as E1.
  { destruct shape as [n|l]; cbn [as_tuple]; unfold py_repeat.
    - by rewrite Nat2Z.id, length_replicate.
    - by apply Hsh. }
  assert (length (as_tuple spacing (Z.of_nat (length ins))) = length ins) as E2.
  { destruct spacing as [n|l]; cbn [as_tuple]; unfold py_repeat.
    - by rewrite Nat2Z.id, length_replicate.
    - by apply Hsp. }
  cbn [as_tuple]. rewrite E1, E2, length_map.
  rewrite !bool_decide_eq_true_2 by done.
  cbn [py_assert]. rewrite !bind_OK.
  destruct shape, spacing; cbn [as_tuple]; unfold py_repeat;
    by rewrite ?Nat2Z.id.
Qed.

Lemma regrid_geometry_shape_spacing_witness :
  regrid_geometry [1%Z; 1%Z; 5%Z; 7%Z] (Some (Scalar 10%Z)) None
    (Some (Tuple [qc 1 2; qc 3 4]))
  = OK ([10%Z; 10%Z], [qc 2 1; qc 3 1], [qc 1 2; qc 3 4]).
Proof.
  assert ((replicate (length [5%Z; 7%Z]) 10%Z, centre [5%Z; 7%Z],
           [qc 1 2; qc 3 4])
          = ([10%Z; 10%Z], [qc 2 1; qc 3 1], [qc 1 2; qc 3 4])) as <-
    by by_eval.
  apply (regrid_geometry_shape_spacing 1 1 [5%Z; 7%Z] (Scalar 10%Z)
           (Tuple [qc 1 2; qc 3 4])).
  - discriminate.
  - by intros l [= <-].
Defined.

(** X17.  The argument combinations that [regrid] refuses, whatever the image
    and the kernel: nothing given and origin with spacing raise
    [ValueError]; spacing alone, origin alone and every call that gives
    [shape] together with [origin] raise [NotImplementedError]; a scalar
    [shape] without [spacing] raises [TypeError].  A [RegridModule] that
    holds an origin therefore never returns. *)
Theorem regrid_refused_arguments
    (regrid_forward : field → list Z → list Qc → list Qc → result field)
    (I : field) (d : bool) :
  regrid regrid_forward I None None None d = Err ValueError
  ∧ (∀ sp, regrid regrid_forward I None None (Some sp) d
           = Err NotImplementedError)
  ∧ (∀ o, regrid regrid_forward I None (Some o) None d
          = Err NotImplementedError)
  ∧ (∀ o sp, regrid regrid_forward I None (Some o) (Some sp) d
             = Err ValueError)
  ∧ (∀ sh o sp, regrid regrid_forward I (Some sh) (Some o) sp d
                = Err NotImplementedError)
  ∧ (∀ n, regrid regrid_forward I (Some (Scalar n)) None None d
          = Err TypeError)
  ∧ (∀ sh o sp,
       RegridModule.forward regrid_forward
         (RegridModule.Build sh (Some o) sp) I
       = Err (match sh, sp with
              | None, Some _ => ValueError
              | _, _ => NotImplementedError
              end)).
Proof.
  unfold RegridModule.forward, regrid, regrid_geometry.
  split_and!; try done.
  intros [sh|] o [sp|]; done.
Qed.

(** A [shape] tuple that does not have one entry per spatial axis is
    refused with [AssertionError] (here with [spacing] given, so that
    nothing is computed from the shape before the check). *)
Theorem regrid_geometry_wrong_length
    (N C : Z) (ins outs : list Z) (spacing : pyarg Qc) :
  length outs ≠ length ins →
  regrid_geometry (N :: C :: ins) (Some (Tuple outs)) None (Some spacing)
  = Err AssertionError.
Proof.
  intros Hlen. unfold regrid_geometry. rewrite bind_OK.
  cbv zeta. cbn [as_tuple length].
  rewrite (bool_decide_eq_false_2 (Z.of_nat (length outs) = _)) by lia.
  done.
Qed.

Lemma regrid_geometry_wrong_length_witness :
  regrid_geometry [1%Z; 1%Z; 5%Z; 7%Z] (Some (Tuple [10%Z])) None
    (Some (Scalar (qc 1 2)))
  = Err AssertionError.
Proof.
  apply (regrid_geometry_wrong_length 1 1 [5%Z; 7%Z] [10%Z]). simpl. lia.
Defined.

(** X18.  An output size of 1 cannot be asked for by [shape] alone: the
    spacing [(sI-1)/(s-1)] of that axis divides by zero. *)
Theorem regrid_geometry_size_one (N C : Z) (ins outs : list Z) (i : nat) :
  i < length ins → outs !! i = Some 1%Z →
  regrid_geometry (N :: C :: ins) (Some (Tuple outs)) None None
  = Err ZeroDivisionError.
Proof.
  intros Hi Hout. unfold regrid_geometry.
  change (drop 2 (N :: C :: ins)) with ins.
  assert (foldr (λ '(sI, s) acc,
                   x ← Streaming.int_truediv (sI - 1) (s - 1);
                   rest ← acc;
                   OK (x :: rest))
                (OK []) (zip ins outs)
          = Err ZeroDivisionError) as ->; [|done].
  revert ins outs Hi Hout.
  induction i as [|i IH]; intros [|sI ins] [|s outs] Hi Hout;
    simpl in Hi; try done; try lia; cbn [zip zip_with foldr].
  - injection Hout as ->. unfold Streaming.int_truediv.
    by rewrite decide_True by lia.
  - rewrite (IH ins outs) by (done || lia).
    unfold Streaming.int_truediv. by destruct (decide _).
Qed.

Lemma regrid_geometry_size_one_witness :
  regrid_geometry [1%Z; 1%Z; 5%Z; 7%Z] (Some (Tuple [10%Z; 1%Z])) None None
  = Err ZeroDivisionError.
Proof.
  apply (regrid_geometry_size_one 1 1 [5%Z; 7%Z] [10%Z; 1%Z] 1).
  - simpl. lia.
  - reflexivity.
Defined.

Section Forward.
Variable regrid_forward : field → list Z → list Qc → list Qc → result field.

(** X19.  A field whose channel count is not its number of spatial axes is
    regridded as an image, unchanged from the kernel's output, but
    refused with [ValueError] as a displacement; the kernel has run by
    then. *)
Theorem forward_channel_mismatch I outshape origin spacing reg c :
  regrid_forward I outshape origin spacing = OK reg →
  fshape I !! 1 = Some c → c ≠ (Z.of_nat (length (fshape I)) - 2)%Z →
  forward regrid_forward I outshape origin spacing true = Err ValueError
  ∧ ∃ ctx, forward regrid_forward I outshape origin spacing false
           = OK (ctx, reg)
           ∧ ctx_spacing_tensor ctx = None.
Proof.
  intros Hreg Hc Hne. unfold forward. rewrite Hreg, !bind_OK, Hc, bind_OK.
  cbv beta zeta. rewrite decide_True by done. split; [done|].
  by eexists.
Qed.

End Forward.

Lemma forward_channel_mismatch_witness :
  forward ex_forward (Field [1; 2; 5]%Z (fdata ex_I)) [10%Z] [qc 2 1] [qc 4 9]
    true = Err ValueError
  ∧ ∃ ctx, forward ex_forward (Field [1; 2; 5]%Z (fdata ex_I)) [10%Z]
             [qc 2 1] [qc 4 9] false
           = OK (ctx, Field [1; 1; 10]%Z
                        [[[qc 1 1; qc 1 1; qc 2 1; qc 2 1; qc 3 1; qc 3 1;
                           qc 4 1; qc 4 1; qc 5 1; qc 5 1]]])
           ∧ ctx_spacing_tensor ctx = None.
Proof.
  apply (forward_channel_mismatch ex_forward (Field [1; 2; 5]%Z (fdata ex_I))
           [10%Z] [qc 2 1] [qc 4 9] _ 2%Z).
  - reflexivity.
  - reflexivity.
  - simpl. lia.
Defined.


Lemma forward_displacement_OK_witness :
  is_OK (forward ex_forward ex_I [10%Z] [qc 2 1] [qc 4 9] true).
Proof.
  apply (forward_displacement_OK ex_forward ex_I [10%Z] [qc 2 1] [qc 4 9]
           (Field [1; 1; 10]%Z
              [[[qc 1 1; qc 1 1; qc 2 1; qc 2 1; qc 3 1; qc 3 1;
                 qc 4 1; qc 4 1; qc 5 1; qc 5 1]]])).
  - reflexivity.
  - reflexivity.
  - reflexivity.
  - repeat constructor.
Defined.
End RegridMore.

(** ** Streaming average: edge cases, element type and closed form *)

Section StreamingMore.
Import Streaming.

Lemma batch_step_avg dim st img st' :
  batch_step dim st img = OK st' →
  is_Some (avg st')
  ∧ seen_dtype st' = Some (default (pix_dtype img) (seen_dtype st)).
Proof.
  unfold batch_step. destruct (shape_at img dim) as [sz|]; [|done].
  rewrite bind_OK.
  match goal with
  | |- (?m ≫= _) = _ → _ => destruct m as [a'|]; [|done]
  end.
  rewrite bind_OK. intros [= <-]. cbn [avg seen_dtype].
  split; [by eexists|]. by destruct (seen_dtype st).
Qed.

Lemma batch_loop_avg ri dim st dl st' :
  batch_loop ri dim st dl = OK st' →
  is_Some (avg st) → is_Some (seen_dtype st) →
  is_Some (avg st') ∧ seen_dtype st' = seen_dtype st.
Proof.
  revert st. induction dl as [|it dl IH]; intros st; cbn [batch_loop].
  - by intros [= <-].
  - destruct (batch_step dim st (unpack ri it)) as [st1|] eqn:Hstep; [|done].
    rewrite bind_OK. intros Hloop Ha [d Hd].
    apply batch_step_avg in Hstep as [Ha1 Hd1].
    rewrite Hd in Hd1. cbn [default] in Hd1.
    destruct (IH st1 Hloop Ha1) as [Ha' Hd']; [by rewrite Hd1|].
    split; [done|]. by rewrite Hd', Hd1, Hd.
Qed.

(** X1.  The result is [None] exactly on an empty loader, and otherwise its
    element type is decided by the first batch alone: [float32] for a
    [float32] first batch, [float64] for every other element type. *)
Theorem batch_average_result ri dim (dl : list (loader_item ri)) r :
  batch_average ri dim dl = OK r →
  match dl with
  | [] => r = None
  | it :: _ =>
      ∃ m, r = Some m
           ∧ mean_dtype m = match pix_dtype (unpack ri it) with
                            | float32 => float32
                            | _ => float64
                            end
  end.
Proof.
  unfold batch_average. destruct dl as [|it dl]; cbn [batch_loop].
  - rewrite bind_OK. by intros [= <-].
  - destruct (batch_step dim _ (unpack ri it)) as [st1|] eqn:Hstep; [|done].
    rewrite bind_OK.
    destruct (batch_loop ri dim st1 dl) as [st'|] eqn:Hloop; [|done].
    rewrite bind_OK. intros [= <-].
    apply batch_step_avg in Hstep as [Ha1 Hd1]. cbn [seen_dtype default] in Hd1.
    destruct (batch_loop_avg _ _ _ _ _ Hloop Ha1) as [[a Ha] Hd];
      [by rewrite Hd1|].
    rewrite Ha, Hd, Hd1.
    destruct (pix_dtype (unpack ri it)); by eexists.
Qed.

Lemma batch_average_result_witness :
  ∃ m, Some (MeanTensor float64 [qc 17 5; qc 24 5]) = Some m
       ∧ mean_dtype m = match pix_dtype (unpack false batch_a) with
                        | float32 => float32
                        | _ => float64
                        end.
Proof.
  apply (batch_average_result false 0 two_batches
           (Some (MeanTensor float64 [qc 17 5; qc 24 5]))).
  by_eval.
Defined.

Lemma batch_loop_ignores_indices dim st (dl : list (loader_item true)) :
  batch_loop true dim st dl
  = batch_loop false dim st (map snd dl : list (loader_item false)).
Proof.
  revert st. induction dl as [|[ix img] dl IH]; intros st; [done|].
  cbn [batch_loop map unpack snd].
  destruct (batch_step dim st img) as [st1|]; [|done].
  rewrite !bind_OK. apply IH.
Qed.

(** X2.  With [returns_indices=True] the indices of every item are dropped
    and nothing else changes: the result is that of the bare batches. *)
Theorem batch_average_ignores_indices dim (dl : list (loader_item true)) :
  batch_average true dim dl
  = batch_average false dim (map snd dl : list (loader_item false)).
Proof. unfold batch_average. by rewrite batch_loop_ignores_indices. Qed.

(** X3.  The size of a batch is read along [dim] although the sum is always
    taken along axis 0; a [dim] beyond the rank of the first batch raises
    [IndexError], and two leading batches of size 0 along [dim] make the
    weight of the running value [0/0], a [ZeroDivisionError]. *)
Theorem batch_average_errors dim (b1 b2 : image_batch)
    (rest : list image_batch) :
  (length (item_shape b1) < dim →
   batch_average false dim (b1 :: rest) = Err IndexError)
  ∧ (shape_at b1 dim = OK 0%Z → shape_at b2 dim = OK 0%Z →
     batch_average false dim (b1 :: b2 :: rest) = Err ZeroDivisionError).
Proof.
  unfold batch_average. split.
  - intros Hdim. cbn [batch_loop unpack]. unfold batch_step, shape_at.
    rewrite (lookup_ge_None_2 _ dim) by (cbn [length]; lia). done.
  - intros H1 H2. cbn [batch_loop unpack]. unfold batch_step.
    rewrite H1, !bind_OK. cbn [avg seen_dtype sumsizes].
    rewrite !bind_OK, H2, bind_OK.
    cbn [avg seen_dtype sumsizes]. unfold int_truediv.
    by rewrite decide_True by lia.
Qed.

Lemma batch_average_errors_witness :
  batch_average false 2 [batch_a; batch_b] = Err IndexError
  ∧ batch_average false 0
      [ImageBatch float64 [2%Z] []; ImageBatch float64 [2%Z] []; batch_a]
    = Err ZeroDivisionError.
Proof.
  split.
  - apply (proj1 (batch_average_errors 2 batch_a batch_a [batch_b])).
    simpl. lia.
  - apply (proj2 (batch_average_errors 0 (ImageBatch float64 [2%Z] [])
                    (ImageBatch float64 [2%Z] []) [batch_a]));
      reflexivity.
Defined.

(** *** The closed form of the result *)

Lemma vadd_assoc (a b c : list Qc) :
  Affine.vadd (Affine.vadd a b) c = Affine.vadd a (Affine.vadd b c).
Proof.
  unfold Affine.vadd. revert b c.
  induction a as [|x a IH]; intros [|y b] [|z c]; try done.
  cbn [zip_with]. f_equal; [ring|apply IH].
Qed.

Lemma vadd_zeros (a : list Qc) :
  Affine.vadd a (replicate (length a) 0%Qc) = a.
Proof.
  unfold Affine.vadd. induction a as [|x a IH]; [done|].
  cbn [length replicate zip_with]. f_equal; [ring|apply IH].
Qed.

Lemma length_vadd (a b : list Qc) n :
  length a = n → length b = n → length (Affine.vadd a b) = n.
Proof. intros Ha Hb. unfold Affine.vadd. rewrite length_zip_with. lia. Qed.

Lemma foldl_vadd (n : nat) (a : list Qc) (l : list (list Qc)) :
  length a = n → Forall (λ s, length s = n) l →
  foldl Affine.vadd a l
  = Affine.vadd a (foldr Affine.vadd (replicate n 0%Qc) l).
Proof.
  intros Ha Hl. revert a Ha.
  induction Hl as [|s l Hs _ IH]; intros a Ha; cbn [foldl foldr].
  - by rewrite <- Ha, vadd_zeros.
  - rewrite IH by (by apply length_vadd). apply vadd_assoc.
Qed.

Lemma map_scale_inv (N : Qc) (r T : list Qc) :
  N ≠ 0%Qc → map (λ x, (x * N)%Qc) r = T → r = map (λ x, (x / N)%Qc) T.
Proof.
  intros HN <-. rewrite map_map. rewrite <- (map_id r) at 1.
  apply map_ext. intros x. by field.
Qed.

Lemma total_count_nonneg (l : list image_batch) : (0 ≤ total_count l)%Z.
Proof.
  unfold total_count. induction l as [|b l IH]; cbn [map foldr]; [lia|].
  assert (0 ≤ batch_size b)%Z by (unfold batch_size; lia). lia.
Qed.

(** X4.  On a stream of batches of one item shape whose first batch has
    [n1 > 0] items, the result is [(n1 * s1 + s2 + ... + sk) / N], with
    [s_i] the sum of batch [i] and [N] the number of all items: the first
    batch sum carries the weight [n1].  It is the mean of the items
    when the first batch has exactly one item. *)
Theorem batch_average_closed_form (b : image_batch)
    (rest : list image_batch) :
  (0 < batch_size b)%Z →
  Forall (λ b', length (sum0 b') = item_numel b) (b :: rest) →
  ∃ dt r,
    batch_average false 0 (b :: rest) = OK (Some (MeanTensor dt r))
    ∧ r = map (λ x, (x / Z2Qc (total_count (b :: rest)))%Qc)
            (Affine.vadd (map (λ x, (x * Z2Qc (batch_size b))%Qc) (sum0 b))
                         (total_sum (item_numel b) rest))
    ∧ (batch_size b = 1%Z → r = mean_spec (b :: rest)).
Proof.
  intros Hb [Hlb Hrest]%Forall_cons.
  destruct (batch_average_weighted_sum b rest Hb) as (dt & r & Hr & Hw).
  exists dt, r. split; [exact Hr|].
  pose proof (total_count_nonneg rest) as Hpos.
  assert (Z2Qc (total_count (b :: rest)) ≠ 0%Qc) as HN.
  { apply Z2Qc_nonzero. unfold total_count in *. cbn [map foldr]. lia. }
  rewrite (foldl_vadd (item_numel b)) in Hw;
    [|by rewrite length_map|by apply Forall_fmap].
  apply (map_scale_inv _ _ _ HN) in Hw. split; [exact Hw|].
  intros H1. rewrite Hw. unfold mean_spec, total_sum.
  cbn [map foldr]. rewrite H1. do 2 f_equal.
  rewrite <- (map_id (sum0 b)) at 2. apply map_ext. intros x.
  change (Z2Qc 1) with 1%Qc. ring.
Qed.

Lemma batch_average_closed_form_witness :
  ∃ dt r,
    batch_average false 0 (batch_a :: [batch_b])
    = OK (Some (MeanTensor dt r))
    ∧ r = map (λ x, (x / Z2Qc (total_count (batch_a :: [batch_b])))%Qc)
            (Affine.vadd
               (map (λ x, (x * Z2Qc (batch_size batch_a))%Qc) (sum0 batch_a))
               (total_sum (item_numel batch_a) [batch_b]))
    ∧ (batch_size batch_a = 1%Z → r = mean_spec (batch_a :: [batch_b])).
Proof.
  apply (batch_average_closed_form batch_a [batch_b]).
  - reflexivity.
  - repeat constructor.
Defined.
End StreamingMore.
